(** * dyninst-tests: a shallow embedding of [cfg-parse] and [unknown-x86]

    The two programs are diagnostic tools built on the Dyninst CFG
    engine.  [unknown-x86] cross-checks Dyninst's x86_64 decoder with XED
    (unknown-instruction callback, per-block length validation, gaps
    between blocks); [cfg-parse] dumps the control-flow graph in a
    canonical order.

    The engine (Dyninst), the reference decoder (XED) and [std::sort] are
    external to the repository.  They enter the model as section variables:
    [xed_decode] is an arbitrary function from byte windows to an optional
    length, and [std_sort] is an arbitrary function satisfying the contract
    the C++ standard gives for [std::sort]. *)

From Stdlib Require Import ZArith String Ascii Lia.
From Stdlib.Strings Require Import Byte.
From stdpp Require Import base tactics option list numbers sorting.

Local Open Scope Z_scope.

(** ** Machine integers

    [Address] and [Offset] are [unsigned long]: arithmetic on them wraps
    modulo 2^64.  The [long] counters of the summary are modelled as
    mathematical integers: signed overflow is undefined in C++ and a
    counter would need 2^63 events to reach it. *)

Definition wrap64 (z : Z) : Z := z mod 2 ^ 64.

(** Conversion of an [unsigned long] value to [long] (two's complement). *)
Definition to_long (z : Z) : Z :=
  let u := wrap64 z in if u <? 2 ^ 63 then u else u - 2 ^ 64.

Definition INT_MAX : Z := 2 ^ 31 - 1.

(** ** Outcome of a procedure

    [Done a] is a normal return, [Exit c] is a call of [exit(c)] (or
    [err]/[errx]), and [Fault] is undefined behaviour: an access outside an
    array or vector, or an [int] overflow. *)

Inductive Result (A : Type) : Type :=
| Done (a : A)
| Exit (code : Z)
| Fault.

Arguments Done {A} a.
Arguments Exit {A} code.
Arguments Fault {A}.

Definition rbind {A B : Type} (m : Result A) (k : A → Result B) : Result B :=
  match m with
  | Done a => k a
  | Exit c => Exit c
  | Fault => Fault
  end.

#[global] Instance Result_ret : MRet Result := λ A a, Done a.
#[global] Instance Result_bind : MBind Result := λ A B k m, rbind m k.

(** The outcome with a function applied to what a normal return yields. *)
Definition rmap {A B : Type} (f : A → B) (m : Result A) : Result B :=
  match m with
  | Done a => Done (f a)
  | Exit c => Exit c
  | Fault => Fault
  end.

(** The sum of a list of integers. *)
Definition sum_Z (l : list Z) : Z := foldr Z.add 0 l.

(** ** The contract of [std::sort]

    [std::sort(first, last, comp)] requires [comp] to be a strict weak
    ordering and leaves the range a permutation of its former content in
    which no element compares less than an earlier one.  The order of
    equivalent elements is not specified. *)

Record strict_weak_order {A : Type} (lt : A → A → bool) : Prop := {
  swo_irrefl : ∀ x, lt x x = false;
  swo_trans : ∀ x y z, lt x y = true → lt y z = true → lt x z = true;
  swo_cotrans : ∀ x y z, lt x z = true → lt x y = true ∨ lt y z = true
}.

Definition not_after {A : Type} (lt : A → A → bool) (x y : A) : Prop :=
  lt y x = false.

Definition sort_contract (sort : ∀ A : Type, (A → A → bool) → list A → list A) : Prop :=
  ∀ (A : Type) (lt : A → A → bool), strict_weak_order lt →
    ∀ l : list A, l ≡ₚ sort A lt l ∧ StronglySorted (not_after lt) (sort A lt l).

(** Position order is key order, for elements with different keys. *)
Definition ordered_by {A : Type} (key : A → Z) (l : list A) : Prop :=
  ∀ i j x y, l !! i = Some x → l !! j = Some y → key x ≠ key y →
    (i < j)%nat ↔ key x < key y.

(** Two implementations that meet the contract: insertion sorts that put a
    new element after, respectively before, the elements equivalent to it. *)

Fixpoint insert_after {A : Type} (lt : A → A → bool) (x : A) (l : list A) : list A :=
  match l with
  | [] => [x]
  | y :: l' => if lt x y then x :: y :: l' else y :: insert_after lt x l'
  end.

Definition sort_ties_reversed (A : Type) (lt : A → A → bool) (l : list A) : list A :=
  foldr (insert_after lt) [] l.

Fixpoint insert_before {A : Type} (lt : A → A → bool) (x : A) (l : list A) : list A :=
  match l with
  | [] => [x]
  | y :: l' => if lt y x then y :: insert_before lt x l' else x :: y :: l'
  end.

Definition sort_ties_kept (A : Type) (lt : A → A → bool) (l : list A) : list A :=
  foldr (insert_before lt) [] l.

(** ** [std::sort] of libstdc++

    The contract leaves the order of equivalent elements open; what a
    program built with GCC gets is the [std::sort] of libstdc++, in
    [bits/stl_algo.h] and [bits/stl_heap.h] (GCC 12): an introsort, which
    partitions ranges of more than 16 elements around a median of three,
    falls back to a heap sort when the recursion gets too deep, and
    finishes with an insertion sort.  The functions below follow that
    text, with the vector as a list and iterators as indices.  A result
    [None] means that an iterator left the vector or that a loop ran out
    of [fuel], which bounds its turns by the length of the vector: with a
    strict weak ordering neither happens, and otherwise the behaviour of
    the library is undefined. *)

Module Libstdcxx.

Section Sort.

Context {A : Type} (__comp : A → A → bool).

(** [enum { _S_threshold = 16 };] *)
Definition _S_threshold : nat := 16.

(** [std::iter_swap(a, b)] *)
Definition iter_swap (a b : nat) (v : list A) : option (list A) :=
  x ← v !! a; y ← v !! b; Some (<[b:=x]> (<[a:=y]> v)).

(** Swaps the median value of *a, *b and *c under comp to *result *)
Definition __move_median_to_first (result a b c : nat) (v : list A)
    : option (list A) :=
  va ← v !! a; vb ← v !! b; vc ← v !! c;
  if __comp va vb then
    if __comp vb vc then iter_swap result b v
    else if __comp va vc then iter_swap result c v
    else iter_swap result a v
  else if __comp va vc then iter_swap result a v
  else if __comp vb vc then iter_swap result c v
  else iter_swap result b v.

(** [while (__comp(__first, __pivot)) ++__first;] *)
Fixpoint scan_up (fuel : nat) (first pivot : nat) (v : list A) : option nat :=
  match fuel with
  | O => None
  | S fuel' =>
      x ← v !! first; p ← v !! pivot;
      if __comp x p then scan_up fuel' (S first) pivot v else Some first
  end.

(** [while (__comp(__pivot, __last)) --__last;] *)
Fixpoint scan_down (fuel : nat) (last pivot : nat) (v : list A) : option nat :=
  match fuel with
  | O => None
  | S fuel' =>
      x ← v !! last; p ← v !! pivot;
      if __comp p x then
        match last with
        | O => None
        | S last' => scan_down fuel' last' pivot v
        end
      else Some last
  end.

(** The [while (true)] loop of [__unguarded_partition]. *)
Fixpoint __unguarded_partition_loop (fuel : nat) (first last pivot : nat)
    (v : list A) : option (nat * list A) :=
  match fuel with
  | O => None
  | S fuel' =>
      first ← scan_up (S (length v)) first pivot v;
      (* --__last *)
      match last with
      | O => None
      | S last =>
          last ← scan_down (S (length v)) last pivot v;
          if negb (first <? last)%nat then Some (first, v)
          else
            v ← iter_swap first last v;
            __unguarded_partition_loop fuel' (S first) last pivot v
      end
  end.

Definition __unguarded_partition (first last pivot : nat) (v : list A)
    : option (nat * list A) :=
  __unguarded_partition_loop (S (length v)) first last pivot v.

Definition __unguarded_partition_pivot (first last : nat) (v : list A)
    : option (nat * list A) :=
  let mid := (first + (last - first) / 2)%nat in
  v ← __move_median_to_first first (first + 1)%nat mid (last - 1)%nat v;
  __unguarded_partition (first + 1)%nat last first v.

(** The loop of [__push_heap]: the hole moves up while it is below
    [topIndex] and its parent is less than [value]; the distances are
    signed, and their division rounds towards zero. *)
Fixpoint __push_heap_loop (fuel : nat) (first holeIndex topIndex : nat)
    (value : A) (v : list A) : option (list A) :=
  match fuel with
  | O => None
  | S fuel' =>
      let parent := Z.to_nat ((Z.of_nat holeIndex - 1) ÷ 2) in
      if (topIndex <? holeIndex)%nat then
        p ← v !! (first + parent)%nat;
        if __comp p value then
          __push_heap_loop fuel' first parent topIndex value
            (<[(first + holeIndex)%nat := p]> v)
        else Some (<[(first + holeIndex)%nat := value]> v)
      else Some (<[(first + holeIndex)%nat := value]> v)
  end.

Definition __push_heap (first holeIndex topIndex : nat) (value : A) (v : list A)
    : option (list A) :=
  __push_heap_loop (S (length v)) first holeIndex topIndex value v.

(** The first loop of [__adjust_heap]: the hole moves down to the child
    that is not less than the other. *)
Fixpoint __adjust_heap_loop (fuel : nat) (first holeIndex secondChild len : nat)
    (v : list A) : option (nat * nat * list A) :=
  match fuel with
  | O => None
  | S fuel' =>
      if Z.of_nat secondChild <? (Z.of_nat len - 1) ÷ 2 then
        let secondChild := (2 * (secondChild + 1))%nat in
        c ← v !! (first + secondChild)%nat;
        c' ← v !! (first + (secondChild - 1))%nat;
        let secondChild :=
          if __comp c c' then (secondChild - 1)%nat else secondChild in
        x ← v !! (first + secondChild)%nat;
        __adjust_heap_loop fuel' first secondChild secondChild len
          (<[(first + holeIndex)%nat := x]> v)
      else Some (holeIndex, secondChild, v)
  end.

Definition __adjust_heap (first holeIndex len : nat) (value : A) (v : list A)
    : option (list A) :=
  let topIndex := holeIndex in
  '(holeIndex, secondChild, v) ←
    __adjust_heap_loop (S (length v)) first holeIndex holeIndex len v;
  '(holeIndex, v) ←
    (if Nat.even len && (Z.of_nat secondChild =? (Z.of_nat len - 2) ÷ 2) then
       let secondChild := (2 * (secondChild + 1))%nat in
       x ← v !! (first + (secondChild - 1))%nat;
       Some ((secondChild - 1)%nat, <[(first + holeIndex)%nat := x]> v)
     else Some (holeIndex, v));
  __push_heap first holeIndex topIndex value v.

Definition __pop_heap (first last result : nat) (v : list A) : option (list A) :=
  value ← v !! result;
  x ← v !! first;
  __adjust_heap first 0 (last - first) value (<[result := x]> v).

(** The [while (true)] loop of [__make_heap], from [parent] down to 0. *)
Fixpoint __make_heap_loop (first len parent : nat) (v : list A)
    : option (list A) :=
  value ← v !! (first + parent)%nat;
  v ← __adjust_heap first parent len value v;
  match parent with
  | O => Some v
  | S parent' => __make_heap_loop first len parent' v
  end.

Definition __make_heap (first last : nat) (v : list A) : option (list A) :=
  if (last - first <? 2)%nat then Some v
  else
    let len := (last - first)%nat in
    __make_heap_loop first len (Z.to_nat ((Z.of_nat len - 2) ÷ 2)) v.

(** The [for] loop of [__heap_select], with [n] iterations left. *)
Fixpoint __heap_select_loop (n : nat) (first middle i : nat) (v : list A)
    : option (list A) :=
  match n with
  | O => Some v
  | S n' =>
      x ← v !! i; f ← v !! first;
      v ← (if __comp x f then __pop_heap first middle i v else Some v);
      __heap_select_loop n' first middle (S i) v
  end.

Definition __heap_select (first middle last : nat) (v : list A)
    : option (list A) :=
  v ← __make_heap first middle v;
  __heap_select_loop (last - middle) first middle middle v.

(** [while (__last - __first > 1) { --__last; __pop_heap(...); }] *)
Fixpoint __sort_heap_loop (fuel : nat) (first last : nat) (v : list A)
    : option (list A) :=
  match fuel with
  | O => None
  | S fuel' =>
      if (1 <? last - first)%nat then
        let last := (last - 1)%nat in
        v ← __pop_heap first last last v;
        __sort_heap_loop fuel' first last v
      else Some v
  end.

Definition __sort_heap (first last : nat) (v : list A) : option (list A) :=
  __sort_heap_loop (S (length v)) first last v.

Definition __partial_sort (first middle last : nat) (v : list A)
    : option (list A) :=
  v ← __heap_select first middle last v;
  __sort_heap first middle v.

(** The loop of [__unguarded_linear_insert]: [val] moves down from
    [last] while it is less than the element before it. *)
Fixpoint __unguarded_linear_insert_loop (fuel : nat) (val : A) (last : nat)
    (v : list A) : option (list A) :=
  match fuel with
  | O => None
  | S fuel' =>
      (* __next = __last; --__next *)
      match last with
      | O => None
      | S next =>
          x ← v !! next;
          if __comp val x
          then __unguarded_linear_insert_loop fuel' val next (<[last := x]> v)
          else Some (<[last := val]> v)
      end
  end.

Definition __unguarded_linear_insert (last : nat) (v : list A)
    : option (list A) :=
  val ← v !! last;
  __unguarded_linear_insert_loop (S (length v)) val last v.

(** The [for] loop of [__insertion_sort], with [n] iterations left. *)
Fixpoint __insertion_sort_loop (n : nat) (first i : nat) (v : list A)
    : option (list A) :=
  match n with
  | O => Some v
  | S n' =>
      x ← v !! i; f ← v !! first;
      v ← (if __comp x f then
             (* move_backward(first, i, i + 1); *first = val *)
             Some (take first v ++ x :: take (i - first) (drop first v)
                   ++ drop (S i) v)
           else __unguarded_linear_insert i v);
      __insertion_sort_loop n' first (S i) v
  end.

Definition __insertion_sort (first last : nat) (v : list A) : option (list A) :=
  if (first =? last)%nat then Some v
  else __insertion_sort_loop (last - (first + 1)) first (first + 1)%nat v.

(** The [for] loop of [__unguarded_insertion_sort], with [n] iterations
    left. *)
Fixpoint __unguarded_insertion_sort_loop (n : nat) (i : nat) (v : list A)
    : option (list A) :=
  match n with
  | O => Some v
  | S n' =>
      v ← __unguarded_linear_insert i v;
      __unguarded_insertion_sort_loop n' (S i) v
  end.

Definition __unguarded_insertion_sort (first last : nat) (v : list A)
    : option (list A) :=
  __unguarded_insertion_sort_loop (last - first) first v.

Definition __final_insertion_sort (first last : nat) (v : list A)
    : option (list A) :=
  if (_S_threshold <? last - first)%nat then
    v ← __insertion_sort first (first + _S_threshold)%nat v;
    __unguarded_insertion_sort (first + _S_threshold)%nat last v
  else __insertion_sort first last v.

(** [__introsort_loop]: each turn of the [while] loop takes one from
    [depth_limit], sorts the upper part by a call of its own and goes on
    with the lower part. *)
Fixpoint __introsort_loop (depth_limit : nat) (first last : nat) (v : list A)
    : option (list A) :=
  if (_S_threshold <? last - first)%nat then
    match depth_limit with
    | O => __partial_sort first last last v
    | S depth_limit' =>
        '(cut, v) ← __unguarded_partition_pivot first last v;
        v ← __introsort_loop depth_limit' cut last v;
        __introsort_loop depth_limit' first cut v
    end
  else Some v.

(** [std::__sort(first, last, comp)] on the whole vector; [std::__lg] is
    the binary logarithm, rounded down. *)
Definition __sort (v : list A) : option (list A) :=
  let first := 0%nat in
  let last := length v in
  if (first =? last)%nat then Some v
  else
    v ← __introsort_loop (Nat.log2 (last - first) * 2) first last v;
    __final_insertion_sort first last v.

End Sort.

(** [std::sort(v.begin(), v.end(), comp)], as a function on the content of
    the vector; the vector stays as it is where the library's behaviour is
    undefined. *)
Definition sort (A : Type) (comp : A → A → bool) (v : list A) : list A :=
  default v (__sort comp v).

End Libstdcxx.

(** * unknown-x86 *)

Module UnknownX86.

(** ** Command-line options (class [Options]) *)

Record Options : Type := {
  filename : option string;
  jobs : Z;
  quiet : bool;
  verbose : bool;
  fix_valid : bool;
  fix_troll : bool
}.

Definition default_options : Options :=
  {| filename := None; jobs := 1; quiet := false; verbose := false;
     fix_valid := false; fix_troll := false |}.

(** ** Engine objects, as far as the program reads them

    An [Instruction] has a length ([size()]) and raw bytes ([rawByte(n)]);
    a default-constructed instruction is invalid.  A [Block] has a start
    address, an exclusive end address and a map from addresses to
    instructions, iterated in key order ([getInsns]).  [size()] of a block
    is [end - start] in [Address] arithmetic. *)

Record Instruction : Type := {
  isValid : bool;
  insn_size : nat;
  raw : list byte
}.

Definition rawByte (insn : Instruction) (n : nat) : byte := nth n (raw insn) x00.

Definition invalid_instruction : Instruction :=
  {| isValid := false; insn_size := 0; raw := [] |}.

(** [Instruction { { e_nop, "nop", Arch_x86_64 }, len, seqn.start, Arch_x86_64 }] *)
Definition nop_instruction (len : nat) (seqn : list byte) : Instruction :=
  {| isValid := true; insn_size := len; raw := take len seqn |}.

Record Block : Type := {
  start : Z;
  end_ : Z;
  insns : list (Z * Instruction)
}.

Definition size (b : Block) : Z := wrap64 (end_ b - start b).

Record Function : Type := {
  addr : Z;
  blocks : list Block
}.

(** Sort Functions by entry address, low to high. *)
Definition FuncLessThan (f1 f2 : Function) : bool := addr f1 <? addr f2.

(** Sort Blocks by start address, low to high. *)
Definition BlockLessThan (b1 b2 : Block) : bool := start b1 <? start b2.

(** ** Summary stats and the other globals *)

Record BlockStats : Type := {
  num_blocks : Z;
  num_instns : Z;
  num_bytes : Z
}.

Record UnknownStats : Type := {
  num_unknown : Z;
  num_unknown_valid : Z;
  num_unknown_troll : Z;
  num_unknown_error : Z
}.

Record LengthStats : Type := {
  num_bad_length : Z;
  num_block_align_errors : Z;
  num_block_length_errors : Z
}.

Record GapStats : Type := {
  num_gaps : Z;
  num_gaps_16 : Z;
  num_gaps_64 : Z;
  num_gaps_256 : Z;
  num_gaps_other : Z;
  num_overlap : Z;
  size_gaps : Z;
  size_gaps_16 : Z;
  size_gaps_64 : Z;
  size_gaps_256 : Z;
  size_gaps_other : Z
}.

(** What the program prints per event when [quiet] is off. *)
Inductive Event : Type :=
| PrintUnknownValid (buf : list byte) (xed_len : nat) (fixed : bool)
| PrintUnknownTroll (buf : list byte) (start : nat) (xed_len : nat) (fixed : bool)
| PrintUnknownError (buf : list byte)
| PrintBlockAlign (block_start pos addr : Z)
| PrintBlockTooLong (block_start pos dyn_len block_size : Z)
| PrintBadLength (addr : Z) (window : list byte) (dyn_len xed_len : Z)
| PrintGap (prev_start prev_end next_start size : Z)
| PrintOverlap (prev_end next_start next_end : Z).

Record Globals : Type := {
  bstats : BlockStats;
  ustats : UnknownStats;
  lstats : LengthStats;
  gstats : GapStats;
  num_xed_errors : Z;
  initial_parse : Z;
  out : list Event
}.

Definition zero_gaps : GapStats :=
  {| num_gaps := 0; num_gaps_16 := 0; num_gaps_64 := 0; num_gaps_256 := 0;
     num_gaps_other := 0; num_overlap := 0; size_gaps := 0; size_gaps_16 := 0;
     size_gaps_64 := 0; size_gaps_256 := 0; size_gaps_other := 0 |}.

(** The globals as the static initialisers leave them. *)
Definition initial_globals : Globals :=
  {| bstats := {| num_blocks := 0; num_instns := 0; num_bytes := 0 |};
     ustats := {| num_unknown := 0; num_unknown_valid := 0;
                  num_unknown_troll := 0; num_unknown_error := 0 |};
     lstats := {| num_bad_length := 0; num_block_align_errors := 0;
                  num_block_length_errors := 0 |};
     gstats := zero_gaps;
     num_xed_errors := 0;
     initial_parse := 1;
     out := [] |}.

Definition with_bstats (f : BlockStats → BlockStats) (g : Globals) : Globals :=
  {| bstats := f (bstats g); ustats := ustats g; lstats := lstats g;
     gstats := gstats g; num_xed_errors := num_xed_errors g;
     initial_parse := initial_parse g; out := out g |}.

Definition with_ustats (f : UnknownStats → UnknownStats) (g : Globals) : Globals :=
  {| bstats := bstats g; ustats := f (ustats g); lstats := lstats g;
     gstats := gstats g; num_xed_errors := num_xed_errors g;
     initial_parse := initial_parse g; out := out g |}.

Definition with_lstats (f : LengthStats → LengthStats) (g : Globals) : Globals :=
  {| bstats := bstats g; ustats := ustats g; lstats := f (lstats g);
     gstats := gstats g; num_xed_errors := num_xed_errors g;
     initial_parse := initial_parse g; out := out g |}.

Definition with_gstats (f : GapStats → GapStats) (g : Globals) : Globals :=
  {| bstats := bstats g; ustats := ustats g; lstats := lstats g;
     gstats := f (gstats g); num_xed_errors := num_xed_errors g;
     initial_parse := initial_parse g; out := out g |}.

Definition set_num_xed_errors (n : Z) (g : Globals) : Globals :=
  {| bstats := bstats g; ustats := ustats g; lstats := lstats g;
     gstats := gstats g; num_xed_errors := n;
     initial_parse := initial_parse g; out := out g |}.

Definition set_initial_parse (n : Z) (g : Globals) : Globals :=
  {| bstats := bstats g; ustats := ustats g; lstats := lstats g;
     gstats := gstats g; num_xed_errors := num_xed_errors g;
     initial_parse := n; out := out g |}.

Definition print (e : Event) (g : Globals) : Globals :=
  {| bstats := bstats g; ustats := ustats g; lstats := lstats g;
     gstats := gstats g; num_xed_errors := num_xed_errors g;
     initial_parse := initial_parse g; out := out g ++ [e] |}.

(** [num_unknown++] and the three-way [if] that follows it. *)
Definition count_unknown (is_valid is_troll : bool) (u : UnknownStats) : UnknownStats :=
  {| num_unknown := num_unknown u + 1;
     num_unknown_valid :=
       if is_valid then num_unknown_valid u + 1 else num_unknown_valid u;
     num_unknown_troll :=
       if is_valid then num_unknown_troll u
       else if is_troll then num_unknown_troll u + 1 else num_unknown_troll u;
     num_unknown_error :=
       if is_valid then num_unknown_error u
       else if is_troll then num_unknown_error u else num_unknown_error u + 1 |}.

Definition add_num_blocks (n : Z) (s : BlockStats) : BlockStats :=
  {| num_blocks := num_blocks s + n; num_instns := num_instns s;
     num_bytes := num_bytes s |}.

Definition add_num_instns (n : Z) (s : BlockStats) : BlockStats :=
  {| num_blocks := num_blocks s; num_instns := num_instns s + n;
     num_bytes := num_bytes s |}.

Definition add_num_bytes (n : Z) (s : BlockStats) : BlockStats :=
  {| num_blocks := num_blocks s; num_instns := num_instns s;
     num_bytes := num_bytes s + n |}.

Definition inc_bad_length (s : LengthStats) : LengthStats :=
  {| num_bad_length := num_bad_length s + 1;
     num_block_align_errors := num_block_align_errors s;
     num_block_length_errors := num_block_length_errors s |}.

Definition inc_block_align_errors (s : LengthStats) : LengthStats :=
  {| num_bad_length := num_bad_length s;
     num_block_align_errors := num_block_align_errors s + 1;
     num_block_length_errors := num_block_length_errors s |}.

Definition inc_block_length_errors (s : LengthStats) : LengthStats :=
  {| num_bad_length := num_bad_length s;
     num_block_align_errors := num_block_align_errors s;
     num_block_length_errors := num_block_length_errors s + 1 |}.

(** [num_gaps++; size_gaps += size;] *)
Definition count_gap_total (size : Z) (s : GapStats) : GapStats :=
  {| num_gaps := num_gaps s + 1; num_gaps_16 := num_gaps_16 s;
     num_gaps_64 := num_gaps_64 s; num_gaps_256 := num_gaps_256 s;
     num_gaps_other := num_gaps_other s; num_overlap := num_overlap s;
     size_gaps := size_gaps s + size; size_gaps_16 := size_gaps_16 s;
     size_gaps_64 := size_gaps_64 s; size_gaps_256 := size_gaps_256 s;
     size_gaps_other := size_gaps_other s |}.

Definition count_gap_16 (size : Z) (s : GapStats) : GapStats :=
  {| num_gaps := num_gaps s; num_gaps_16 := num_gaps_16 s + 1;
     num_gaps_64 := num_gaps_64 s; num_gaps_256 := num_gaps_256 s;
     num_gaps_other := num_gaps_other s; num_overlap := num_overlap s;
     size_gaps := size_gaps s; size_gaps_16 := size_gaps_16 s + size;
     size_gaps_64 := size_gaps_64 s; size_gaps_256 := size_gaps_256 s;
     size_gaps_other := size_gaps_other s |}.

Definition count_gap_64 (size : Z) (s : GapStats) : GapStats :=
  {| num_gaps := num_gaps s; num_gaps_16 := num_gaps_16 s;
     num_gaps_64 := num_gaps_64 s + 1; num_gaps_256 := num_gaps_256 s;
     num_gaps_other := num_gaps_other s; num_overlap := num_overlap s;
     size_gaps := size_gaps s; size_gaps_16 := size_gaps_16 s;
     size_gaps_64 := size_gaps_64 s + size; size_gaps_256 := size_gaps_256 s;
     size_gaps_other := size_gaps_other s |}.

Definition count_gap_256 (size : Z) (s : GapStats) : GapStats :=
  {| num_gaps := num_gaps s; num_gaps_16 := num_gaps_16 s;
     num_gaps_64 := num_gaps_64 s; num_gaps_256 := num_gaps_256 s + 1;
     num_gaps_other := num_gaps_other s; num_overlap := num_overlap s;
     size_gaps := size_gaps s; size_gaps_16 := size_gaps_16 s;
     size_gaps_64 := size_gaps_64 s; size_gaps_256 := size_gaps_256 s + size;
     size_gaps_other := size_gaps_other s |}.

Definition count_gap_other (size : Z) (s : GapStats) : GapStats :=
  {| num_gaps := num_gaps s; num_gaps_16 := num_gaps_16 s;
     num_gaps_64 := num_gaps_64 s; num_gaps_256 := num_gaps_256 s;
     num_gaps_other := num_gaps_other s + 1; num_overlap := num_overlap s;
     size_gaps := size_gaps s; size_gaps_16 := size_gaps_16 s;
     size_gaps_64 := size_gaps_64 s; size_gaps_256 := size_gaps_256 s;
     size_gaps_other := size_gaps_other s + size |}.

Definition count_overlap (s : GapStats) : GapStats :=
  {| num_gaps := num_gaps s; num_gaps_16 := num_gaps_16 s;
     num_gaps_64 := num_gaps_64 s; num_gaps_256 := num_gaps_256 s;
     num_gaps_other := num_gaps_other s; num_overlap := num_overlap s + 1;
     size_gaps := size_gaps s; size_gaps_16 := size_gaps_16 s;
     size_gaps_64 := size_gaps_64 s; size_gaps_256 := size_gaps_256 s;
     size_gaps_other := size_gaps_other s |}.

(** The body of [if (size > 0) { ... }] in [doGaps], after the print. *)
Definition count_gap (size : Z) (s : GapStats) : GapStats :=
  let s := count_gap_total size s in
  if size <? 16 then count_gap_16 size s
  else if size <? 64 then count_gap_64 size s
  else if size <? 256 then count_gap_256 size s
  else count_gap_other size s.

(** ** Arrays

    [buf] is a C array: an access outside it is undefined behaviour. *)

Definition buf_store (buf : list byte) (i : Z) (v : byte) : Result (list byte) :=
  if (0 <=? i) && (i <? Z.of_nat (length buf))
  then Done (<[Z.to_nat i := v]> buf) else Fault.

(** The [n] bytes at [&buf[off]] handed to the decoder or printed. *)
Definition buf_window (buf : list byte) (off : Z) (n : nat) : Result (list byte) :=
  if (0 <=? off) && (off + Z.of_nat n <=? Z.of_nat (length buf))
  then Done (take n (drop (Z.to_nat off) buf)) else Fault.

(** [vec[i]] on a [std::vector]. *)
Definition vec_at {A : Type} (vec : list A) (i : nat) : Result A :=
  match vec !! i with
  | Some x => Done x
  | None => Fault
  end.

(** [XED_MAX_INSTRUCTION_BYTES] of xed-interface.h. *)
Definition XED_MAX_INSTRUCTION_BYTES : nat := 15.

Definition MY_BUF_SIZE : nat := XED_MAX_INSTRUCTION_BYTES + 4.

(** [goto end_block] leaves the loops of [doBlock] early. *)
Inductive Flow (A : Type) : Type :=
| Continue (a : A)
| EndBlock.

Arguments Continue {A} a.
Arguments EndBlock {A}.

(** What [myXedCallback] has in its locals after the decoding part. *)
Record Decoded : Type := {
  xed_error : bool;
  xed_len : nat;
  troll_start : nat;
  is_valid : bool;
  is_troll : bool;
  ret : Instruction
}.

(** [long size = block->start() - prev_block->end();]: a difference of
    [Address] values, converted to [long]. *)
Definition gap_size (prev_block block : Block) : Z :=
  to_long (start block - end_ prev_block).

Section Program.

(** [xed_decode buf] is [Some len] when XED returns [XED_ERROR_NONE] with
    decoded length [len] on the bytes [buf], and [None] on any error. *)
Variable xed_decode : list byte → option nat.
Variable std_sort : ∀ A : Type, (A → A → bool) → list A → list A.
Variable opts : Options.

(** *** myXedCallback *)

(** Copy into array of uint8_t for xed: at most [MY_BUF_SIZE] bytes. *)
Fixpoint copy_seqn (seqn : list byte) (buf : list byte) : list byte :=
  match seqn with
  | [] => buf
  | p :: seqn' =>
      let buf := buf ++ [p] in
      if (MY_BUF_SIZE <=? length buf)%nat then buf else copy_seqn seqn' buf
  end.

(** [for (start = 1; start < buf_len; start++)]: [iters] is the number of
    iterations left; the result is the final [start] and the last decode. *)
Fixpoint troll (buf : list byte) (start : nat) (iters : nat) : nat * option nat :=
  match iters with
  | O => (start, None)
  | S iters' =>
      match xed_decode (drop start buf) with
      | Some len => (start, Some len)
      | None => troll buf (S start) iters'
      end
  end.

Definition decode_window (seqn buf : list byte) : Decoded :=
  match xed_decode buf with
  | Some len =>
      (* case 1 - valid instruction at beginning of buffer *)
      {| xed_error := false; xed_len := len; troll_start := 0;
         is_valid := true; is_troll := false;
         ret := if fix_valid opts then nop_instruction len seqn
                else invalid_instruction |}
  | None =>
      (* try trolling *)
      match troll buf 1 (length buf - 1) with
      | (start, Some len) =>
          (* case 2 -- out of sync instn starting at buf[start] *)
          {| xed_error := false; xed_len := len; troll_start := start;
             is_valid := false; is_troll := true;
             ret := if fix_troll opts then nop_instruction start seqn
                    else invalid_instruction |}
      | (start, None) =>
          (* case 3 -- not a valid instruction, trolling failed *)
          {| xed_error := true; xed_len := 0; troll_start := start;
             is_valid := false; is_troll := false;
             ret := invalid_instruction |}
      end
  end.

(** Don't allow an infinite string of errors. *)
Definition safety_valve (d : Decoded) (g : Globals) : Result Globals :=
  if xed_error d then
    let g := set_num_xed_errors (num_xed_errors g + 1) g in
    if 20 <? num_xed_errors g then Exit 1 else Done g
  else
    Done (set_num_xed_errors 0 g).

Definition report_unknown (buf : list byte) (d : Decoded) (g : Globals) : Globals :=
  let g :=
    if negb (initial_parse g =? 0) && negb (quiet opts) then
      if is_valid d then print (PrintUnknownValid buf (xed_len d) (fix_valid opts)) g
      else if is_troll d then
        print (PrintUnknownTroll buf (troll_start d) (xed_len d) (fix_troll opts)) g
      else print (PrintUnknownError buf) g
    else g in
  if negb (initial_parse g =? 0)
  then with_ustats (count_unknown (is_valid d) (is_troll d)) g
  else g.

Definition myXedCallback (g : Globals) (seqn : list byte) : Result (Instruction * Globals) :=
  let buf := copy_seqn seqn [] in
  let d := decode_window seqn buf in
  g ← safety_valve d g;
  Done (ret d, report_unknown buf d g).

(** A run of callback invocations, one per byte window, in order. *)
Fixpoint run_callbacks (g : Globals) (windows : list (list byte)) : Result Globals :=
  match windows with
  | [] => Done g
  | seqn :: windows' =>
      '(_, g) ← myXedCallback g seqn;
      run_callbacks g windows'
  end.

(** *** doBlock *)

(** [for (int n = 0; n < dyn_len; n++) buf[pos + n] = rawByte(n);] *)
Fixpoint copy_raw (insn : Instruction) (pos : Z) (n : nat) (iters : nat)
    (buf : list byte) : Result (list byte) :=
  match iters with
  | O => Done buf
  | S iters' =>
      buf ← buf_store buf (pos + Z.of_nat n) (rawByte insn n);
      copy_raw insn pos (S n) iters' buf
  end.

(** step 2 -- iterate instructions and fill in buffer, check instructions
    are all adjacent. *)
Fixpoint fill_loop (block_start block_size : Z) (imap : list (Z * Instruction))
    (g : Globals) (buf : list byte) (pos : Z)
    : Result (Globals * Flow (list byte)) :=
  match imap with
  | [] => Done (g, Continue buf)
  | (addr, insn) :: imap' =>
      let dyn_len := Z.of_nat (insn_size insn) in
      if negb (wrap64 (block_start + pos) =? addr) then
        let g := if quiet opts then g
                 else print (PrintBlockAlign block_start pos addr) g in
        Done (with_lstats inc_block_align_errors g, EndBlock)
      else if wrap64 block_size <? wrap64 (pos + dyn_len) then
        let g := if quiet opts then g
                 else print (PrintBlockTooLong block_start pos dyn_len block_size) g in
        Done (with_lstats inc_block_length_errors g, EndBlock)
      else
        buf ← (if INT_MAX <? dyn_len then Fault
               else copy_raw insn pos 0 (insn_size insn) buf);
        fill_loop block_start block_size imap' g buf (to_long (pos + dyn_len))
  end.

(** step 3 -- iterate instructions and compare length with xed *)
Fixpoint check_loop (block_start : Z) (imap : list (Z * Instruction))
    (g : Globals) (buf : list byte) : Result Globals :=
  match imap with
  | [] => Done g
  | (addr, insn) :: imap' =>
      let dyn_len := Z.of_nat (insn_size insn) in
      window ← buf_window buf (wrap64 (addr - block_start)) 16;
      let xed_error := xed_decode window in
      let xed_len := match xed_error with Some len => Z.of_nat len | None => 0 end in
      if bool_decide (xed_error = None) || negb (dyn_len =? xed_len) then
        let g := if quiet opts then g
                 else print (PrintBadLength addr window dyn_len xed_len) g in
        Done (with_lstats inc_bad_length g)
      else
        check_loop block_start imap' g buf
  end.

(** [insns block] is the map that [block->getInsns(imap)] hands out.  To
    build it the engine decodes the block once more and may invoke
    [myXedCallback] again; in phase 2 this happens with [initial_parse] 0,
    so that such an invocation moves [num_xed_errors] and nothing else (or
    ends the program through the safety valve).  These invocations are the
    engine's: [doBlock] below starts from the map and leaves
    [num_xed_errors] to them. *)
Definition doBlock (g : Globals) (block : Block) : Result Globals :=
  let block_start := start block in
  let block_size := to_long (size block) in
  let g := with_bstats (add_num_bytes block_size) g in
  (* step 1 -- malloc buffer for entire block plus one instruction;
     a negative size is a request beyond any allocation: malloc returns
     NULL and err(1, ...) ends the program.  Other requests are taken to
     succeed.  The buffer is zeroed by memset. *)
  let buf_size := block_size + 20 in
  if buf_size <? 0 then Exit 1 else
  let buf := replicate (Z.to_nat buf_size) x00 in
  let imap := insns block in
  let g := with_bstats (add_num_instns (Z.of_nat (length imap))) g in
  '(g, flow) ← fill_loop block_start block_size imap g buf 0;
  match flow with
  | Continue buf => check_loop block_start imap g buf
  | EndBlock => Done g
  end.

(** *** doFunction *)

Fixpoint doBlocks (g : Globals) (blockVec : list Block) : Result Globals :=
  match blockVec with
  | [] => Done g
  | block :: blockVec' =>
      g ← doBlock g block;
      doBlocks g blockVec'
  end.

Definition doFunction (g : Globals) (func : Function) : Result Globals :=
  let blockVec := blocks func in
  let g := with_bstats (add_num_blocks (Z.of_nat (length blockVec))) g in
  let blockVec := std_sort Block BlockLessThan blockVec in
  doBlocks g blockVec.

(** *** doGaps *)

(** One iteration of the loop that compares adjacent blocks. *)
Definition gap_pair (g : Globals) (prev_block block : Block) : Globals :=
  let size := gap_size prev_block block in
  if 0 <? size then
    let g := if quiet opts then g
             else print (PrintGap (start prev_block) (end_ prev_block)
                                  (start block) size) g in
    with_gstats (count_gap size) g
  else if size <? 0 then
    let g := if quiet opts then g
             else print (PrintOverlap (end_ prev_block) (start block)
                                      (end_ block)) g in
    with_gstats count_overlap g
  else g.

(** [for (long n = 1; n < blockVec.size(); n++)], on the blocks from index
    [n] on. *)
Fixpoint gaps_loop (g : Globals) (prev_block : Block) (rest : list Block) : Globals :=
  match rest with
  | [] => g
  | block :: rest' => gaps_loop (gap_pair g prev_block block) block rest'
  end.

(** Get list of all blocks and sort by start address. *)
Definition all_blocks (funcVec : list Function) : list Block :=
  std_sort Block BlockLessThan (concat (map blocks funcVec)).

Definition doGaps (g : Globals) (funcVec : list Function) : Result Globals :=
  let blockVec := all_blocks funcVec in
  prev_block ← vec_at blockVec 0;
  Done (gaps_loop g prev_block (drop 1 blockVec)).

(** *** main, after the parse *)

Fixpoint doFunctions (g : Globals) (funcVec : list Function) : Result Globals :=
  match funcVec with
  | [] => Done g
  | func :: funcVec' =>
      g ← doFunction g func;
      doFunctions g funcVec'
  end.

(** Phase 2 (test known instructions for bad length) and phase 3 (test
    for gaps between blocks) of [main], on the function list of the
    parsed code object: its counters and the events it prints, without the
    headers of the phases and without the invocations of the callback that
    the engine makes while it hands out instructions (see [doBlock]).  The
    function list and the instruction maps are the engine's, which builds
    them with what the callback handed back during the parse, under the
    fix modes of that run. *)
Definition analyze (g : Globals) (funcList : list Function) : Result Globals :=
  let g := set_initial_parse 0 g in
  (* put function list into vector and sort by entry address *)
  let funcVec := std_sort Function FuncLessThan funcList in
  g ← doFunctions g funcVec;
  doGaps g funcVec.

End Program.

(** ** Notions used to state the properties *)

(** The bands of the summary: under 16, under 64, under 256, other. *)
Definition band_index (size : Z) : nat :=
  if size <? 16 then 0%nat
  else if size <? 64 then 1%nat
  else if size <? 256 then 2%nat
  else 3%nat.

(** Count and total size per band, in the order of [band_index]. *)
Definition band_counters (s : GapStats) : list (Z * Z) :=
  [ (num_gaps_16 s, size_gaps_16 s); (num_gaps_64 s, size_gaps_64 s);
    (num_gaps_256 s, size_gaps_256 s); (num_gaps_other s, size_gaps_other s) ].

(** The totals are the sums over the bands. *)
Definition gaps_consistent (s : GapStats) : Prop :=
  num_gaps s = num_gaps_16 s + num_gaps_64 s + num_gaps_256 s + num_gaps_other s
  ∧ size_gaps s
    = size_gaps_16 s + size_gaps_64 s + size_gaps_256 s + size_gaps_other s.

(** The decoder fails at every offset below [k] of the window. *)
Definition fails_before (xed_decode : list byte → option nat)
    (buf : list byte) (k : nat) : bool :=
  forallb (λ j, bool_decide (xed_decode (drop j buf) = None)) (seq 0 k).

(** A window that neither the decode at offset 0 nor any troll offset
    resolves; the callback looks at its first [MY_BUF_SIZE] bytes. *)
Definition unresolved (xed_decode : list byte → option nat) (seqn : list byte) : bool :=
  let buf := take MY_BUF_SIZE seqn in
  bool_decide (xed_decode buf = None) && fails_before xed_decode buf (length buf).

(** How far the four unknown-instruction counters moved between two
    states: [num_unknown], then valid, troll, error. *)
Definition unknown_delta (g g' : Globals) : Z * Z * Z * Z :=
  (num_unknown (ustats g') - num_unknown (ustats g),
   num_unknown_valid (ustats g') - num_unknown_valid (ustats g),
   num_unknown_troll (ustats g') - num_unknown_troll (ustats g),
   num_unknown_error (ustats g') - num_unknown_error (ustats g)).

(** A reference decoder for the examples: it knows the one-byte [nop]
    (0x90) and nothing else. *)
Definition nop_decoder (buf : list byte) : option nat :=
  match buf with
  | x90 :: _ => Some 1%nat
  | _ => None
  end.

(** How far the three block-discrepancy counters moved between two
    states: bad length, align errors, length errors. *)
Definition length_delta (g g' : Globals) : Z * Z * Z :=
  (num_bad_length (lstats g') - num_bad_length (lstats g),
   num_block_align_errors (lstats g') - num_block_align_errors (lstats g),
   num_block_length_errors (lstats g') - num_block_length_errors (lstats g)).

(** The bytes the engine claims for an instruction and for a sequence of
    instructions, and the number of bytes claimed. *)
Definition insn_bytes (insn : Instruction) : list byte :=
  map (rawByte insn) (seq 0 (insn_size insn)).

Definition claimed_bytes (imap : list (Z * Instruction)) : list byte :=
  concat (map (λ ai, insn_bytes ai.2) imap).

Definition claimed_length (imap : list (Z * Instruction)) : Z :=
  Z.of_nat (length (claimed_bytes imap)).

(** The instructions follow each other without a hole from address [a]. *)
Fixpoint contiguous (a : Z) (imap : list (Z * Instruction)) : bool :=
  match imap with
  | [] => true
  | (addr, insn) :: imap' =>
      (addr =? a) && contiguous (a + Z.of_nat (insn_size insn)) imap'
  end.

(** A block as the engine can hand it out: addresses are [Address] values,
    the end is not before the start, the size fits a [long] and instruction
    lengths fit an [int]. *)
Definition well_formed (block : Block) : bool :=
  (0 <=? start block) && (start block <=? end_ block) && (end_ block <? 2 ^ 64)
  && (end_ block - start block <? 2 ^ 63)
  && forallb (λ ai, Z.of_nat (insn_size ai.2) <=? INT_MAX) (insns block).

(** The bytes of the block as the claimed instructions give them, padded
    with zeros to the block length plus 20. *)
Definition block_image (block : Block) : list byte :=
  let code := claimed_bytes (insns block) in
  code ++ replicate (Z.to_nat (end_ block - start block + 20) - length code) x00.

(** The decoder, given the 16 bytes of the image at the offset of each
    instruction in turn, returns the claimed length. *)
Fixpoint lengths_match (xed_decode : list byte → option nat) (image : list byte)
    (off : nat) (imap : list (Z * Instruction)) : bool :=
  match imap with
  | [] => true
  | (_, insn) :: imap' =>
      bool_decide (xed_decode (take 16 (drop off image)) = Some (insn_size insn))
      && lengths_match xed_decode image (off + insn_size insn) imap'
  end.

(** A clean block: claimed instructions contiguous from the block start,
    within the block, and length-matched by the decoder. *)
Definition clean (xed_decode : list byte → option nat) (block : Block) : bool :=
  well_formed block
  && contiguous (start block) (insns block)
  && (start block + claimed_length (insns block) <=? end_ block)
  && lengths_match xed_decode (block_image block) 0 (insns block).

(** The globals with which [doBlock] enters its loops on a block whose
    size is [end - start]. *)
Definition entered (g : Globals) (block : Block) : Globals :=
  with_bstats (add_num_instns (Z.of_nat (length (insns block))))
    (with_bstats (add_num_bytes (end_ block - start block)) g).

(** The adjacent pairs of a sequence, in order. *)
Definition adjacent_pairs {A : Type} (l : list A) : list (A * A) :=
  zip l (drop 1 l).

(** ** Command line *)

Definition set_filename (v : option string) (o : Options) : Options :=
  {| filename := v; jobs := jobs o; quiet := quiet o; verbose := verbose o;
     fix_valid := fix_valid o; fix_troll := fix_troll o |}.

Definition set_jobs (v : Z) (o : Options) : Options :=
  {| filename := filename o; jobs := v; quiet := quiet o; verbose := verbose o;
     fix_valid := fix_valid o; fix_troll := fix_troll o |}.

Definition set_quiet (v : bool) (o : Options) : Options :=
  {| filename := filename o; jobs := jobs o; quiet := v; verbose := verbose o;
     fix_valid := fix_valid o; fix_troll := fix_troll o |}.

Definition set_verbose (v : bool) (o : Options) : Options :=
  {| filename := filename o; jobs := jobs o; quiet := quiet o; verbose := v;
     fix_valid := fix_valid o; fix_troll := fix_troll o |}.

Definition set_fix_valid (v : bool) (o : Options) : Options :=
  {| filename := filename o; jobs := jobs o; quiet := quiet o;
     verbose := verbose o; fix_valid := v; fix_troll := fix_troll o |}.

Definition set_fix_troll (v : bool) (o : Options) : Options :=
  {| filename := filename o; jobs := jobs o; quiet := quiet o;
     verbose := verbose o; fix_valid := fix_valid o; fix_troll := v |}.

(** [arg[0] == '-']; [arg[0]] of an empty [std::string] is the null
    character. *)
Definition first_char_is_dash (arg : string) : bool :=
  match arg with
  | EmptyString => false
  | String a _ => Ascii.eqb a "-"
  end.

Section CommandLine.

(** [atoi] of libc. *)
Variable atoi : string → Z.

(** The [while (n < argc)] loop of [getOptions]: [args] is [argv] from [n]
    on; the result has the options and [argv] from the final [n] on.
    [usage] leaves with exit code 1. *)
Fixpoint getOptions_loop (args : list string) (opts : Options)
    : Result (Options * list string) :=
  match args with
  | [] => Done (opts, [])
  | arg :: rest =>
      if String.eqb arg "-h" || String.eqb arg "-help" || String.eqb arg "--help" then
        Exit 1
      else if String.eqb arg "-j" then
        match rest with
        | [] => Exit 1
        | a :: rest' =>
            let opts := set_jobs (atoi a) opts in
            if (jobs opts <=? 0) || (550 <? jobs opts) then Exit 1
            else getOptions_loop rest' opts
        end
      else if String.eqb arg "-q" then
        getOptions_loop rest (set_quiet true opts)
      else if String.eqb arg "-v" then
        getOptions_loop rest (set_verbose true opts)
      else if String.eqb arg "-fix" || String.eqb arg "--fix" then
        getOptions_loop rest (set_fix_troll false (set_fix_valid true opts))
      else if String.eqb arg "-fix-all" || String.eqb arg "--fix-all" then
        getOptions_loop rest (set_fix_troll true (set_fix_valid true opts))
      else if String.eqb arg "-no-fix" || String.eqb arg "--no-fix" then
        getOptions_loop rest (set_fix_troll false (set_fix_valid false opts))
      else if first_char_is_dash arg then
        Exit 1
      else
        Done (opts, arg :: rest)
  end.

(** Command-line:  [options] ...  filename.  [argv[0]] is the program. *)
Definition getOptions (argv : list string) (opts : Options) : Result Options :=
  '(opts, rest) ← getOptions_loop (drop 1 argv) opts;
  match rest with
  | name :: _ => Done (set_filename (Some name) opts)
  | [] => Exit 1
  end.

End CommandLine.

(** ** Further notions used to state properties *)

(** The globals without what was printed. *)
Definition silence (g : Globals) : Globals :=
  {| bstats := bstats g; ustats := ustats g; lstats := lstats g;
     gstats := gstats g; num_xed_errors := num_xed_errors g;
     initial_parse := initial_parse g; out := [] |}.

(** The number of unknown instructions is the sum over the outcomes. *)
Definition unknown_consistent (u : UnknownStats) : Prop :=
  num_unknown u = num_unknown_valid u + num_unknown_troll u + num_unknown_error u.

(** The discrepancies recorded for blocks, all kinds together. *)
Definition discrepancies (s : LengthStats) : Z :=
  num_bad_length s + num_block_align_errors s + num_block_length_errors s.

(** The total size of a band lies between the count times the least and
    the count times the greatest size of the band; counts are not
    negative. *)
Definition band_bounds (s : GapStats) : Prop :=
  (0 ≤ num_gaps_16 s ∧ num_gaps_16 s ≤ size_gaps_16 s ≤ 15 * num_gaps_16 s)
  ∧ (0 ≤ num_gaps_64 s ∧ 16 * num_gaps_64 s ≤ size_gaps_64 s ≤ 63 * num_gaps_64 s)
  ∧ (0 ≤ num_gaps_256 s
     ∧ 64 * num_gaps_256 s ≤ size_gaps_256 s ≤ 255 * num_gaps_256 s)
  ∧ (0 ≤ num_gaps_other s ∧ 256 * num_gaps_other s ≤ size_gaps_other s)
  ∧ 0 ≤ num_overlap s.

(** The signed sizes between the adjacent blocks of a sequence. *)
Definition gap_sizes (blockVec : list Block) : list Z :=
  map (λ pn, gap_size pn.1 pn.2) (adjacent_pairs blockVec).

(** Instructions and bytes of a list of blocks, as [doBlock] adds them up. *)
Definition total_instns (blockVec : list Block) : Z :=
  sum_Z (map (λ b, Z.of_nat (length (insns b))) blockVec).

Definition total_bytes (blockVec : list Block) : Z :=
  sum_Z (map (λ b, to_long (size b)) blockVec).

End UnknownX86.

(** * cfg-parse *)

Module CfgParse.

(** ** Command-line options (class [Options]) *)

Record Options : Type := {
  filename : option string;
  jobs_symtab : Z;
  jobs_parse : Z;
  jobs_struct : Z;
  show_blocks : bool;
  show_stmts : bool;
  show_inline : bool;
  show_linemap : bool;
  show_time : bool
}.

(** The constructor [Options()]. *)
Definition default_options : Options :=
  {| filename := None; jobs_symtab := 4; jobs_parse := 4; jobs_struct := 1;
     show_blocks := true; show_stmts := true; show_inline := true;
     show_linemap := true; show_time := false |}.

Definition set_filename (v : option string) (o : Options) : Options :=
  {| filename := v; jobs_symtab := jobs_symtab o; jobs_parse := jobs_parse o;
     jobs_struct := jobs_struct o; show_blocks := show_blocks o;
     show_stmts := show_stmts o; show_inline := show_inline o;
     show_linemap := show_linemap o; show_time := show_time o |}.

Definition set_jobs_symtab (v : Z) (o : Options) : Options :=
  {| filename := filename o; jobs_symtab := v; jobs_parse := jobs_parse o;
     jobs_struct := jobs_struct o; show_blocks := show_blocks o;
     show_stmts := show_stmts o; show_inline := show_inline o;
     show_linemap := show_linemap o; show_time := show_time o |}.

Definition set_jobs_parse (v : Z) (o : Options) : Options :=
  {| filename := filename o; jobs_symtab := jobs_symtab o; jobs_parse := v;
     jobs_struct := jobs_struct o; show_blocks := show_blocks o;
     show_stmts := show_stmts o; show_inline := show_inline o;
     show_linemap := show_linemap o; show_time := show_time o |}.

Definition set_show_blocks (v : bool) (o : Options) : Options :=
  {| filename := filename o; jobs_symtab := jobs_symtab o;
     jobs_parse := jobs_parse o; jobs_struct := jobs_struct o;
     show_blocks := v; show_stmts := show_stmts o;
     show_inline := show_inline o; show_linemap := show_linemap o;
     show_time := show_time o |}.

Definition set_show_stmts (v : bool) (o : Options) : Options :=
  {| filename := filename o; jobs_symtab := jobs_symtab o;
     jobs_parse := jobs_parse o; jobs_struct := jobs_struct o;
     show_blocks := show_blocks o; show_stmts := v;
     show_inline := show_inline o; show_linemap := show_linemap o;
     show_time := show_time o |}.

Definition set_show_inline (v : bool) (o : Options) : Options :=
  {| filename := filename o; jobs_symtab := jobs_symtab o;
     jobs_parse := jobs_parse o; jobs_struct := jobs_struct o;
     show_blocks := show_blocks o; show_stmts := show_stmts o;
     show_inline := v; show_linemap := show_linemap o;
     show_time := show_time o |}.

Definition set_show_linemap (v : bool) (o : Options) : Options :=
  {| filename := filename o; jobs_symtab := jobs_symtab o;
     jobs_parse := jobs_parse o; jobs_struct := jobs_struct o;
     show_blocks := show_blocks o; show_stmts := show_stmts o;
     show_inline := show_inline o; show_linemap := v;
     show_time := show_time o |}.

Definition set_show_time (v : bool) (o : Options) : Options :=
  {| filename := filename o; jobs_symtab := jobs_symtab o;
     jobs_parse := jobs_parse o; jobs_struct := jobs_struct o;
     show_blocks := show_blocks o; show_stmts := show_stmts o;
     show_inline := show_inline o; show_linemap := show_linemap o;
     show_time := v |}.

Definition MAX_THREADS : Z := 550.

(** [arg[0] == c]; [arg[0]] of an empty [std::string] is the null
    character. *)
Definition first_char_is (c : ascii) (arg : string) : bool :=
  match arg with
  | EmptyString => Ascii.eqb zero c
  | String a _ => Ascii.eqb a c
  end.

Section CommandLine.

(** [atoi] of libc, and [access(name, R_OK) == 0]. *)
Variable atoi : string → Z.
Variable readable : string → bool.

(** [getNumJobs(index, argc, argv, opt)]: [args] is [argv] from [index] on.
    [usage] and [errx] both leave with exit code 1. *)
Definition getNumJobs (args : list string) : Result Z :=
  match args with
  | [] => Exit 1
  | a :: _ =>
      let num := atoi a in
      if (num <=? 0) || (MAX_THREADS <? num) then Exit 1 else Done num
  end.

(** The [while (n < argc)] loop of [getOptions]: [args] is [argv] from [n]
    on; the result has the options and [argv] from the final [n] on. *)
Fixpoint getOptions_loop (args : list string) (opts : Options)
    : Result (Options * list string) :=
  match args with
  | [] => Done (opts, [])
  | arg :: rest =>
      if String.eqb arg "-h" || String.eqb arg "-help" || String.eqb arg "--help" then
        Exit 1
      (* jobs per phase *)
      else if String.eqb arg "-j" || String.eqb arg "--jobs" then
        num ← getNumJobs rest;
        match rest with
        | [] => Exit 1
        | _ :: rest' =>
            getOptions_loop rest' (set_jobs_parse num (set_jobs_symtab num opts))
        end
      else if String.eqb arg "--jobs-symtab" then
        num ← getNumJobs rest;
        match rest with
        | [] => Exit 1
        | _ :: rest' => getOptions_loop rest' (set_jobs_symtab num opts)
        end
      else if String.eqb arg "--jobs-parse" then
        num ← getNumJobs rest;
        match rest with
        | [] => Exit 1
        | _ :: rest' => getOptions_loop rest' (set_jobs_parse num opts)
        end
      else if String.eqb arg "--jobs-struct" then
        (* n++ without a look at argv[n]; past argc the loop ends *)
        match rest with
        | [] => Done (opts, [])
        | _ :: rest' => getOptions_loop rest' opts
        end
      (* blocks, edges, stmts *)
      else if String.eqb arg "-A" then
        getOptions_loop rest
          (set_show_linemap false (set_show_inline false
            (set_show_stmts false (set_show_blocks false opts))))
      else if String.eqb arg "+A" then
        getOptions_loop rest
          (set_show_linemap true (set_show_inline true
            (set_show_stmts true (set_show_blocks true opts))))
      else if String.eqb arg "-B" then
        getOptions_loop rest (set_show_blocks false opts)
      else if String.eqb arg "+B" then
        getOptions_loop rest (set_show_blocks true opts)
      else if String.eqb arg "-S" then
        getOptions_loop rest
          (set_show_linemap false (set_show_inline false (set_show_stmts false opts)))
      else if String.eqb arg "+S" then
        getOptions_loop rest
          (set_show_linemap true (set_show_inline true (set_show_stmts true opts)))
      (* inline, line map, these imply stmts *)
      else if String.eqb arg "-I" then
        getOptions_loop rest (set_show_inline false opts)
      else if String.eqb arg "+I" then
        getOptions_loop rest (set_show_stmts true (set_show_inline true opts))
      else if String.eqb arg "-L" then
        getOptions_loop rest (set_show_linemap false opts)
      else if String.eqb arg "+L" then
        getOptions_loop rest (set_show_stmts true (set_show_linemap true opts))
      (* other *)
      else if String.eqb arg "--time" then
        getOptions_loop rest (set_show_time true opts)
      else if first_char_is "-" arg || first_char_is "+" arg then
        Exit 1
      else
        Done (opts, arg :: rest)
  end.

(** Command-line:  [options] ...  filename.  [argv[0]] is the program. *)
Definition getOptions (argv : list string) (opts : Options) : Result Options :=
  '(opts, rest) ← getOptions_loop (drop 1 argv) opts;
  match rest with
  | name :: _ =>
      if readable name then Done (set_filename (Some name) opts) else Exit 1
  | [] => Exit 1
  end.

End CommandLine.

(** ** Engine objects, as far as the dumper reads them

    An [Edge] is read through its target ([trg()->start()], and whether
    the target belongs to a noreturn function), its type and its
    interprocedural flag.  A [Block] lists the entry addresses of the
    functions that contain it ([getFuncs]). *)

Inductive EdgeTypeEnum : Type :=
| CALL | COND_TAKEN | COND_NOT_TAKEN | INDIRECT | DIRECT | FALLTHROUGH
| CATCH | CALL_FT | RET | NOEDGE.

Inductive FuncReturnStatus : Type := UNSET | NORETURN | UNKNOWN | RETURN.

Record Instruction : Type := { insn_size : nat }.

Record Edge : Type := {
  trg_start : Z;
  trg_noreturn : bool;
  etype : EdgeTypeEnum;
  interproc : bool
}.

Record Block : Type := {
  start : Z;
  end_ : Z;
  last : Z;
  insns : list (Z * Instruction);
  targets : list Edge;
  funcs : list Z
}.

Definition size (b : Block) : Z := wrap64 (end_ b - start b).

Record Function : Type := {
  addr : Z;
  name : string;
  retstatus : FuncReturnStatus;
  blocks : list Block
}.

(** [SymtabAPI::FunctionBase]: a function is inlined iff it has a parent
    ([getInlinedParent() != NULL]); an inlined function has a call site
    (file, line). *)
Inductive FunctionBase : Type :=
| TopFunction (name : string)
| InlinedFunction (name : string) (callsite : string * Z) (parent : FunctionBase).

Definition getName (func : FunctionBase) : string :=
  match func with
  | TopFunction n => n
  | InlinedFunction n _ _ => n
  end.

(** [getLine] is the line number as [doInstruction] holds it, in an
    [int]. *)
Record Statement : Type := { getFile : string; getLine : Z }.

(** FLP: file name, line number, proc name for inline sequence *)
Record InlineNode : Type := {
  filenm : string;
  procnm : string;
  line : Z
}.

(** Order Blocks by start address, low to high. *)
Definition BlockLessThan (b1 b2 : Block) : bool := start b1 <? start b2.

(** Order Edges by target address, low to high. *)
Definition EdgeLessThan (e1 e2 : Edge) : bool := trg_start e1 <? trg_start e2.

(** Order Functions by entry address, low to high. *)
Definition FuncLessThan (f1 f2 : Function) : bool := addr f1 <? addr f2.

(** [FuncLessThan] on the functions of a block, which the model holds by
    their entry addresses. *)
Definition FuncAddrLessThan (a1 a2 : Z) : bool := a1 <? a2.

Definition edgeType (type : EdgeTypeEnum) : string :=
  match type with
  | CALL => "call"
  | COND_TAKEN => "cond-take"
  | COND_NOT_TAKEN => "cond-not"
  | INDIRECT => "indirect"
  | DIRECT => "direct"
  | FALLTHROUGH => "fallthr"
  | CATCH => "catch"
  | CALL_FT => "call-ft"
  | RET => "return"
  | NOEDGE => "unknown"
  end.

(** ** The dump, one record per piece of text written to [cout] *)

Record EdgeText : Type := {
  et_target : Z;
  et_type : string;
  et_interproc : bool;
  et_noreturn : bool
}.

Inductive Output : Type :=
| OutFunc (addr : Z) (detail : option (nat * Z * bool)) (name : string)
| OutNewline
| OutBlock (start end_ : Z) (num_insns : nat) (size : Z) (funcs : list Z)
| OutStmt (addr : Z) (size : nat) (linemap : option (Z * string))
| OutInline (line : Z) (filenm procnm : string)
| OutEdges (last : Z) (edges : list EdgeText)
| OutNumFuncs (n : nat).

Section Dump.

Variable std_sort : ∀ A : Type, (A → A → bool) → list A → list A.
Variable opts : Options.

(** The symbol table: the source lines of the module containing an
    address ([None]: no module), and the innermost inlined function
    containing an address ([None]: the call fails or yields [NULL]). *)
Variable getContainingModule : Z → option (Z → list Statement).
Variable getContainingInlinedFunction : Z → option FunctionBase.

(** Line Map Info -- use only the module containing 'addr'. *)
Definition getLineMapInfo (addr : Z) : list Statement :=
  match getContainingModule addr with
  | Some getSourceLines => getSourceLines addr
  | None => []
  end.

(** The [while (parent != NULL)] loop of [doInstruction]: each inlined
    function met on the way up is pushed on the front of [inlineSeqn]. *)
Fixpoint inline_walk (func : FunctionBase) (inlineSeqn : list InlineNode)
    : list InlineNode :=
  match func with
  | TopFunction _ => inlineSeqn
  | InlinedFunction _ callsite parent =>
      inline_walk parent
        ({| filenm := callsite.1; procnm := getName func; line := callsite.2 |}
         :: inlineSeqn)
  end.

Definition doInstruction (addr : Z) (instn : Instruction) : list Output :=
  let stmt :=
    OutStmt addr (insn_size instn)
      (if show_linemap opts then
         match getLineMapInfo addr with
         | s :: _ => Some (getLine s, getFile s)
         | [] => Some (0, ""%string)
         end
       else None) in
  let inlines :=
    if show_inline opts then
      match getContainingInlinedFunction addr with
      | Some func =>
          map (λ nit, OutInline (line nit) (filenm nit) (procnm nit))
              (inline_walk func [])
      | None => []
      end
    else [] in
  stmt :: inlines.

Definition edge_text (edge : Edge) : EdgeText :=
  {| et_target := trg_start edge;
     et_type := edgeType (etype edge);
     et_interproc := interproc edge;
     et_noreturn :=
       match etype edge with CALL => trg_noreturn edge | _ => false end |}.

Definition doBlock (block : Block) : list Output :=
  let imap := insns block in
  (* basic blocks *)
  (if show_blocks opts then
     let num_funcs := length (funcs block) in
     [OutBlock (start block) (end_ block) (length imap) (size block)
        (if (1 <? num_funcs)%nat
         then std_sort Z FuncAddrLessThan (funcs block) else [])]
   else [])
  (* statements (instructions) *)
  ++ (if show_stmts opts
      then concat (map (λ iit, doInstruction iit.1 iit.2) imap) else [])
  (* out edges *)
  ++ (if show_blocks opts then
        let edgeVec := std_sort Edge EdgeLessThan (targets block) in
        [OutEdges (last block) (map edge_text edgeVec)]
      else []).

Definition doFunction (func : Function) : list Output :=
  (* vector of blocks, sort by address *)
  let blockVec := blocks func in
  (* long bytes; bytes += block->size(): the sum is taken in unsigned
     long and converted back *)
  let bytes := foldl (λ bytes block, to_long (bytes + size block)) 0 blockVec in
  [OutFunc (addr func)
     (if show_blocks opts
      then Some (length blockVec, bytes,
                 match retstatus func with NORETURN => true | _ => false end)
      else None)
     (name func)]
  ++ (if show_stmts opts && negb (show_blocks opts) then [OutNewline] else [])
  ++ concat (map doBlock (std_sort Block BlockLessThan blockVec)).

(** Phase 3 of [main] -- Iterate Functions and Dump Results *)
Definition dump (funcList : list Function) : list Output :=
  (* sort funcVec to ensure deterministic output *)
  let funcVec := std_sort Function FuncLessThan funcList in
  concat (map doFunction funcVec) ++ [OutNumFuncs (length funcVec)].

End Dump.

(** ** Notions used to state the properties *)

(** The inline chain of an address as the engine exposes it, walking
    [getInlinedParent] from the innermost inlined function outwards. *)
Fixpoint inline_chain (func : FunctionBase) : list InlineNode :=
  match func with
  | TopFunction _ => []
  | InlinedFunction name callsite parent =>
      {| filenm := callsite.1; procnm := name; line := callsite.2 |}
      :: inline_chain parent
  end.

(** The addresses on the function lines of a dump, the start addresses on
    its block lines, and the targets on each of its edge lines, in the
    order of the text. *)
Definition func_addrs (text : list Output) : list Z :=
  omap (λ o, match o with OutFunc a _ _ => Some a | _ => None end) text.

Definition block_starts (text : list Output) : list Z :=
  omap (λ o, match o with OutBlock a _ _ _ _ => Some a | _ => None end) text.

Definition edge_targets (text : list Output) : list (list Z) :=
  omap (λ o, match o with
             | OutEdges _ edges => Some (map et_target edges)
             | _ => None
             end) text.

(** A finer layer is shown only together with the statements. *)
Definition layers_consistent (o : Options) : Prop :=
  (show_inline o = true → show_stmts o = true)
  ∧ (show_linemap o = true → show_stmts o = true).

(** The three layers of the text: function lines (with the final count),
    block lines (block headers and out edges), statement lines (statements
    and inline frames). *)
Definition is_func_line (o : Output) : bool :=
  match o with OutFunc _ _ _ | OutNumFuncs _ => true | _ => false end.

Definition is_block_line (o : Output) : bool :=
  match o with OutBlock _ _ _ _ _ | OutEdges _ _ => true | _ => false end.

Definition is_stmt_line (o : Output) : bool :=
  match o with OutStmt _ _ _ | OutInline _ _ _ => true | _ => false end.

(** The addresses on the statement lines of a dump, in the order of the
    text. *)
Definition stmt_addrs (text : list Output) : list Z :=
  omap (λ o, match o with OutStmt a _ _ => Some a | _ => None end) text.

(** All blocks of a list of functions, and all instructions of a list of
    blocks, in the order of the lists. *)
Definition all_blocks (funcList : list Function) : list Block :=
  concat (map blocks funcList).

Definition all_insns (blockVec : list Block) : list (Z * Instruction) :=
  concat (map insns blockVec).

(** Code in which the sort keys tell the elements apart: the out edges of
    a block go to distinct targets, the blocks of a function start at
    distinct addresses, the functions have distinct entry addresses. *)
Definition block_unambiguous (b : Block) : Prop :=
  NoDup (map trg_start (targets b)).

Definition function_unambiguous (f : Function) : Prop :=
  NoDup (map start (blocks f)) ∧ Forall block_unambiguous (blocks f).


End CfgParse.

(** * Properties of the sorting contract *)

Lemma key_lt_swo {A : Type} (key : A → Z) :
  strict_weak_order (λ a b, key a <? key b).
Proof.
  split.
  - intros x. apply Z.ltb_irrefl.
  - intros x y z H1 H2. apply Z.ltb_lt. apply Z.ltb_lt in H1, H2. lia.
  - intros x y z H. apply Z.ltb_lt in H.
    destruct (Z.ltb_spec (key x) (key y)) as [|Hge]; [by left|right].
    apply Z.ltb_lt. lia.
Qed.

Section SortImplementations.

Context {A : Type} (lt : A → A → bool) (Hswo : strict_weak_order lt).

Lemma not_after_trans x y z :
  not_after lt x y → not_after lt y z → not_after lt x z.
Proof using Hswo.
  unfold not_after. intros Hxy Hyz.
  destruct (lt z x) eqn:Hzx; [|done].
  destruct (swo_cotrans lt Hswo z y x Hzx); congruence.
Qed.

Lemma lt_not_after x y : lt x y = true → not_after lt x y.
Proof using Hswo.
  unfold not_after. intros Hxy.
  destruct (lt y x) eqn:Hyx; [|done].
  pose proof (swo_trans lt Hswo x y x Hxy Hyx) as Hxx.
  rewrite (swo_irrefl lt Hswo) in Hxx. done.
Qed.

Lemma insert_after_perm x l : insert_after lt x l ≡ₚ x :: l.
Proof.
  induction l as [|y l IH]; simpl; [done|].
  destruct (lt x y); [done|]. rewrite IH. apply Permutation_swap.
Qed.

Lemma insert_before_perm x l : insert_before lt x l ≡ₚ x :: l.
Proof.
  induction l as [|y l IH]; simpl; [done|].
  destruct (lt y x); [|done]. rewrite IH. apply Permutation_swap.
Qed.

Lemma insert_after_sorted x l :
  StronglySorted (not_after lt) l →
  StronglySorted (not_after lt) (insert_after lt x l).
Proof using Hswo.
  induction 1 as [|y l Hs IH Hy]; simpl.
  - repeat constructor.
  - destruct (lt x y) eqn:Hxy.
    + constructor; [by constructor|].
      constructor; [by apply lt_not_after|].
      eapply Forall_impl; [exact Hy|]. intros z Hz.
      eapply not_after_trans; [by apply lt_not_after|done].
    + constructor; [done|].
      rewrite insert_after_perm. by constructor.
Qed.

Lemma insert_before_sorted x l :
  StronglySorted (not_after lt) l →
  StronglySorted (not_after lt) (insert_before lt x l).
Proof using Hswo.
  induction 1 as [|y l Hs IH Hy]; simpl.
  - repeat constructor.
  - destruct (lt y x) eqn:Hyx.
    + constructor; [done|].
      rewrite insert_before_perm. constructor; [by apply lt_not_after|done].
    + constructor; [by constructor|].
      constructor; [done|].
      eapply Forall_impl; [exact Hy|]. intros z Hz.
      eapply not_after_trans; [exact Hyx|done].
Qed.

End SortImplementations.

Lemma sort_ties_reversed_contract : sort_contract sort_ties_reversed.
Proof.
  intros A lt Hswo l. unfold sort_ties_reversed. split.
  - induction l as [|x l IH]; simpl; [done|].
    rewrite insert_after_perm. by constructor.
  - induction l as [|x l IH]; simpl; [constructor|].
    by apply insert_after_sorted.
Qed.

Lemma sort_ties_kept_contract : sort_contract sort_ties_kept.
Proof.
  intros A lt Hswo l. unfold sort_ties_kept. split.
  - induction l as [|x l IH]; simpl; [done|].
    rewrite insert_before_perm. by constructor.
  - induction l as [|x l IH]; simpl; [constructor|].
    by apply insert_before_sorted.
Qed.

Section SortedByKey.

Context (std_sort : ∀ A : Type, (A → A → bool) → list A → list A).
Context (Hsort : sort_contract std_sort).
Context {A : Type} (key : A → Z).

Lemma std_sort_perm (l : list A) :
  l ≡ₚ std_sort A (λ a b, key a <? key b) l.
Proof using Hsort. apply Hsort, key_lt_swo. Qed.

Lemma std_sort_nil : std_sort A (λ a b, key a <? key b) [] = [].
Proof using Hsort. apply Permutation_nil, std_sort_perm. Qed.

Lemma std_sort_singleton (x : A) :
  std_sort A (λ a b, key a <? key b) [x] = [x].
Proof using Hsort. symmetry. apply Permutation_singleton_l, std_sort_perm. Qed.

Lemma std_sort_ordered (l : list A) (i j : nat) (x y : A) :
  (i < j)%nat →
  std_sort A (λ a b, key a <? key b) l !! i = Some x →
  std_sort A (λ a b, key a <? key b) l !! j = Some y →
  key x ≤ key y.
Proof using Hsort.
  intros Hij Hi Hj.
  destruct (Hsort A _ (key_lt_swo key) l) as [_ Hs].
  revert i j Hij Hi Hj.
  induction Hs as [|z s Hs IH Hz]; intros i j Hij Hi Hj; [done|].
  destruct j as [|j]; [lia|]. simpl in Hj.
  destruct i as [|i]; simpl in Hi.
  - injection Hi as ->.
    rewrite Forall_forall in Hz.
    apply list_elem_of_lookup_2, Hz in Hj.
    unfold not_after in Hj. apply Z.ltb_ge in Hj. done.
  - apply (IH i j); [lia|done..].
Qed.

(** For elements with different keys, position order is key order. *)
Lemma std_sort_before_iff (l : list A) (i j : nat) (x y : A) :
  std_sort A (λ a b, key a <? key b) l !! i = Some x →
  std_sort A (λ a b, key a <? key b) l !! j = Some y →
  key x ≠ key y →
  (i < j)%nat ↔ key x < key y.
Proof using Hsort.
  intros Hi Hj Hne. split.
  - intros Hij. pose proof (std_sort_ordered l i j x y Hij Hi Hj). lia.
  - intros Hlt. destruct (decide (i < j)%nat) as [|Hge]; [done|].
    destruct (decide (i = j)) as [->|Hne']; [congruence|].
    assert (j < i)%nat as Hji by lia.
    pose proof (std_sort_ordered l j i y x Hji Hj Hi). lia.
Qed.

End SortedByKey.

(** * Properties of unknown-x86 *)

Module UnknownX86Facts.

Import UnknownX86.

Lemma to_long_exact (z : Z) : - 2 ^ 63 ≤ z < 2 ^ 63 → to_long z = z.
Proof.
  intros Hz. unfold to_long, wrap64.
  destruct (decide (0 ≤ z)) as [Hpos|Hneg].
  - rewrite Z.mod_small by lia.
    destruct (Z.ltb_spec z (2 ^ 63)); lia.
  - replace (z mod 2 ^ 64) with (z + 2 ^ 64).
    + destruct (Z.ltb_spec (z + 2 ^ 64) (2 ^ 63)); lia.
    + apply Z.mod_unique with (q := -1); lia.
Qed.

(** ** The gap and overlap analyzer *)

Section Gaps.

Context (std_sort : ∀ A : Type, (A → A → bool) → list A → list A).
Context (opts : Options).

Lemma gaps_loop_foldl (g : Globals) (prev_block : Block) (rest : list Block) :
  gaps_loop opts g prev_block rest
  = foldl (λ g pn, gap_pair opts g pn.1 pn.2) g (adjacent_pairs (prev_block :: rest)).
Proof.
  revert g prev_block. induction rest as [|b rest IH]; intros g prev; [done|].
  simpl. rewrite IH. done.
Qed.

Lemma gap_pair_gap (g : Globals) (prev_block block : Block) :
  0 < gap_size prev_block block →
  gap_pair opts g prev_block block
  = with_gstats (count_gap (gap_size prev_block block))
      (if quiet opts then g
       else print (PrintGap (start prev_block) (end_ prev_block) (start block)
                     (gap_size prev_block block)) g).
Proof.
  intros H. unfold gap_pair.
  destruct (Z.ltb_spec 0 (gap_size prev_block block)); [done|lia].
Qed.

Lemma gap_pair_overlap (g : Globals) (prev_block block : Block) :
  gap_size prev_block block < 0 →
  gap_pair opts g prev_block block
  = with_gstats count_overlap
      (if quiet opts then g
       else print (PrintOverlap (end_ prev_block) (start block) (end_ block)) g).
Proof.
  intros H. unfold gap_pair.
  destruct (Z.ltb_spec 0 (gap_size prev_block block)); [lia|].
  destruct (Z.ltb_spec (gap_size prev_block block) 0); [done|lia].
Qed.

Lemma gap_pair_contiguous (g : Globals) (prev_block block : Block) :
  gap_size prev_block block = 0 → gap_pair opts g prev_block block = g.
Proof. intros H. unfold gap_pair. rewrite H. done. Qed.

Lemma gstats_quiet_print (e : Event) (g : Globals) :
  gstats (if quiet opts then g else print e g) = gstats g.
Proof. by destruct (quiet opts). Qed.

Lemma count_gap_bands (size : Z) (s : GapStats) :
  band_counters (count_gap size s)
  = alter (λ ns, (ns.1 + 1, ns.2 + size)) (band_index size) (band_counters s).
Proof.
  unfold count_gap, band_index.
  destruct (size <? 16); [done|].
  destruct (size <? 64); [done|].
  destruct (size <? 256); done.
Qed.

Lemma count_gap_totals (size : Z) (s : GapStats) :
  num_gaps (count_gap size s) = num_gaps s + 1
  ∧ size_gaps (count_gap size s) = size_gaps s + size
  ∧ num_overlap (count_gap size s) = num_overlap s.
Proof.
  unfold count_gap.
  destruct (size <? 16); [done|].
  destruct (size <? 64); [done|].
  destruct (size <? 256); done.
Qed.

Lemma count_gap_consistent (size : Z) (s : GapStats) :
  gaps_consistent s → gaps_consistent (count_gap size s).
Proof.
  unfold gaps_consistent, count_gap. intros [Hn Hs].
  destruct (size <? 16); [simpl; lia|].
  destruct (size <? 64); [simpl; lia|].
  destruct (size <? 256); simpl; lia.
Qed.

Lemma gap_pair_consistent (g : Globals) (prev_block block : Block) :
  gaps_consistent (gstats g) →
  gaps_consistent (gstats (gap_pair opts g prev_block block)).
Proof.
  intros Hg. unfold gap_pair.
  destruct (0 <? gap_size prev_block block).
  - simpl. rewrite gstats_quiet_print. by apply count_gap_consistent.
  - destruct (gap_size prev_block block <? 0); [|done].
    simpl. rewrite gstats_quiet_print. exact Hg.
Qed.

Lemma gaps_loop_consistent (g : Globals) (prev_block : Block) (rest : list Block) :
  gaps_consistent (gstats g) →
  gaps_consistent (gstats (gaps_loop opts g prev_block rest)).
Proof.
  revert g prev_block. induction rest as [|b rest IH]; intros g prev Hg; [done|].
  simpl. apply IH. by apply gap_pair_consistent.
Qed.

Lemma doGaps_blocks (g : Globals) (funcVec : list Function) (b : Block) (rest : list Block) :
  all_blocks std_sort funcVec = b :: rest →
  doGaps std_sort opts g funcVec = Done (gaps_loop opts g b rest).
Proof. intros H. unfold doGaps. rewrite H. done. Qed.

Lemma doGaps_no_blocks (g : Globals) (funcVec : list Function) :
  all_blocks std_sort funcVec = [] → doGaps std_sort opts g funcVec = Fault.
Proof. intros H. unfold doGaps. rewrite H. done. Qed.

End Gaps.

(** ** Procedures that leave the gap counters alone *)

Section Frame.

Context (xed_decode : list byte → option nat).
Context (std_sort : ∀ A : Type, (A → A → bool) → list A → list A).
Context (opts : Options).

Lemma gstats_report_unknown (buf : list byte) (d : Decoded) (g : Globals) :
  gstats (report_unknown opts buf d g) = gstats g.
Proof.
  unfold report_unknown.
  destruct (negb (initial_parse g =? 0) && negb (quiet opts));
    [destruct (is_valid d); [|destruct (is_troll d)]|]; simpl;
    destruct (negb (initial_parse g =? 0)); done.
Qed.

Lemma gstats_myXedCallback (g g' : Globals) (seqn : list byte) (r : Instruction) :
  myXedCallback xed_decode opts g seqn = Done (r, g') → gstats g' = gstats g.
Proof.
  unfold myXedCallback, safety_valve, mbind, Result_bind, rbind.
  destruct (xed_error _).
  - destruct (20 <? _); [done|]. intros [= _ <-].
    by rewrite gstats_report_unknown.
  - intros [= _ <-]. by rewrite gstats_report_unknown.
Qed.

Lemma gstats_fill_loop (block_start block_size : Z) (imap : list (Z * Instruction))
    (g g' : Globals) (buf : list byte) (pos : Z) (flow : Flow (list byte)) :
  fill_loop opts block_start block_size imap g buf pos = Done (g', flow) →
  gstats g' = gstats g.
Proof.
  revert g buf pos. induction imap as [|[addr insn] imap IH]; intros g buf pos; simpl.
  - by intros [= <- _].
  - destruct (negb _).
    { intros [= <- _]. simpl. by destruct (quiet opts). }
    destruct (_ <? _).
    { intros [= <- _]. simpl. by destruct (quiet opts). }
    unfold mbind, Result_bind, rbind.
    destruct (if INT_MAX <? _ then _ else _); [|done..].
    apply IH.
Qed.

Lemma gstats_check_loop (block_start : Z) (imap : list (Z * Instruction))
    (g g' : Globals) (buf : list byte) :
  check_loop xed_decode opts block_start imap g buf = Done g' →
  gstats g' = gstats g.
Proof.
  revert g. induction imap as [|[addr insn] imap IH]; intros g; simpl.
  - by intros [= <-].
  - unfold mbind, Result_bind, rbind.
    destruct (buf_window _ _ _); [|done..].
    destruct (_ || _); [|apply IH].
    intros [= <-]. simpl. by destruct (quiet opts).
Qed.

Lemma gstats_doBlock (g g' : Globals) (block : Block) :
  doBlock xed_decode opts g block = Done g' → gstats g' = gstats g.
Proof.
  unfold doBlock. destruct (_ <? 0); [done|].
  unfold mbind, Result_bind, rbind.
  destruct (fill_loop _ _ _ _ _ _ _) as [[g1 flow]| |] eqn:Hfill; [|done..].
  apply gstats_fill_loop in Hfill. simpl in Hfill.
  destruct flow as [buf|].
  - intros Hc. apply gstats_check_loop in Hc. congruence.
  - intros [= <-]. done.
Qed.

Lemma gstats_doBlocks (g g' : Globals) (blockVec : list Block) :
  doBlocks xed_decode opts g blockVec = Done g' → gstats g' = gstats g.
Proof.
  revert g. induction blockVec as [|b blockVec IH]; intros g; simpl.
  - by intros [= <-].
  - unfold mbind, Result_bind, rbind.
    destruct (doBlock _ _ _ _) as [g1| |] eqn:Hb; [|done..].
    intros Hr. apply IH in Hr. apply gstats_doBlock in Hb. congruence.
Qed.

Lemma gstats_doFunction (g g' : Globals) (func : Function) :
  doFunction xed_decode std_sort opts g func = Done g' → gstats g' = gstats g.
Proof. unfold doFunction. intros H. by apply gstats_doBlocks in H. Qed.

End Frame.

(** ** Claims about the gap and overlap analyzer *)

(** C1.  With no block at all [doGaps] reads [blockVec[0]] of an empty
    vector, an access out of bounds, before it compares any pair; this is
    how [main] ends on a binary in which the engine finds no function.
    With exactly one block [doGaps] compares no pair and returns with every
    global (counters and output) unchanged. *)
Theorem doGaps_empty_or_single_block
    (xed_decode : list byte → option nat)
    (std_sort : ∀ A : Type, (A → A → bool) → list A → list A)
    (opts : Options) (g : Globals) (funcVec : list Function) :
  sort_contract std_sort →
  (concat (map blocks funcVec) = [] → doGaps std_sort opts g funcVec = Fault)
  ∧ analyze xed_decode std_sort opts g [] = Fault
  ∧ (∀ b, concat (map blocks funcVec) = [b] →
          doGaps std_sort opts g funcVec = Done g).
Proof.
  intros Hsort.
  assert (∀ g fv, concat (map blocks fv) = [] → doGaps std_sort opts g fv = Fault)
    as Hempty.
  { intros g0 fv Hnil. apply doGaps_no_blocks.
    unfold all_blocks, BlockLessThan. rewrite Hnil.
    apply (std_sort_nil std_sort Hsort start). }
  split; [apply Hempty|]. split.
  - unfold analyze, FuncLessThan.
    rewrite (std_sort_nil std_sort Hsort addr). simpl. by apply Hempty.
  - intros b Hone. rewrite (doGaps_blocks std_sort opts g funcVec b []); [done|].
    unfold all_blocks, BlockLessThan. rewrite Hone.
    apply (std_sort_singleton std_sort Hsort start).
Qed.

Lemma doGaps_empty_or_single_block_witness :
  let func := {| addr := 0x1000;
                 blocks := [ {| start := 0x1000; end_ := 0x1010; insns := [] |} ] |} in
  doGaps sort_ties_kept default_options initial_globals [] = Fault
  ∧ analyze nop_decoder sort_ties_kept default_options initial_globals [] = Fault
  ∧ doGaps sort_ties_kept default_options initial_globals [func]
    = Done initial_globals.
Proof.
  intros func.
  destruct (doGaps_empty_or_single_block nop_decoder sort_ties_kept
              default_options initial_globals [] sort_ties_kept_contract)
    as (Hempty & Hmain & _).
  destruct (doGaps_empty_or_single_block nop_decoder sort_ties_kept
              default_options initial_globals [func] sort_ties_kept_contract)
    as (_ & _ & Hone).
  split; [apply Hempty; reflexivity|].
  split; [exact Hmain|].
  eapply Hone. reflexivity.
Defined.

(** C6.  For every adjacent pair (previous, next) of the sorted block
    sequence, with size = next.start - previous.end as the program computes
    it: a positive size records exactly one gap (total count and total size,
    and count and size of exactly the band [0,16), [16,64), [64,256) or
    [256,inf) the size lies in), a negative size records exactly one
    overlap and touches no gap counter, and size zero records nothing.
    The size is the difference of the two addresses converted to [long],
    which is the difference itself when that fits.  The sequence that
    [doGaps] walks is the merged sequence, a permutation of the blocks of
    all functions, sorted by start address; when there is a block at all,
    [doGaps] does the above once for each adjacent pair of it, in order.
    A gap of size 10 is in the first band, one of size 16 in the second,
    and the blocks [0x100,0x110), [0x108,0x118) give one overlap and no
    gap. *)
Theorem gap_pair_classification
    (std_sort : ∀ A : Type, (A → A → bool) → list A → list A)
    (opts : Options) (g : Globals) (prev_block block : Block) :
  sort_contract std_sort →
  let size := gap_size prev_block block in
  let s := gstats g in
  let s' := gstats (gap_pair opts g prev_block block) in
  let printed := out (gap_pair opts g prev_block block) in
  size = to_long (start block - end_ prev_block)
  ∧ (- 2 ^ 63 ≤ start block - end_ prev_block < 2 ^ 63 →
     size = start block - end_ prev_block)
  ∧ (0 < size →
       num_gaps s' = num_gaps s + 1
       ∧ size_gaps s' = size_gaps s + size
       ∧ band_counters s'
         = alter (λ ns, (ns.1 + 1, ns.2 + size)) (band_index size) (band_counters s)
       ∧ num_overlap s' = num_overlap s
       ∧ printed
         = out g ++ (if quiet opts then []
                     else [PrintGap (start prev_block) (end_ prev_block)
                                    (start block) size]))
  ∧ (size < 0 →
       num_overlap s' = num_overlap s + 1
       ∧ num_gaps s' = num_gaps s
       ∧ size_gaps s' = size_gaps s
       ∧ band_counters s' = band_counters s
       ∧ printed
         = out g ++ (if quiet opts then []
                     else [PrintOverlap (end_ prev_block) (start block)
                                        (end_ block)]))
  ∧ (size = 0 → gap_pair opts g prev_block block = g)
  ∧ (∀ funcVec,
       let blockVec := all_blocks std_sort funcVec in
       concat (map blocks funcVec) ≡ₚ blockVec
       ∧ (∀ i j x y, (i < j)%nat →
            blockVec !! i = Some x → blockVec !! j = Some y → start x ≤ start y)
       ∧ (concat (map blocks funcVec) ≠ [] →
          doGaps std_sort opts g funcVec
          = Done (foldl (λ g pn, gap_pair opts g pn.1 pn.2) g
                    (adjacent_pairs blockVec))))
  ∧ band_index 10 = 0%nat
  ∧ band_index 16 = 1%nat
  ∧ (let a := {| start := 0x100; end_ := 0x110; insns := [] |} in
     let b := {| start := 0x108; end_ := 0x118; insns := [] |} in
     num_overlap (gstats (gap_pair opts g a b)) = num_overlap s + 1
     ∧ num_gaps (gstats (gap_pair opts g a b)) = num_gaps s).
Proof.
  intros Hsort size s s' printed.
  split; [done|].
  split; [intros Hr; by apply to_long_exact|].
  split.
  { intros Hpos. subst s' printed. rewrite gap_pair_gap by done. simpl.
    rewrite gstats_quiet_print. fold size. fold s.
    destruct (count_gap_totals size s) as (-> & -> & ->).
    rewrite count_gap_bands.
    repeat split; try done. destruct (quiet opts); simpl; [|done].
    by rewrite app_nil_r. }
  split.
  { intros Hneg. subst s' printed. rewrite gap_pair_overlap by done. simpl.
    rewrite gstats_quiet_print.
    repeat split; try done. destruct (quiet opts); simpl; [|done].
    by rewrite app_nil_r. }
  split; [apply gap_pair_contiguous|].
  split.
  { intros funcVec blockVec.
    assert (concat (map blocks funcVec) ≡ₚ blockVec) as Hperm
      by apply (std_sort_perm std_sort Hsort start).
    split; [done|]. split.
    - intros i j x y Hij Hi Hj.
      by apply (std_sort_ordered std_sort Hsort start
                  (concat (map blocks funcVec)) i j x y).
    - intros Hblocks. subst blockVec.
      destruct (all_blocks std_sort funcVec) as [|b rest] eqn:Hall.
      + by apply Permutation_nil_r in Hperm.
      + rewrite (doGaps_blocks std_sort opts g funcVec b rest Hall).
        by rewrite gaps_loop_foldl. }
  split; [done|]. split; [done|].
  intros a b. rewrite gap_pair_overlap by (vm_compute; reflexivity). simpl.
  rewrite gstats_quiet_print. done.
Qed.

Lemma gap_pair_classification_witness :
  let a := {| start := 0x100; end_ := 0x110; insns := [] |} in
  let b := {| start := 0x120; end_ := 0x130; insns := [] |} in
  sort_contract sort_ties_kept
  ∧ 0 < gap_size a b
  ∧ num_gaps (gstats (gap_pair default_options initial_globals a b))
    = num_gaps (gstats initial_globals) + 1
  ∧ band_counters (gstats (gap_pair default_options initial_globals a b))
    = [(0, 0); (1, 16); (0, 0); (0, 0)]
  ∧ doGaps sort_ties_kept default_options initial_globals
      [ {| addr := 0x120; blocks := [b] |}; {| addr := 0x100; blocks := [a] |} ]
    = Done (gap_pair default_options initial_globals a b).
Proof.
  intros a b.
  destruct (gap_pair_classification sort_ties_kept default_options
              initial_globals a b sort_ties_kept_contract)
    as (_ & _ & Hgap & _ & _ & Hwalk & _).
  split; [exact sort_ties_kept_contract|].
  split; [reflexivity|].
  destruct Hgap as (Hn & _ & Hbands & _); [reflexivity|].
  split; [exact Hn|]. split; [exact Hbands|].
  destruct (Hwalk [ {| addr := 0x120; blocks := [b] |};
                    {| addr := 0x100; blocks := [a] |} ]) as (_ & _ & Hrun).
  apply Hrun. discriminate.
Defined.

(** C9.  The gap totals are the sums over the four bands: this holds for
    the initial counters, every pair update of [doGaps] preserves it, so
    does a whole run of [doGaps], and the other procedures ([myXedCallback],
    [doFunction] with its [doBlock]s) do not touch the gap counters. *)
Theorem gap_counters_invariant :
  gaps_consistent (gstats initial_globals)
  ∧ (∀ opts g prev_block block,
       gaps_consistent (gstats g) →
       gaps_consistent (gstats (gap_pair opts g prev_block block)))
  ∧ (∀ std_sort opts g funcVec g',
       gaps_consistent (gstats g) →
       doGaps std_sort opts g funcVec = Done g' →
       gaps_consistent (gstats g'))
  ∧ (∀ xed_decode opts g seqn r g',
       myXedCallback xed_decode opts g seqn = Done (r, g') →
       gstats g' = gstats g)
  ∧ (∀ xed_decode std_sort opts g func g',
       doFunction xed_decode std_sort opts g func = Done g' →
       gstats g' = gstats g).
Proof.
  split; [done|].
  split; [intros; by apply gap_pair_consistent|].
  split.
  { intros std_sort opts g funcVec g' Hg. unfold doGaps.
    destruct (all_blocks std_sort funcVec) as [|b rest]; [done|].
    simpl. intros [= <-]. by apply gaps_loop_consistent. }
  split.
  - intros *. apply gstats_myXedCallback.
  - intros *. apply gstats_doFunction.
Qed.

Lemma gap_counters_invariant_witness :
  let a := {| start := 0x100; end_ := 0x110; insns := [] |} in
  let b := {| start := 0x120; end_ := 0x130; insns := [] |} in
  let c := {| start := 0x128; end_ := 0x138; insns := [] |} in
  gaps_consistent (gstats initial_globals)
  ∧ gaps_consistent
      (gstats (gap_pair default_options
                 (gap_pair default_options initial_globals a b) b c)).
Proof.
  intros a b c.
  destruct gap_counters_invariant as (H0 & Hstep & _).
  split; [exact H0|].
  apply Hstep, Hstep, H0.
Defined.

(** ** The unknown-instruction callback *)

Section Callback.

Context (xed_decode : list byte → option nat).
Context (opts : Options).

Lemma copy_seqn_app (seqn buf : list byte) :
  (length buf < MY_BUF_SIZE)%nat →
  copy_seqn seqn buf = buf ++ take (MY_BUF_SIZE - length buf) seqn.
Proof.
  revert buf. induction seqn as [|p seqn IH]; intros buf Hlen.
  - simpl. by rewrite take_nil, app_nil_r.
  - cbn [copy_seqn].
    destruct (Nat.leb_spec MY_BUF_SIZE (length (buf ++ [p]))) as [Hfull|Hroom];
      rewrite length_app in *; simpl in *.
    + replace (MY_BUF_SIZE - length buf)%nat with 1%nat by lia.
      simpl. by rewrite take_0.
    + rewrite IH by (rewrite length_app; simpl; lia).
      rewrite length_app. simpl. rewrite <- app_assoc. simpl.
      replace (MY_BUF_SIZE - length buf)%nat
        with (S (MY_BUF_SIZE - (length buf + 1)))%nat by lia.
      done.
Qed.

(** The callback works on the first [MY_BUF_SIZE] bytes of the window. *)
Lemma copy_seqn_take (seqn : list byte) :
  copy_seqn seqn [] = take MY_BUF_SIZE seqn.
Proof. rewrite copy_seqn_app by (simpl; unfold MY_BUF_SIZE; lia). done. Qed.

Lemma fails_before_spec (buf : list byte) (k : nat) :
  fails_before xed_decode buf k = true
  ↔ ∀ j, (j < k)%nat → xed_decode (drop j buf) = None.
Proof.
  unfold fails_before. rewrite forallb_forall. split.
  - intros H j Hj. specialize (H j). rewrite bool_decide_eq_true in H.
    apply H, in_seq. lia.
  - intros H j Hj. apply in_seq in Hj. apply bool_decide_eq_true, H. lia.
Qed.

Lemma troll_found (buf : list byte) (start iters k len : nat) :
  (start ≤ k < start + iters)%nat →
  (∀ j, (start ≤ j < k)%nat → xed_decode (drop j buf) = None) →
  xed_decode (drop k buf) = Some len →
  troll xed_decode buf start iters = (k, Some len).
Proof.
  revert start. induction iters as [|iters IH]; intros start Hk Hfail Hok; [lia|].
  simpl. destruct (decide (start = k)) as [->|Hne].
  - by rewrite Hok.
  - rewrite Hfail by lia. apply IH; [lia| |done].
    intros j Hj. apply Hfail. lia.
Qed.

Lemma troll_failed (buf : list byte) (start iters : nat) :
  (∀ j, (start ≤ j < start + iters)%nat → xed_decode (drop j buf) = None) →
  troll xed_decode buf start iters = ((start + iters)%nat, None).
Proof.
  revert start. induction iters as [|iters IH]; intros start Hfail.
  - simpl. f_equal. lia.
  - simpl. rewrite Hfail by lia. rewrite IH.
    + f_equal. lia.
    + intros j Hj. apply Hfail. lia.
Qed.

Lemma troll_failed_inv (buf : list byte) (start iters final : nat) :
  troll xed_decode buf start iters = (final, None) →
  ∀ j, (start ≤ j < start + iters)%nat → xed_decode (drop j buf) = None.
Proof.
  revert start. induction iters as [|iters IH]; intros start Ht j Hj; [lia|].
  simpl in Ht. destruct (xed_decode (drop start buf)) eqn:Hs; [done|].
  destruct (decide (j = start)) as [->|Hne]; [done|].
  apply (IH (S start)); [done|lia].
Qed.

(** The error flag of the locals is set exactly for unresolved windows. *)
Lemma xed_error_unresolved (seqn : list byte) :
  xed_error (decode_window xed_decode opts seqn (take MY_BUF_SIZE seqn))
  = unresolved xed_decode seqn.
Proof.
  unfold unresolved, decode_window.
  set (buf := take MY_BUF_SIZE seqn).
  destruct (xed_decode buf) eqn:H0; [done|].
  rewrite bool_decide_eq_true_2 by done. simpl.
  destruct (troll xed_decode buf 1 (length buf - 1)) as [final [len|]] eqn:Ht.
  - simpl. symmetry. apply not_true_is_false. rewrite fails_before_spec.
    intros Hall.
    rewrite troll_failed in Ht; [done|].
    intros j Hj. apply Hall. lia.
  - simpl. symmetry. apply fails_before_spec. intros j Hj.
    destruct j as [|j]; [by rewrite drop_0|].
    eapply troll_failed_inv; [exact Ht|lia].
Qed.

Lemma num_xed_errors_report_unknown (buf : list byte) (d : Decoded) (g : Globals) :
  num_xed_errors (report_unknown opts buf d g) = num_xed_errors g.
Proof.
  unfold report_unknown.
  destruct (negb (initial_parse g =? 0) && negb (quiet opts));
    [destruct (is_valid d); [|destruct (is_troll d)]|]; simpl;
    destruct (negb (initial_parse g =? 0)); done.
Qed.

(** What one invocation does to the consecutive-failure counter. *)
Lemma myXedCallback_unresolved (g : Globals) (seqn : list byte) :
  unresolved xed_decode seqn = true →
  if 20 <? num_xed_errors g + 1
  then myXedCallback xed_decode opts g seqn = Exit 1
  else ∃ r g', myXedCallback xed_decode opts g seqn = Done (r, g')
               ∧ num_xed_errors g' = num_xed_errors g + 1.
Proof.
  intros Hu. unfold myXedCallback, safety_valve.
  rewrite copy_seqn_take, xed_error_unresolved, Hu. simpl.
  destruct (20 <? num_xed_errors g + 1); [done|].
  eexists _, _. split; [done|].
  by rewrite num_xed_errors_report_unknown.
Qed.

Lemma myXedCallback_resolved (g : Globals) (seqn : list byte) :
  unresolved xed_decode seqn = false →
  ∃ r g', myXedCallback xed_decode opts g seqn = Done (r, g')
          ∧ num_xed_errors g' = 0.
Proof.
  intros Hu. unfold myXedCallback, safety_valve.
  rewrite copy_seqn_take, xed_error_unresolved, Hu. simpl.
  eexists _, _. split; [done|].
  by rewrite num_xed_errors_report_unknown.
Qed.

Lemma run_callbacks_app (g : Globals) (ws1 ws2 : list (list byte)) :
  run_callbacks xed_decode opts g (ws1 ++ ws2)
  = g ← run_callbacks xed_decode opts g ws1; run_callbacks xed_decode opts g ws2.
Proof.
  revert g. induction ws1 as [|w ws1 IH]; intros g; [done|].
  simpl. unfold mbind, Result_bind, rbind.
  destruct (myXedCallback _ _ _ _) as [[r g1]| |]; [|done..].
  apply IH.
Qed.

(** A run either goes on with at most 20 failures on the counter, or it
    leaves through the safety valve. *)
Lemma run_callbacks_bounded (g : Globals) (ws : list (list byte)) :
  0 ≤ num_xed_errors g ≤ 20 →
  run_callbacks xed_decode opts g ws = Exit 1
  ∨ ∃ g', run_callbacks xed_decode opts g ws = Done g'
          ∧ 0 ≤ num_xed_errors g' ≤ 20.
Proof.
  revert g. induction ws as [|w ws IH]; intros g Hg.
  - right. by exists g.
  - simpl. destruct (unresolved xed_decode w) eqn:Hu.
    + pose proof (myXedCallback_unresolved g w Hu) as Hc.
      destruct (Z.ltb_spec 20 (num_xed_errors g + 1)).
      * rewrite Hc. by left.
      * destruct Hc as (r & g1 & -> & Hn). simpl. apply IH. lia.
    + destruct (myXedCallback_resolved g w Hu) as (r & g1 & -> & Hn).
      simpl. apply IH. lia.
Qed.

Lemma run_callbacks_unresolved (g : Globals) (errs post : list (list byte)) :
  num_xed_errors g ≤ 20 →
  20 < num_xed_errors g + Z.of_nat (length errs) →
  forallb (unresolved xed_decode) errs = true →
  run_callbacks xed_decode opts g (errs ++ post) = Exit 1.
Proof.
  revert g. induction errs as [|w errs IH]; intros g Hle Hlen Hall.
  - simpl in Hlen. lia.
  - simpl in Hall. apply andb_true_iff in Hall as [Hu Hall]. simpl.
    pose proof (myXedCallback_unresolved g w Hu) as Hc.
    destruct (Z.ltb_spec 20 (num_xed_errors g + 1)).
    + by rewrite Hc.
    + destruct Hc as (r & g1 & -> & Hn). simpl.
      apply IH; [lia| |done]. simpl in Hlen. lia.
Qed.

Lemma decode_window_valid (seqn buf : list byte) (len : nat) :
  xed_decode buf = Some len →
  decode_window xed_decode opts seqn buf
  = {| xed_error := false; xed_len := len; troll_start := 0;
       is_valid := true; is_troll := false;
       ret := if fix_valid opts then nop_instruction len seqn
              else invalid_instruction |}.
Proof. intros H. unfold decode_window. by rewrite H. Qed.

Lemma decode_window_troll (seqn buf : list byte) (k len : nat) :
  (1 ≤ k < length buf)%nat →
  fails_before xed_decode buf k = true →
  xed_decode (drop k buf) = Some len →
  decode_window xed_decode opts seqn buf
  = {| xed_error := false; xed_len := len; troll_start := k;
       is_valid := false; is_troll := true;
       ret := if fix_troll opts then nop_instruction k seqn
              else invalid_instruction |}.
Proof.
  intros Hk Hfail Hok. rewrite fails_before_spec in Hfail.
  unfold decode_window.
  pose proof (Hfail 0%nat) as H0. rewrite drop_0 in H0. rewrite H0 by lia.
  rewrite (troll_found buf 1 (length buf - 1) k len); [done|lia| |done].
  intros j Hj. apply Hfail. lia.
Qed.

Lemma decode_window_error (seqn : list byte) :
  unresolved xed_decode seqn = true →
  let d := decode_window xed_decode opts seqn (take MY_BUF_SIZE seqn) in
  is_valid d = false ∧ is_troll d = false ∧ ret d = invalid_instruction.
Proof.
  intros Hu. rewrite <- xed_error_unresolved in Hu. revert Hu.
  unfold decode_window.
  destruct (xed_decode _); [done|].
  by destruct (troll _ _ _ _) as [final [len|]].
Qed.

Lemma unknown_delta_report (buf : list byte) (d : Decoded) (n : Z) (g : Globals) :
  unknown_delta g (report_unknown opts buf d (set_num_xed_errors n g))
  = if initial_parse g =? 0 then (0, 0, 0, 0)
    else if is_valid d then (1, 1, 0, 0)
    else if is_troll d then (1, 0, 1, 0)
    else (1, 0, 0, 1).
Proof.
  unfold unknown_delta, report_unknown. simpl.
  destruct (initial_parse g =? 0) eqn:Hparse; simpl.
  - rewrite Hparse. simpl. repeat f_equal; lia.
  - destruct (quiet opts), (is_valid d), (is_troll d); simpl;
      rewrite ?Hparse; simpl; repeat f_equal; lia.
Qed.

End Callback.

(** ** Claims about the callback *)

(** C2 fails as stated: on a replay invocation ([initial_parse] is 0, as
    in phase 2 of [main]) the window [90] is decoded at offset 0 and
    returned, but none of the classifications is counted. *)
Lemma myXedCallback_replay_counts_nothing :
  let g := set_initial_parse 0 initial_globals in
  ∃ r g', myXedCallback nop_decoder default_options g [x90] = Done (r, g')
          ∧ unknown_delta g g' = (0, 0, 0, 0).
Proof. intros g. eexists _, _. split; reflexivity. Qed.

(** C2, amended.  The callback looks at the first [MY_BUF_SIZE] bytes of
    the window.  If the decoder succeeds at offset 0 the outcome is valid
    with the decoded length recorded; if it fails at every offset below [k]
    and succeeds at [k], with [1 <= k <= length - 1], the outcome is troll
    with [k] and the length recorded; if it fails everywhere the outcome is
    error.  An invocation that returns during the initial parse counts
    exactly the one classification of its outcome (and [num_unknown]); a
    replay invocation counts nothing, and an error outcome that is the 21st
    in a row leaves the program before anything is counted. *)
Theorem myXedCallback_classification
    (xed_decode : list byte → option nat) (opts : Options)
    (g : Globals) (seqn : list byte) :
  let buf := take MY_BUF_SIZE seqn in
  let d := decode_window xed_decode opts seqn buf in
  (∀ len, xed_decode buf = Some len →
     is_valid d = true ∧ is_troll d = false ∧ xed_len d = len
     ∧ ret d = (if fix_valid opts then nop_instruction len seqn
                else invalid_instruction)
     ∧ ∃ g', myXedCallback xed_decode opts g seqn = Done (ret d, g')
             ∧ unknown_delta g g'
               = if initial_parse g =? 0 then (0, 0, 0, 0) else (1, 1, 0, 0))
  ∧ (∀ k len, (1 ≤ k < length buf)%nat →
       fails_before xed_decode buf k = true →
       xed_decode (drop k buf) = Some len →
       is_valid d = false ∧ is_troll d = true
       ∧ troll_start d = k ∧ xed_len d = len
       ∧ ret d = (if fix_troll opts then nop_instruction k seqn
                  else invalid_instruction)
       ∧ ∃ g', myXedCallback xed_decode opts g seqn = Done (ret d, g')
               ∧ unknown_delta g g'
                 = if initial_parse g =? 0 then (0, 0, 0, 0) else (1, 0, 1, 0))
  ∧ (unresolved xed_decode seqn = true →
       is_valid d = false ∧ is_troll d = false ∧ ret d = invalid_instruction
       ∧ if 20 <? num_xed_errors g + 1
         then myXedCallback xed_decode opts g seqn = Exit 1
         else ∃ g', myXedCallback xed_decode opts g seqn = Done (ret d, g')
                    ∧ unknown_delta g g'
                      = if initial_parse g =? 0 then (0, 0, 0, 0)
                        else (1, 0, 0, 1)).
Proof.
  intros buf d. split; [|split].
  - intros len Hok. subst d.
    unfold myXedCallback. rewrite copy_seqn_take. fold buf.
    rewrite (decode_window_valid xed_decode opts seqn buf len Hok). simpl.
    repeat split; try done.
    eexists. split; [done|]. by rewrite unknown_delta_report.
  - intros k len Hk Hfail Hok. subst d.
    unfold myXedCallback. rewrite copy_seqn_take. fold buf.
    rewrite (decode_window_troll xed_decode opts seqn buf k len Hk Hfail Hok).
    simpl. repeat split; try done.
    eexists. split; [done|]. by rewrite unknown_delta_report.
  - intros Hu.
    destruct (decode_window_error xed_decode opts seqn Hu) as (Hv & Ht & Hr).
    fold buf in Hv, Ht, Hr. fold d in Hv, Ht, Hr.
    repeat split; try done.
    unfold myXedCallback, safety_valve. rewrite copy_seqn_take. fold buf. fold d.
    replace (xed_error d) with true
      by (subst d buf; by rewrite xed_error_unresolved).
    simpl. destruct (20 <? num_xed_errors g + 1); [done|]. simpl.
    eexists. split; [done|].
    rewrite unknown_delta_report, Hv, Ht. done.
Qed.

Lemma myXedCallback_classification_witness :
  let seqn := [x06; x06; x06; x90; x06] in
  let d := decode_window nop_decoder default_options seqn (take MY_BUF_SIZE seqn) in
  is_troll d = true ∧ troll_start d = 3%nat ∧ xed_len d = 1%nat
  ∧ ∃ g', myXedCallback nop_decoder default_options initial_globals seqn
          = Done (ret d, g')
          ∧ unknown_delta initial_globals g' = (1, 0, 1, 0).
Proof.
  intros seqn d.
  destruct (myXedCallback_classification nop_decoder default_options
              initial_globals seqn) as (_ & Htroll & _).
  destruct (Htroll 3%nat 1%nat) as (_ & Ht & Hs & Hl & _ & Hcount);
    [simpl; lia|reflexivity|reflexivity|].
  split; [exact Ht|]. split; [exact Hs|]. split; [exact Hl|exact Hcount].
Defined.

(** C3.  The consecutive-failure counter goes up by one exactly on an
    unresolved invocation (neither valid nor troll) and is set to zero on a
    resolved one; an unresolved invocation that takes it above 20 ends the
    program with exit code 1 at once.  Hence a run of invocations never
    gets past 21 unresolved windows in a row, and the counter of a program
    that goes on is between 0 and 20. *)
Theorem safety_valve_consecutive_failures
    (xed_decode : list byte → option nat) (opts : Options) :
  (∀ g seqn, unresolved xed_decode seqn = true →
     let d := decode_window xed_decode opts seqn (take MY_BUF_SIZE seqn) in
     is_valid d = false ∧ is_troll d = false
     ∧ if 20 <? num_xed_errors g + 1
       then myXedCallback xed_decode opts g seqn = Exit 1
       else ∃ r g', myXedCallback xed_decode opts g seqn = Done (r, g')
                    ∧ num_xed_errors g' = num_xed_errors g + 1)
  ∧ (∀ g seqn, unresolved xed_decode seqn = false →
       let d := decode_window xed_decode opts seqn (take MY_BUF_SIZE seqn) in
       (is_valid d = true ∨ is_troll d = true)
       ∧ ∃ r g', myXedCallback xed_decode opts g seqn = Done (r, g')
                 ∧ num_xed_errors g' = 0)
  ∧ (∀ g pre errs post,
       0 ≤ num_xed_errors g ≤ 20 →
       length errs = 21%nat →
       forallb (unresolved xed_decode) errs = true →
       run_callbacks xed_decode opts g (pre ++ errs ++ post) = Exit 1)
  ∧ (∀ g windows g',
       0 ≤ num_xed_errors g ≤ 20 →
       run_callbacks xed_decode opts g windows = Done g' →
       0 ≤ num_xed_errors g' ≤ 20).
Proof.
  split; [|split; [|split]].
  - intros g seqn Hu d.
    destruct (decode_window_error xed_decode opts seqn Hu) as (Hv & Ht & _).
    split; [done|]. split; [done|].
    by apply myXedCallback_unresolved.
  - intros g seqn Hu d. split; [|by apply myXedCallback_resolved].
    rewrite <- (xed_error_unresolved xed_decode opts) in Hu. fold d in Hu.
    revert Hu. subst d. unfold decode_window.
    destruct (xed_decode _); [by left|].
    destruct (troll _ _ _ _) as [final [len|]]; [by right|done].
  - intros g pre errs post Hg Hlen Hall.
    rewrite run_callbacks_app.
    destruct (run_callbacks_bounded xed_decode opts g pre Hg)
      as [->|(g1 & -> & Hg1)]; [done|].
    simpl. apply run_callbacks_unresolved; [lia|lia|done].
  - intros g windows g' Hg Hrun.
    destruct (run_callbacks_bounded xed_decode opts g windows Hg)
      as [Hexit|(g1 & Hdone & Hg1)]; [congruence|].
    rewrite Hrun in Hdone. by injection Hdone as ->.
Qed.

Lemma safety_valve_consecutive_failures_witness :
  run_callbacks nop_decoder default_options initial_globals
    ([[x90]] ++ replicate 21 [x06; x07] ++ [[x90]]) = Exit 1
  ∧ ∃ g', run_callbacks nop_decoder default_options initial_globals
            ([[x90]] ++ replicate 20 [x06; x07] ++ [[x90]]) = Done g'.
Proof.
  split.
  - apply (safety_valve_consecutive_failures nop_decoder default_options);
      [simpl; lia|reflexivity|reflexivity].
  - eexists. vm_compute. reflexivity.
Defined.

(** ** The block cross-validator *)

Section BlockCounters.

Context (xed_decode : list byte → option nat).
Context (opts : Options).

Lemma length_delta_quiet_print (f : LengthStats → LengthStats) (e : Event) (g : Globals) :
  lstats (with_lstats f (if quiet opts then g else print e g)) = f (lstats g).
Proof. by destruct (quiet opts). Qed.

(** The fill loop records nothing when it runs to the end, and one align
    or one length error when it leaves the block. *)
Lemma fill_loop_lstats (block_start block_size : Z) (imap : list (Z * Instruction))
    (g g' : Globals) (buf : list byte) (pos : Z) (flow : Flow (list byte)) :
  fill_loop opts block_start block_size imap g buf pos = Done (g', flow) →
  match flow with
  | Continue _ => lstats g' = lstats g
  | EndBlock => lstats g' = inc_block_align_errors (lstats g)
                ∨ lstats g' = inc_block_length_errors (lstats g)
  end.
Proof.
  revert g buf pos. induction imap as [|[addr insn] imap IH]; intros g buf pos; simpl.
  - by intros [= <- <-].
  - destruct (negb _).
    { intros [= <- <-]. left. apply length_delta_quiet_print. }
    destruct (_ <? _).
    { intros [= <- <-]. right. apply length_delta_quiet_print. }
    unfold mbind, Result_bind, rbind.
    destruct (if INT_MAX <? _ then _ else _); [|done..].
    apply IH.
Qed.

Lemma check_loop_lstats (block_start : Z) (imap : list (Z * Instruction))
    (g g' : Globals) (buf : list byte) :
  check_loop xed_decode opts block_start imap g buf = Done g' →
  lstats g' = lstats g ∨ lstats g' = inc_bad_length (lstats g).
Proof.
  revert g. induction imap as [|[addr insn] imap IH]; intros g; simpl.
  - intros [= <-]. by left.
  - unfold mbind, Result_bind, rbind.
    destruct (buf_window _ _ _); [|done..].
    destruct (_ || _); [|apply IH].
    intros [= <-]. right. apply length_delta_quiet_print.
Qed.

(** One block moves the three counters by nothing, or exactly one of them
    by one. *)
Lemma doBlock_length_delta (g g' : Globals) (block : Block) :
  doBlock xed_decode opts g block = Done g' →
  length_delta g g' = (0, 0, 0) ∨ length_delta g g' = (1, 0, 0)
  ∨ length_delta g g' = (0, 1, 0) ∨ length_delta g g' = (0, 0, 1).
Proof.
  unfold doBlock. destruct (_ <? 0); [done|].
  unfold mbind, Result_bind, rbind.
  destruct (fill_loop _ _ _ _ _ _ _) as [[g1 flow]| |] eqn:Hfill; [|done..].
  apply fill_loop_lstats in Hfill. simpl in Hfill.
  unfold length_delta. destruct flow as [buf|].
  - intros Hc. apply check_loop_lstats in Hc.
    destruct Hc as [Hc|Hc]; rewrite Hc, Hfill; simpl;
      [left|right; left]; repeat f_equal; lia.
  - intros [= <-].
    destruct Hfill as [Hc|Hc]; rewrite Hc; simpl;
      [right; right; left|right; right; right]; repeat f_equal; lia.
Qed.

Lemma out_quiet_print (f : LengthStats → LengthStats) (e : Event) (g : Globals) :
  out (with_lstats f (if quiet opts then g else print e g))
  = out g ++ (if quiet opts then [] else [e]).
Proof. destruct (quiet opts); simpl; [by rewrite app_nil_r|done]. Qed.

Lemma fill_loop_out (block_start block_size : Z) (imap : list (Z * Instruction))
    (g g' : Globals) (buf : list byte) (pos : Z) (flow : Flow (list byte)) :
  fill_loop opts block_start block_size imap g buf pos = Done (g', flow) →
  match flow with
  | Continue _ => out g' = out g
  | EndBlock => ∃ e, out g' = out g ++ (if quiet opts then [] else [e])
  end.
Proof.
  revert g buf pos. induction imap as [|[addr insn] imap IH]; intros g buf pos; simpl.
  - by intros [= <- <-].
  - destruct (negb _).
    { intros [= <- <-]. eexists. apply out_quiet_print. }
    destruct (_ <? _).
    { intros [= <- <-]. eexists. apply out_quiet_print. }
    unfold mbind, Result_bind, rbind.
    destruct (if INT_MAX <? _ then _ else _); [|done..].
    apply IH.
Qed.

Lemma check_loop_out (block_start : Z) (imap : list (Z * Instruction))
    (g g' : Globals) (buf : list byte) :
  check_loop xed_decode opts block_start imap g buf = Done g' →
  (lstats g' = lstats g ∧ out g' = out g)
  ∨ (lstats g' = inc_bad_length (lstats g)
     ∧ ∃ e, out g' = out g ++ (if quiet opts then [] else [e])).
Proof.
  revert g. induction imap as [|[addr insn] imap IH]; intros g; simpl.
  - intros [= <-]. by left.
  - unfold mbind, Result_bind, rbind.
    destruct (buf_window _ _ _); [|done..].
    destruct (_ || _); [|apply IH].
    intros [= <-]. right. split; [apply length_delta_quiet_print|].
    eexists. apply out_quiet_print.
Qed.

(** One block prints at most one event, and none when it records no
    discrepancy. *)
Lemma doBlock_out (g g' : Globals) (block : Block) :
  doBlock xed_decode opts g block = Done g' →
  ∃ evs, out g' = out g ++ evs ∧ (length evs ≤ 1)%nat
         ∧ (length_delta g g' = (0, 0, 0) → evs = []).
Proof.
  unfold doBlock. destruct (_ <? 0); [done|].
  unfold mbind, Result_bind, rbind.
  destruct (fill_loop _ _ _ _ _ _ _) as [[g1 flow]| |] eqn:Hfill; [|done..].
  pose proof (fill_loop_lstats _ _ _ _ _ _ _ _ Hfill) as Hl.
  apply fill_loop_out in Hfill. simpl in Hfill, Hl.
  unfold length_delta. destruct flow as [buf|].
  - intros Hc. apply check_loop_out in Hc.
    destruct Hc as [[Hc Ho]|[Hc [e Ho]]].
    + exists []. rewrite Ho, Hfill, app_nil_r. split; [done|]. split; [simpl; lia|done].
    + exists (if quiet opts then [] else [e]). rewrite Ho, Hfill.
      split; [done|]. split; [destruct (quiet opts); simpl; lia|].
      rewrite Hc, Hl. simpl. intros [= Hd _ _]. lia.
  - intros [= <-]. destruct Hfill as [e Ho].
    exists (if quiet opts then [] else [e]). rewrite Ho.
    split; [done|]. split; [destruct (quiet opts); simpl; lia|].
    destruct Hl as [Hl|Hl]; rewrite Hl; simpl; intros [= _ Hd1 Hd2]; lia.
Qed.

(** Once the fill loop has left the block, the instructions after the
    break point are not looked at. *)
Lemma fill_loop_stops (block_start block_size : Z) (pre post : list (Z * Instruction))
    (g g' : Globals) (buf : list byte) (pos : Z) :
  fill_loop opts block_start block_size pre g buf pos = Done (g', EndBlock) →
  fill_loop opts block_start block_size (pre ++ post) g buf pos = Done (g', EndBlock).
Proof.
  revert g buf pos. induction pre as [|[addr insn] pre IH]; intros g buf pos; simpl.
  - done.
  - destruct (negb _); [done|].
    destruct (_ <? _); [done|].
    unfold mbind, Result_bind, rbind.
    destruct (if INT_MAX <? _ then _ else _); [|done..].
    apply IH.
Qed.

(** Once the check loop has recorded a bad length, the instructions after
    it are not looked at. *)
Lemma check_loop_stops (block_start : Z) (pre post : list (Z * Instruction))
    (g g' : Globals) (buf : list byte) :
  check_loop xed_decode opts block_start pre g buf = Done g' →
  lstats g' ≠ lstats g →
  check_loop xed_decode opts block_start (pre ++ post) g buf = Done g'.
Proof.
  revert g. induction pre as [|[addr insn] pre IH]; intros g; simpl.
  - intros [= <-] Hne. done.
  - unfold mbind, Result_bind, rbind.
    destruct (buf_window _ _ _); [|done..].
    destruct (_ || _); [done|apply IH].
Qed.

End BlockCounters.

Lemma wrap64_small (z : Z) : 0 ≤ z < 2 ^ 64 → wrap64 z = z.
Proof. intros Hz. unfold wrap64. by apply Z.mod_small. Qed.

Lemma length_insn_bytes (insn : Instruction) :
  length (insn_bytes insn) = insn_size insn.
Proof. unfold insn_bytes. by rewrite length_map, length_seq. Qed.

Lemma claimed_bytes_cons (addr : Z) (insn : Instruction) (imap : list (Z * Instruction)) :
  claimed_bytes ((addr, insn) :: imap) = insn_bytes insn ++ claimed_bytes imap.
Proof. done. Qed.

Lemma claimed_bytes_app (pre post : list (Z * Instruction)) :
  claimed_bytes (pre ++ post) = claimed_bytes pre ++ claimed_bytes post.
Proof. unfold claimed_bytes. by rewrite map_app, concat_app. Qed.

Lemma claimed_length_cons (addr : Z) (insn : Instruction) (imap : list (Z * Instruction)) :
  claimed_length ((addr, insn) :: imap)
  = Z.of_nat (insn_size insn) + claimed_length imap.
Proof.
  unfold claimed_length. rewrite claimed_bytes_cons, length_app, length_insn_bytes.
  lia.
Qed.

Lemma claimed_length_app (pre post : list (Z * Instruction)) :
  claimed_length (pre ++ post) = claimed_length pre + claimed_length post.
Proof. unfold claimed_length. rewrite claimed_bytes_app, length_app. lia. Qed.

Lemma claimed_length_nonneg (imap : list (Z * Instruction)) : 0 ≤ claimed_length imap.
Proof. unfold claimed_length. lia. Qed.

Lemma contiguous_app (a : Z) (pre post : list (Z * Instruction)) :
  contiguous a (pre ++ post)
  = contiguous a pre && contiguous (a + claimed_length pre) post.
Proof.
  revert a. induction pre as [|[addr insn] pre IH]; intros a; simpl.
  - f_equal. unfold claimed_length. simpl. lia.
  - rewrite IH, claimed_length_cons, <- andb_assoc. do 3 f_equal. lia.
Qed.

(** The copy loop writes the claimed bytes of the instruction over the
    part of the buffer that starts at [pos]. *)
Lemma copy_raw_app (insn : Instruction) (iters : nat) (w d r : list byte) :
  (iters ≤ length r)%nat →
  copy_raw insn (Z.of_nat (length w)) (length d) iters (w ++ d ++ r)
  = Done (w ++ d ++ map (rawByte insn) (seq (length d) iters) ++ drop iters r).
Proof.
  revert d r. induction iters as [|iters IH]; intros d r Hlen.
  - simpl. by rewrite drop_0.
  - destruct r as [|v r]; [simpl in Hlen; lia|].
    cbn [copy_raw]. unfold buf_store.
    rewrite !length_app. cbn [length].
    destruct (Z.leb_spec 0 (Z.of_nat (length w) + Z.of_nat (length d))); [|lia].
    destruct (Z.ltb_spec (Z.of_nat (length w) + Z.of_nat (length d))
                (Z.of_nat (length w + (length d + S (length r))))); [|lia].
    simpl.
    replace (Z.to_nat (Z.of_nat (length w) + Z.of_nat (length d)))
      with (length (w ++ d) + 0)%nat by (rewrite length_app; lia).
    rewrite (app_assoc w d), insert_app_r. simpl.
    replace ((w ++ d) ++ rawByte insn (length d) :: r)
      with (w ++ (d ++ [rawByte insn (length d)]) ++ r)
      by (by rewrite <- !app_assoc).
    replace (S (length d)) with (length (d ++ [rawByte insn (length d)]))
      by (rewrite length_app; simpl; lia).
    rewrite IH by (simpl in Hlen; lia).
    rewrite length_app. simpl.
    rewrite <- !app_assoc. simpl.
    by replace (length d + 1)%nat with (S (length d)) by lia.
Qed.

Section WellFormedBlock.

Context (xed_decode : list byte → option nat).
Context (opts : Options).
Context (block_start block_size : Z).
Context (Hstart : 0 ≤ block_start).
Context (Hsize : 0 ≤ block_size < 2 ^ 63).
Context (Hend : block_start + block_size < 2 ^ 64).

(** An instruction that is where it should be and fits the block is
    copied, and the loop goes on behind it. *)
Lemma fill_loop_step (addr : Z) (insn : Instruction) (rest : list (Z * Instruction))
    (g : Globals) (w : list byte) (k : nat) :
  let pos := Z.of_nat (length w) in
  let len := Z.of_nat (insn_size insn) in
  addr = block_start + pos →
  pos + len ≤ block_size →
  len ≤ INT_MAX →
  pos + Z.of_nat k = block_size + 20 →
  fill_loop opts block_start block_size ((addr, insn) :: rest) g
    (w ++ replicate k x00) pos
  = fill_loop opts block_start block_size rest g
      ((w ++ insn_bytes insn) ++ replicate (k - insn_size insn) x00)
      (pos + len).
Proof using Hstart Hsize Hend.
  intros pos len Haddr Hfit Hint Hbuf. cbn [fill_loop]. fold len.
  rewrite (wrap64_small (block_start + pos)) by lia.
  destruct (Z.eqb_spec (block_start + pos) addr); [|lia]. cbn [negb].
  rewrite (wrap64_small block_size), (wrap64_small (pos + len)) by lia.
  destruct (Z.ltb_spec block_size (pos + len)); [lia|].
  destruct (Z.ltb_spec INT_MAX len); [lia|].
  pose proof (copy_raw_app insn (insn_size insn) w [] (replicate k x00)) as Hcopy.
  simpl in Hcopy. fold pos in Hcopy. rewrite Hcopy by (rewrite length_replicate; lia).
  unfold mbind, Result_bind, rbind.
  rewrite drop_replicate, (to_long_exact (pos + len)) by lia.
  by rewrite <- app_assoc.
Qed.

(** A prefix of instructions that are contiguous and within the block is
    copied into the buffer, and the loop goes on with what follows. *)
Lemma fill_loop_prefix (pre rest : list (Z * Instruction)) (g : Globals)
    (w : list byte) (k : nat) :
  let pos := Z.of_nat (length w) in
  contiguous (block_start + pos) pre = true →
  pos + claimed_length pre ≤ block_size →
  forallb (λ ai, Z.of_nat (insn_size ai.2) <=? INT_MAX) pre = true →
  pos + Z.of_nat k = block_size + 20 →
  fill_loop opts block_start block_size (pre ++ rest) g (w ++ replicate k x00) pos
  = fill_loop opts block_start block_size rest g
      ((w ++ claimed_bytes pre) ++ replicate (k - length (claimed_bytes pre)) x00)
      (pos + claimed_length pre).
Proof using Hstart Hsize Hend.
  revert w k. induction pre as [|[addr insn] pre IH]; intros w k pos Hc Hfit Hint Hbuf.
  - simpl. unfold claimed_length. simpl.
    rewrite app_nil_r, Nat.sub_0_r, Z.add_0_r. done.
  - simpl in Hc, Hint. apply andb_true_iff in Hc as [Ha Hc].
    apply andb_true_iff in Hint as [Hi Hint].
    apply Z.eqb_eq in Ha. apply Z.leb_le in Hi.
    rewrite claimed_length_cons in Hfit.
    pose proof (claimed_length_nonneg pre).
    rewrite <- app_comm_cons.
    rewrite fill_loop_step by (done || lia).
    fold pos.
    replace (pos + Z.of_nat (insn_size insn))
      with (Z.of_nat (length (w ++ insn_bytes insn)))
      by (rewrite length_app, length_insn_bytes; lia).
    rewrite IH.
    + rewrite claimed_bytes_cons, claimed_length_cons, !length_app,
        length_insn_bytes, <- !app_assoc.
      replace (k - insn_size insn - length (claimed_bytes pre))%nat
        with (k - (insn_size insn + length (claimed_bytes pre)))%nat by lia.
      f_equal. subst pos. lia.
    + rewrite length_app, length_insn_bytes.
      replace (block_start + Z.of_nat (length w + insn_size insn))
        with (block_start + pos + Z.of_nat (insn_size insn)) by lia.
      done.
    + rewrite length_app, length_insn_bytes. lia.
    + done.
    + rewrite length_app, length_insn_bytes. lia.
Qed.

(** What the fill loop does on any instruction list of a well-formed
    block: it returns, either at the end with the claimed bytes in the
    buffer, or at the first instruction that is misplaced or too long. *)
Lemma fill_loop_total (imap : list (Z * Instruction)) (g : Globals)
    (w : list byte) (k : nat) :
  let pos := Z.of_nat (length w) in
  pos ≤ block_size →
  forallb (λ ai, Z.of_nat (insn_size ai.2) <=? INT_MAX) imap = true →
  pos + Z.of_nat k = block_size + 20 →
  ∃ g' flow,
    fill_loop opts block_start block_size imap g (w ++ replicate k x00) pos
    = Done (g', flow)
    ∧ match flow with
      | Continue buf =>
          g' = g
          ∧ contiguous (block_start + pos) imap = true
          ∧ pos + claimed_length imap ≤ block_size
          ∧ buf = (w ++ claimed_bytes imap)
                  ++ replicate (k - length (claimed_bytes imap)) x00
      | EndBlock =>
          ∃ pre addr insn post,
            imap = pre ++ (addr, insn) :: post
            ∧ contiguous (block_start + pos) pre = true
            ∧ pos + claimed_length pre ≤ block_size
            ∧ ((addr ≠ block_start + pos + claimed_length pre
                ∧ lstats g' = inc_block_align_errors (lstats g))
               ∨ (addr = block_start + pos + claimed_length pre
                  ∧ block_size < pos + claimed_length pre + Z.of_nat (insn_size insn)
                  ∧ lstats g' = inc_block_length_errors (lstats g)))
      end.
Proof using Hstart Hsize Hend.
  revert w k. induction imap as [|[addr insn] imap IH]; intros w k pos Hpos Hint Hbuf.
  - exists g, (Continue (w ++ replicate k x00)). split; [done|].
    unfold claimed_length. simpl. rewrite app_nil_r, Nat.sub_0_r.
    split; [done|]. split; [done|]. split; [lia|done].
  - simpl in Hint. apply andb_true_iff in Hint as [Hi Hint]. apply Z.leb_le in Hi.
    destruct (decide (addr = block_start + pos)) as [Haddr|Haddr].
    + destruct (decide (pos + Z.of_nat (insn_size insn) ≤ block_size)) as [Hfit|Hfit].
      * rewrite fill_loop_step by done. fold pos.
        destruct (IH (w ++ insn_bytes insn) (k - insn_size insn)%nat)
          as (g' & flow & Hrun & Hflow);
          [rewrite length_app, length_insn_bytes; lia|done
          |rewrite length_app, length_insn_bytes; lia|].
        rewrite length_app, length_insn_bytes in Hrun, Hflow.
        replace (Z.of_nat (length w + insn_size insn))
          with (pos + Z.of_nat (insn_size insn)) in Hrun, Hflow by lia.
        exists g', flow. split; [exact Hrun|].
        destruct flow as [buf|].
        -- destruct Hflow as (-> & Hc & Hl & ->).
           rewrite Z.add_assoc in Hc.
           rewrite claimed_bytes_cons, claimed_length_cons, length_app,
             length_insn_bytes, <- !app_assoc.
           simpl. rewrite Hc.
           replace (k - insn_size insn - length (claimed_bytes imap))%nat
             with (k - (insn_size insn + length (claimed_bytes imap)))%nat by lia.
           split; [done|]. split; [rewrite andb_true_r; by apply Z.eqb_eq|].
           split; [lia|done].
        -- destruct Hflow as (pre & a & i & post & -> & Hc & Hl & Hcase).
           rewrite Z.add_assoc in Hc.
           exists ((addr, insn) :: pre), a, i, post.
           rewrite claimed_length_cons. simpl. rewrite Hc.
           split; [done|]. split; [by apply andb_true_iff, conj; [apply Z.eqb_eq|]|].
           split; [lia|].
           destruct Hcase as [[Hne Hs]|(He & Hlong & Hs)]; [left|right].
           ++ split; [lia|done].
           ++ split; [lia|]. split; [lia|done].
      * eexists _, EndBlock. cbn [fill_loop].
        rewrite (wrap64_small (block_start + pos)) by lia.
        destruct (Z.eqb_spec (block_start + pos) addr); [|lia]. cbn [negb].
        rewrite (wrap64_small block_size),
          (wrap64_small (pos + Z.of_nat (insn_size insn))) by (unfold INT_MAX in Hi; lia).
        destruct (Z.ltb_spec block_size (pos + Z.of_nat (insn_size insn))); [|lia].
        split; [done|].
        exists [], addr, insn, imap. unfold claimed_length. simpl.
        split; [done|]. split; [done|]. split; [lia|]. right.
        split; [lia|]. split; [lia|]. by destruct (quiet opts).
    + eexists _, EndBlock. cbn [fill_loop].
      rewrite (wrap64_small (block_start + pos)) by lia.
      destruct (Z.eqb_spec (block_start + pos) addr); [lia|]. cbn [negb].
      split; [done|].
      exists [], addr, insn, imap. unfold claimed_length. simpl.
      split; [done|]. split; [done|]. split; [lia|]. left.
      split; [lia|]. by destruct (quiet opts).
Qed.

(** The check loop on instructions that are contiguous and within the
    block reads its 16-byte windows inside the buffer; it returns, and
    records nothing when the decoder agrees with every claimed length. *)
Lemma check_loop_total (imap : list (Z * Instruction)) (g : Globals)
    (buf : list byte) (off : nat) :
  Z.of_nat (length buf) = block_size + 20 →
  contiguous (block_start + Z.of_nat off) imap = true →
  Z.of_nat off + claimed_length imap ≤ block_size →
  ∃ g', check_loop xed_decode opts block_start imap g buf = Done g'
        ∧ (lengths_match xed_decode buf off imap = true → g' = g).
Proof using Hstart Hsize Hend.
  intros Hbuf. revert off.
  induction imap as [|[addr insn] imap IH]; intros off Hc Hfit.
  - by exists g.
  - simpl in Hc. apply andb_true_iff in Hc as [Ha Hc]. apply Z.eqb_eq in Ha.
    rewrite claimed_length_cons in Hfit.
    pose proof (claimed_length_nonneg imap).
    cbn [check_loop lengths_match].
    replace (addr - block_start) with (Z.of_nat off) by lia.
    rewrite (wrap64_small (Z.of_nat off)) by lia.
    unfold buf_window.
    destruct (Z.leb_spec 0 (Z.of_nat off)); [|lia].
    destruct (Z.leb_spec (Z.of_nat off + Z.of_nat 16) (Z.of_nat (length buf))); [|lia].
    cbn [andb]. unfold mbind, Result_bind, rbind. rewrite Nat2Z.id.
    destruct (xed_decode (take 16 (drop off buf))) as [len|] eqn:Hdec.
    + destruct (Z.eqb_spec (Z.of_nat (insn_size insn)) (Z.of_nat len)) as [Heq|Hne].
      * rewrite bool_decide_eq_false_2 by done. cbn [orb negb].
        destruct (IH (off + insn_size insn)%nat) as (g' & Hrun & Hg');
          [by replace (block_start + Z.of_nat (off + insn_size insn))
                with (block_start + Z.of_nat off + Z.of_nat (insn_size insn)) by lia
          |lia|].
        exists g'. split; [done|].
        intros Hm. apply andb_true_iff in Hm as [_ Hm]. by apply Hg'.
      * rewrite bool_decide_eq_false_2 by done. cbn [orb negb].
        eexists. split; [done|].
        intros Hm. apply andb_true_iff in Hm as [Hm _].
        apply bool_decide_eq_true in Hm. injection Hm as ->. done.
    + rewrite bool_decide_eq_true_2 by done. cbn [orb].
      eexists. split; [done|].
      intros Hm. apply andb_true_iff in Hm as [Hm _].
      by apply bool_decide_eq_true in Hm.
Qed.

End WellFormedBlock.

Section WholeBlock.

Context (xed_decode : list byte → option nat).
Context (opts : Options).

Lemma well_formed_spec (block : Block) :
  well_formed block = true →
  0 ≤ start block ∧ start block ≤ end_ block ∧ end_ block < 2 ^ 64
  ∧ end_ block - start block < 2 ^ 63
  ∧ forallb (λ ai, Z.of_nat (insn_size ai.2) <=? INT_MAX) (insns block) = true.
Proof.
  unfold well_formed. rewrite !andb_true_iff.
  intros ((((H1 & H2) & H3) & H4) & H5).
  apply Z.leb_le in H1, H2. apply Z.ltb_lt in H3, H4. done.
Qed.

(** On a well-formed block the block size is [end - start] and the
    allocation succeeds: [doBlock] is its two loops on a zeroed buffer of
    block size plus 20 bytes. *)
Lemma doBlock_unfold (g : Globals) (block : Block) :
  well_formed block = true →
  doBlock xed_decode opts g block
  = '(g, flow) ← fill_loop opts (start block) (end_ block - start block)
                   (insns block) (entered g block)
                   ([] ++ replicate (Z.to_nat (end_ block - start block + 20)) x00)
                   (Z.of_nat (length (@nil byte)));
    match flow with
    | Continue buf => check_loop xed_decode opts (start block) (insns block) g buf
    | EndBlock => Done g
    end.
Proof.
  intros Hwf. apply well_formed_spec in Hwf as (H1 & H2 & H3 & H4 & _).
  unfold doBlock, size. rewrite wrap64_small by lia.
  rewrite to_long_exact by lia.
  destruct (Z.ltb_spec (end_ block - start block + 20) 0); [lia|]. done.
Qed.

Lemma length_block_image (block : Block) :
  claimed_length (insns block) ≤ end_ block - start block →
  Z.of_nat (length (block_image block)) = end_ block - start block + 20.
Proof.
  unfold block_image, claimed_length. intros H.
  rewrite length_app, length_replicate. lia.
Qed.

(** The two ways a well-formed block gets through [doBlock]. *)
Lemma doBlock_cases (g : Globals) (block : Block) :
  well_formed block = true →
  ∃ g', doBlock xed_decode opts g block = Done g'
    ∧ ((contiguous (start block) (insns block) = true
        ∧ claimed_length (insns block) ≤ end_ block - start block
        ∧ (lstats g' = lstats g ∨ lstats g' = inc_bad_length (lstats g))
        ∧ (lengths_match xed_decode (block_image block) 0 (insns block) = true →
           lstats g' = lstats g ∧ out g' = out g))
       ∨ (∃ pre addr insn post,
            insns block = pre ++ (addr, insn) :: post
            ∧ contiguous (start block) pre = true
            ∧ claimed_length pre ≤ end_ block - start block
            ∧ ((addr ≠ start block + claimed_length pre
                ∧ lstats g' = inc_block_align_errors (lstats g))
               ∨ (addr = start block + claimed_length pre
                  ∧ end_ block - start block
                    < claimed_length pre + Z.of_nat (insn_size insn)
                  ∧ lstats g' = inc_block_length_errors (lstats g))))).
Proof.
  intros Hwf. rewrite doBlock_unfold by done.
  apply well_formed_spec in Hwf as (H1 & H2 & H3 & H4 & Hint).
  destruct (fill_loop_total opts (start block) (end_ block - start block)
              ltac:(lia) ltac:(lia) ltac:(lia)
              (insns block) (entered g block) []
              (Z.to_nat (end_ block - start block + 20)))
    as (g1 & flow & -> & Hflow); [simpl; lia|done|simpl; lia|].
  simpl in Hflow. rewrite Z.add_0_r in Hflow. simpl.
  destruct flow as [buf|].
  - destruct Hflow as (-> & Hc & Hfit & ->).
    fold (block_image block).
    destruct (check_loop_total xed_decode opts (start block)
                (end_ block - start block) ltac:(lia) ltac:(lia) ltac:(lia)
                (insns block) (entered g block) (block_image block) 0)
      as (g' & Hrun & Hclean).
    { by apply length_block_image. }
    { by rewrite Z.add_0_r. }
    { lia. }
    exists g'. split; [done|]. left.
    split; [done|]. split; [done|]. split.
    + by apply check_loop_lstats in Hrun.
    + intros Hm. by rewrite (Hclean Hm).
  - exists g1. split; [done|]. right.
    destruct Hflow as (pre & addr & insn & post & Hi & Hc & Hfit & Hcase).
    exists pre, addr, insn, post.
    rewrite ?Z.add_0_r in Hcase. done.
Qed.

(** An instruction that is reached, sits where it should and ends behind
    the block end is recorded as a length error. *)
Lemma doBlock_too_long (g : Globals) (block : Block)
    (pre post : list (Z * Instruction)) (addr : Z) (insn : Instruction) :
  well_formed block = true →
  insns block = pre ++ (addr, insn) :: post →
  contiguous (start block) (pre ++ [(addr, insn)]) = true →
  claimed_length pre ≤ end_ block - start block →
  end_ block - start block < claimed_length pre + Z.of_nat (insn_size insn) →
  ∃ g', doBlock xed_decode opts g block = Done g'
        ∧ lstats g' = inc_block_length_errors (lstats g).
Proof.
  intros Hwf Hi Hc Hfit Hlong. rewrite doBlock_unfold by done.
  apply well_formed_spec in Hwf as (H1 & H2 & H3 & H4 & Hint).
  rewrite Hi in *. rewrite forallb_app in Hint.
  apply andb_true_iff in Hint as [Hint Hx]. simpl in Hx.
  apply andb_true_iff in Hx as [Hx _]. apply Z.leb_le in Hx.
  rewrite contiguous_app in Hc. apply andb_true_iff in Hc as [Hc Ha].
  simpl in Ha. rewrite andb_true_r in Ha. apply Z.eqb_eq in Ha.
  pose proof (claimed_length_nonneg pre) as Hnn.
  rewrite fill_loop_prefix; [|lia|lia|lia|by rewrite Z.add_0_r|simpl; lia|done|simpl; lia].
  simpl length. rewrite Z.add_0_l. cbn [fill_loop].
  rewrite (wrap64_small (start block + claimed_length pre)) by lia.
  destruct (Z.eqb_spec (start block + claimed_length pre) addr); [|lia].
  cbn [negb].
  rewrite (wrap64_small (end_ block - start block)),
    (wrap64_small (claimed_length pre + Z.of_nat (insn_size insn)))
    by (unfold INT_MAX in Hx; lia).
  destruct (Z.ltb_spec (end_ block - start block)
              (claimed_length pre + Z.of_nat (insn_size insn))); [|lia].
  simpl. eexists. split; [done|]. simpl. by destruct (quiet opts).
Qed.

End WholeBlock.

(** ** Claims about the block cross-validator *)

(** C4.  A block that [doBlock] gets through moves the three discrepancy
    counters (bad length, align error, length error) by nothing or moves
    exactly one of them by one, and it prints at most one event, none when
    no counter moves.  The fill loop leaves the block at its first
    discrepancy and the check loop at its first bad length: what follows the
    break point has no influence on the result.  [doBlock] returns on every
    well-formed block, and on a clean block (claimed instructions
    contiguous, within the block, length-matched by the decoder) it records
    none of the three and prints nothing. *)
Theorem doBlock_one_discrepancy
    (xed_decode : list byte → option nat) (opts : Options) :
  (∀ g block g',
     doBlock xed_decode opts g block = Done g' →
     (length_delta g g' = (0, 0, 0) ∨ length_delta g g' = (1, 0, 0)
      ∨ length_delta g g' = (0, 1, 0) ∨ length_delta g g' = (0, 0, 1))
     ∧ ∃ evs, out g' = out g ++ evs ∧ (length evs ≤ 1)%nat
              ∧ (length_delta g g' = (0, 0, 0) → evs = []))
  ∧ (∀ block_start block_size pre post g g' buf pos,
       fill_loop opts block_start block_size pre g buf pos = Done (g', EndBlock) →
       fill_loop opts block_start block_size (pre ++ post) g buf pos
       = Done (g', EndBlock))
  ∧ (∀ block_start pre post g g' buf,
       check_loop xed_decode opts block_start pre g buf = Done g' →
       lstats g' ≠ lstats g →
       check_loop xed_decode opts block_start (pre ++ post) g buf = Done g')
  ∧ (∀ g block,
       well_formed block = true →
       ∃ g', doBlock xed_decode opts g block = Done g')
  ∧ (∀ g block,
       clean xed_decode block = true →
       ∃ g', doBlock xed_decode opts g block = Done g'
             ∧ length_delta g g' = (0, 0, 0) ∧ out g' = out g).
Proof.
  split; [intros; split; [by eapply doBlock_length_delta|by eapply doBlock_out]|].
  split; [intros; by apply fill_loop_stops|].
  split; [intros; by apply check_loop_stops|].
  split.
  - intros g block Hwf.
    destruct (doBlock_cases xed_decode opts g block Hwf) as (g' & Hrun & _).
    by exists g'.
  - intros g block Hclean. unfold clean in Hclean.
    rewrite !andb_true_iff in Hclean.
    destruct Hclean as (((Hwf & Hc) & Hfit) & Hm). apply Z.leb_le in Hfit.
    destruct (doBlock_cases xed_decode opts g block Hwf) as (g' & Hrun & Hcases).
    exists g'. split; [done|].
    destruct Hcases as [(_ & _ & _ & Hsame)|Hbreak].
    + destruct (Hsame Hm) as [Hl Ho]. split; [|done].
      unfold length_delta. rewrite Hl. repeat f_equal; lia.
    + exfalso.
      destruct Hbreak as (pre & addr & insn & post & Hi & _ & _ & Hcase).
      rewrite Hi, contiguous_app in Hc. rewrite Hi, claimed_length_app in Hfit.
      apply andb_true_iff in Hc as [_ Hc]. simpl in Hc.
      apply andb_true_iff in Hc as [Ha _]. apply Z.eqb_eq in Ha.
      rewrite claimed_length_cons in Hfit.
      pose proof (claimed_length_nonneg post).
      destruct Hcase as [[Hne _]|(_ & Hlong & _)]; lia.
Qed.

Lemma doBlock_one_discrepancy_witness :
  let nop := {| isValid := true; insn_size := 1; raw := [x90] |} in
  let block := {| start := 0x1000; end_ := 0x1002;
                  insns := [(0x1000, nop); (0x1001, nop)] |} in
  ∃ g', doBlock nop_decoder default_options initial_globals block = Done g'
        ∧ length_delta initial_globals g' = (0, 0, 0) ∧ out g' = out initial_globals.
Proof.
  intros nop block.
  apply (doBlock_one_discrepancy nop_decoder default_options).
  reflexivity.
Defined.

(** C5 fails as stated: in the block [0x1000,0x1004) the single claimed
    instruction of 5 bytes is recorded as a length error, although copying
    its bytes at offset 0 stays inside the buffer of 4 + 20 bytes. *)
Lemma length_error_inside_buffer :
  let insn := {| isValid := true; insn_size := 5;
                 raw := [x90; x90; x90; x90; x90] |} in
  let block := {| start := 0x1000; end_ := 0x1004; insns := [(0x1000, insn)] |} in
  let buf := replicate (Z.to_nat (to_long (size block) + 20)) x00 in
  0 + Z.of_nat (insn_size insn) ≤ Z.of_nat (length buf)
  ∧ (∃ buf', copy_raw insn 0 0 (insn_size insn) buf = Done buf')
  ∧ ∃ g', doBlock nop_decoder default_options initial_globals block = Done g'
          ∧ length_delta initial_globals g' = (0, 0, 1).
Proof.
  intros insn block buf. split; [by vm_compute|].
  split; eexists; [|split]; vm_compute; reflexivity.
Qed.

(** C5, amended.  On a well-formed block [doBlock] runs its loops on a
    zeroed buffer of block length plus 20 bytes, and it records a length
    error exactly when some claimed instruction is reached (it and all
    claimed instructions before it are contiguous from the block start, and
    those before it end within the block) and ends behind the end of the
    block: the bound is the block length, 20 bytes less than the buffer. *)
Theorem length_error_iff_beyond_block
    (xed_decode : list byte → option nat) (opts : Options)
    (g : Globals) (block : Block) :
  well_formed block = true →
  doBlock xed_decode opts g block
  = ('(g, flow) ← fill_loop opts (start block) (end_ block - start block)
                    (insns block) (entered g block)
                    ([] ++ replicate (Z.to_nat (end_ block - start block + 20)) x00)
                    (Z.of_nat (length (@nil byte)));
     match flow with
     | Continue buf => check_loop xed_decode opts (start block) (insns block) g buf
     | EndBlock => Done g
     end)
  ∧ ∃ g', doBlock xed_decode opts g block = Done g'
      ∧ (length_delta g g' = (0, 0, 1)
         ↔ ∃ pre addr insn post,
             insns block = pre ++ (addr, insn) :: post
             ∧ contiguous (start block) (pre ++ [(addr, insn)]) = true
             ∧ claimed_length pre ≤ end_ block - start block
             ∧ end_ block - start block
               < claimed_length pre + Z.of_nat (insn_size insn)).
Proof.
  intros Hwf. split; [by apply doBlock_unfold|].
  destruct (doBlock_cases xed_decode opts g block Hwf) as (g' & Hrun & Hcases).
  exists g'. split; [done|]. split.
  - intros Hd. unfold length_delta in Hd.
    destruct Hcases as [(_ & _ & [Hl|Hl] & _)|Hbreak].
    + rewrite Hl in Hd. injection Hd as _ _ Hd. lia.
    + rewrite Hl in Hd. simpl in Hd. injection Hd as _ _ Hd. lia.
    + destruct Hbreak as (pre & addr & insn & post & Hi & Hc & Hfit & Hcase).
      destruct Hcase as [[_ Hl]|(Ha & Hlong & _)].
      * rewrite Hl in Hd. simpl in Hd. injection Hd as _ _ Hd. lia.
      * exists pre, addr, insn, post. split; [done|].
        rewrite contiguous_app, Hc. simpl.
        split; [|done]. rewrite andb_true_r. by apply Z.eqb_eq.
  - intros (pre & addr & insn & post & Hi & Hc & Hfit & Hlong).
    destruct (doBlock_too_long xed_decode opts g block pre post addr insn
                Hwf Hi Hc Hfit Hlong) as (g2 & Hrun2 & Hl).
    rewrite Hrun in Hrun2. injection Hrun2 as <-.
    unfold length_delta. rewrite Hl. simpl. repeat f_equal; lia.
Qed.

Lemma length_error_iff_beyond_block_witness :
  let insn := {| isValid := true; insn_size := 5;
                 raw := [x90; x90; x90; x90; x90] |} in
  let block := {| start := 0x1000; end_ := 0x1004; insns := [(0x1000, insn)] |} in
  ∃ g', doBlock nop_decoder default_options initial_globals block = Done g'
      ∧ (length_delta initial_globals g' = (0, 0, 1)
         ↔ ∃ pre addr insn post,
             insns block = pre ++ (addr, insn) :: post
             ∧ contiguous (start block) (pre ++ [(addr, insn)]) = true
             ∧ claimed_length pre ≤ end_ block - start block
             ∧ end_ block - start block
               < claimed_length pre + Z.of_nat (insn_size insn)).
Proof.
  intros insn block.
  apply (length_error_iff_beyond_block nop_decoder default_options
           initial_globals block).
  reflexivity.
Defined.

End UnknownX86Facts.

(** * Properties of cfg-parse *)

Module CfgParseFacts.

Import CfgParse.

(** ** Canonical ordering *)

Section Ordering.

Context (std_sort : ∀ A : Type, (A → A → bool) → list A → list A).
Context (Hsort : sort_contract std_sort).
Context (opts : Options).
Context (getContainingModule : Z → option (Z → list Statement)).
Context (getContainingInlinedFunction : Z → option FunctionBase).

Lemma std_sort_ordered_by {A : Type} (key : A → Z) (l : list A) :
  ordered_by key (std_sort A (λ a b, key a <? key b) l).
Proof using Hsort.
  intros i j x y Hi Hj Hne. by eapply std_sort_before_iff.
Qed.

Lemma func_addrs_doInstruction (addr : Z) (instn : Instruction) :
  func_addrs (doInstruction opts getContainingModule getContainingInlinedFunction
                addr instn) = []
  ∧ block_starts (doInstruction opts getContainingModule
                    getContainingInlinedFunction addr instn) = [].
Proof.
  unfold doInstruction, func_addrs, block_starts. simpl.
  destruct (show_inline opts); [|done].
  destruct (getContainingInlinedFunction addr) as [func|]; [|done].
  by induction (inline_walk func []).
Qed.

Lemma lines_doBlock (block : Block) :
  func_addrs (doBlock std_sort opts getContainingModule
                getContainingInlinedFunction block) = []
  ∧ block_starts (doBlock std_sort opts getContainingModule
                    getContainingInlinedFunction block)
    = if show_blocks opts then [start block] else [].
Proof.
  unfold doBlock.
  assert (∀ imap : list (Z * Instruction),
            func_addrs (concat (map (λ iit, doInstruction opts getContainingModule
                                      getContainingInlinedFunction iit.1 iit.2) imap)) = []
            ∧ block_starts (concat (map (λ iit, doInstruction opts getContainingModule
                                          getContainingInlinedFunction iit.1 iit.2) imap)) = [])
    as Hstmts.
  { intros imap. induction imap as [|[a i] imap [IH1 IH2]]; [done|].
    rewrite map_cons, concat_cons. unfold func_addrs, block_starts in *.
    rewrite !omap_app, IH1, IH2.
    destruct (func_addrs_doInstruction a i) as [H1 H2].
    unfold func_addrs, block_starts in H1, H2. simpl in *. by rewrite H1, H2. }
  destruct (Hstmts (insns block)) as [H1 H2].
  unfold func_addrs, block_starts in *.
  rewrite !omap_app.
  destruct (show_blocks opts), (show_stmts opts); simpl; by rewrite ?H1, ?H2.
Qed.

Lemma lines_doBlocks (blockVec : list Block) :
  func_addrs (concat (map (doBlock std_sort opts getContainingModule
                             getContainingInlinedFunction) blockVec)) = []
  ∧ block_starts (concat (map (doBlock std_sort opts getContainingModule
                                 getContainingInlinedFunction) blockVec))
    = if show_blocks opts then map start blockVec else [].
Proof.
  induction blockVec as [|b blockVec [IH1 IH2]].
  - by destruct (show_blocks opts).
  - rewrite map_cons, concat_cons. destruct (lines_doBlock b) as [H1 H2].
    unfold func_addrs, block_starts in *.
    rewrite !omap_app, H1, H2, IH1, IH2. by destruct (show_blocks opts).
Qed.

Lemma lines_doFunction (func : Function) :
  func_addrs (doFunction std_sort opts getContainingModule
                getContainingInlinedFunction func) = [addr func]
  ∧ block_starts (doFunction std_sort opts getContainingModule
                    getContainingInlinedFunction func)
    = if show_blocks opts
      then map start (std_sort Block BlockLessThan (blocks func)) else [].
Proof.
  unfold doFunction.
  destruct (lines_doBlocks (std_sort Block BlockLessThan (blocks func))) as [H1 H2].
  unfold func_addrs, block_starts in *.
  rewrite !omap_app, H1, H2.
  by destruct (show_stmts opts && negb (show_blocks opts)).
Qed.

Lemma func_addrs_dump (funcList : list Function) :
  func_addrs (dump std_sort opts getContainingModule
                getContainingInlinedFunction funcList)
  = map addr (std_sort Function FuncLessThan funcList).
Proof.
  unfold dump. unfold func_addrs at 1. rewrite omap_app. simpl.
  rewrite app_nil_r.
  induction (std_sort Function FuncLessThan funcList) as [|f funcVec IH]; [done|].
  rewrite map_cons, concat_cons. rewrite omap_app, IH.
  destruct (lines_doFunction f) as [H1 _]. unfold func_addrs in H1.
  by rewrite H1.
Qed.

Lemma edge_targets_doBlock (block : Block) :
  show_blocks opts = true →
  edge_targets (doBlock std_sort opts getContainingModule
                  getContainingInlinedFunction block)
  = [map trg_start (std_sort Edge EdgeLessThan (targets block))].
Proof.
  intros Hshow. unfold doBlock, edge_targets. rewrite Hshow, !omap_app. simpl.
  assert (omap (λ o, match o with
                     | OutEdges _ edges => Some (map et_target edges)
                     | _ => None
                     end)
            (if show_stmts opts
             then concat (map (λ iit, doInstruction opts getContainingModule
                                 getContainingInlinedFunction iit.1 iit.2)
                            (insns block))
             else []) = []) as ->.
  { destruct (show_stmts opts); [|done].
    induction (insns block) as [|[a i] imap IH]; [done|].
    rewrite map_cons, concat_cons. rewrite omap_app, IH, app_nil_r.
    unfold doInstruction. simpl.
    destruct (show_inline opts); [|done].
    destruct (getContainingInlinedFunction a) as [func|]; [|done].
    by induction (inline_walk func []). }
  simpl. by rewrite map_map.
Qed.

End Ordering.

(** The contract alone does not keep ties in order: a sort that meets it
    may swap two functions with the same entry address. *)
Lemma sort_contract_leaves_ties_open :
  let f1 := {| addr := 0x1000; name := "first"; retstatus := RETURN; blocks := [] |} in
  let f2 := {| addr := 0x1000; name := "second"; retstatus := RETURN; blocks := [] |} in
  sort_contract sort_ties_reversed
  ∧ dump sort_ties_reversed default_options (λ _, None) (λ _, None) [f1; f2]
    = [ OutFunc 0x1000 (Some (0%nat, 0, false)) "second";
        OutFunc 0x1000 (Some (0%nat, 0, false)) "first";
        OutNumFuncs 2 ].
Proof. intros f1 f2. split; [apply sort_ties_reversed_contract|reflexivity]. Qed.

(** C7 fails as stated: with the [std::sort] of libstdc++ ties are not
    kept in order.  The code object lists seventeen functions by ascending
    entry address, the first two at the same address: the sort stays
    within the vector and the dump shows the second function before the
    first.  (The median of
    three moves the element in the middle to the front and the first
    element into the middle, from where the final insertion sort moves it
    down no further than behind its equal.) *)
Lemma canonical_order_ties_not_stable :
  let func (an : Z * string) :=
    {| addr := an.1; name := an.2; retstatus := RETURN; blocks := [] |} in
  let line (an : Z * string) := OutFunc an.1 (Some (0%nat, 0, false)) an.2 in
  let rest :=
    [ (0x1010, "f02"); (0x1020, "f03"); (0x1030, "f04"); (0x1040, "f05");
      (0x1050, "f06"); (0x1060, "f07"); (0x1070, "f08"); (0x1080, "f09");
      (0x1090, "f10"); (0x10a0, "f11"); (0x10b0, "f12"); (0x10c0, "f13");
      (0x10d0, "f14"); (0x10e0, "f15"); (0x10f0, "f16") ]%string in
  let funcList :=
    map func ((0x1000, "first"%string) :: (0x1000, "second"%string) :: rest) in
  Libstdcxx.__sort FuncLessThan funcList
  = Some (map func ((0x1000, "second"%string) :: (0x1000, "first"%string) :: rest))
  ∧ dump Libstdcxx.sort default_options (λ _, None) (λ _, None) funcList
    = map line ((0x1000, "second"%string) :: (0x1000, "first"%string) :: rest)
      ++ [OutNumFuncs 17].
Proof. vm_compute. split; reflexivity. Qed.

(** C7, amended.  The canonical order is keyed on the address alone:
    functions by entry address, the blocks of a function by start address,
    the out edges of a block by the start address of the target.  Each
    sorted vector is a permutation of what the engine handed out, and for
    two elements with different keys the one with the smaller address comes
    first, in the vector and in the dump.  Nothing is said about the order
    of elements with equal keys. *)
Theorem canonical_order_by_address
    (std_sort : ∀ A : Type, (A → A → bool) → list A → list A)
    (opts : Options)
    (getContainingModule : Z → option (Z → list Statement))
    (getContainingInlinedFunction : Z → option FunctionBase) :
  sort_contract std_sort →
  (∀ funcList,
     let funcVec := std_sort Function FuncLessThan funcList in
     funcList ≡ₚ funcVec
     ∧ ordered_by addr funcVec
     ∧ func_addrs (dump std_sort opts getContainingModule
                     getContainingInlinedFunction funcList)
       = map addr funcVec)
  ∧ (∀ func,
       let blockVec := std_sort Block BlockLessThan (blocks func) in
       blocks func ≡ₚ blockVec
       ∧ ordered_by start blockVec
       ∧ block_starts (doFunction std_sort opts getContainingModule
                         getContainingInlinedFunction func)
         = if show_blocks opts then map start blockVec else [])
  ∧ (∀ block,
       let edgeVec := std_sort Edge EdgeLessThan (targets block) in
       targets block ≡ₚ edgeVec
       ∧ ordered_by trg_start edgeVec
       ∧ (show_blocks opts = true →
          edge_targets (doBlock std_sort opts getContainingModule
                          getContainingInlinedFunction block)
          = [map trg_start edgeVec])).
Proof.
  intros Hsort. split; [|split].
  - intros funcList funcVec. split; [apply (std_sort_perm std_sort Hsort addr)|].
    split; [apply (std_sort_ordered_by std_sort Hsort addr)|].
    apply func_addrs_dump.
  - intros func blockVec. split; [apply (std_sort_perm std_sort Hsort start)|].
    split; [apply (std_sort_ordered_by std_sort Hsort start)|].
    apply lines_doFunction.
  - intros block edgeVec. split; [apply (std_sort_perm std_sort Hsort trg_start)|].
    split; [apply (std_sort_ordered_by std_sort Hsort trg_start)|].
    apply edge_targets_doBlock.
Qed.

Lemma canonical_order_by_address_witness :
  let f1 := {| addr := 0x2000; name := "high"; retstatus := RETURN; blocks := [] |} in
  let f2 := {| addr := 0x1000; name := "low"; retstatus := RETURN; blocks := [] |} in
  func_addrs (dump sort_ties_kept default_options (λ _, None) (λ _, None) [f1; f2])
  = map addr (sort_ties_kept Function FuncLessThan [f1; f2])
  ∧ map addr (sort_ties_kept Function FuncLessThan [f1; f2]) = [0x1000; 0x2000].
Proof.
  intros f1 f2. split; [|reflexivity].
  apply (canonical_order_by_address sort_ties_kept default_options
           (λ _, None) (λ _, None) sort_ties_kept_contract).
Defined.

(** ** Inline sequences *)

Lemma inline_walk_rev (func : FunctionBase) (inlineSeqn : list InlineNode) :
  inline_walk func inlineSeqn = rev (inline_chain func) ++ inlineSeqn.
Proof.
  revert inlineSeqn. induction func as [name|name callsite parent IH]; intros acc.
  - done.
  - simpl. rewrite IH, <- app_assoc. done.
Qed.

(** C8.  When inline sequences are shown and the engine knows an inlined
    function for the address, [doInstruction] writes the statement line
    and then the inline frames in the reverse of the order in which the
    engine exposes them (innermost first), that is outermost first.  For
    a function O into which I1 is inlined, into which I0 is inlined, the
    frames come out in call order: the call of I1 in O, then the call of I0
    in I1. *)
Theorem inline_frames_outermost_first
    (opts : Options)
    (getContainingModule : Z → option (Z → list Statement))
    (getContainingInlinedFunction : Z → option FunctionBase) :
  (∀ addr instn func,
     show_inline opts = true →
     getContainingInlinedFunction addr = Some func →
     ∃ stmt,
       doInstruction opts getContainingModule getContainingInlinedFunction addr instn
       = stmt :: map (λ nit, OutInline (line nit) (filenm nit) (procnm nit))
                   (rev (inline_chain func)))
  ∧ (let O := TopFunction "O" in
     let I1 := InlinedFunction "I1" ("o.c"%string, 10) O in
     let I0 := InlinedFunction "I0" ("i1.h"%string, 20) I1 in
     map procnm (inline_chain I0) = ["I0"; "I1"]%string
     ∧ inline_walk I0 []
       = [ {| filenm := "o.c"; procnm := "I1"; line := 10 |};
           {| filenm := "i1.h"; procnm := "I0"; line := 20 |} ]).
Proof.
  split; [|done].
  intros addr instn func Hshow Hfunc. unfold doInstruction.
  rewrite Hshow, Hfunc, inline_walk_rev, app_nil_r. by eexists.
Qed.

Lemma inline_frames_outermost_first_witness :
  let O := TopFunction "O" in
  let I1 := InlinedFunction "I1" ("o.c"%string, 10) O in
  let I0 := InlinedFunction "I0" ("i1.h"%string, 20) I1 in
  ∃ stmt,
    doInstruction default_options (λ _, None) (λ _, Some I0) 0x1000
      {| insn_size := 4 |}
    = stmt :: map (λ nit, OutInline (line nit) (filenm nit) (procnm nit))
                (rev (inline_chain I0)).
Proof.
  intros O I1 I0.
  apply (inline_frames_outermost_first default_options (λ _, None) (λ _, Some I0));
    reflexivity.
Defined.

(** ** Options *)

(** C10.  Options are taken from left to right, each acting on the flags
    the earlier ones left.  "+S" sets [show_stmts], [show_inline] and
    [show_linemap], "-S" clears the three; "+I" sets [show_inline] and
    [show_stmts] and leaves [show_linemap], "+L" sets [show_linemap] and
    [show_stmts] and leaves [show_inline]; "-I" and "-L" clear their own
    flag only.  So "+S" after "-I" and "-L" shows inline sequences and
    line map again, and "+I" after "-S" shows statements and inline
    sequences but no line map. *)
Theorem show_options_left_to_right
    (atoi : string → Z) (readable : string → bool) :
  (∀ rest o, ∃ o',
     getOptions_loop atoi ("+S"%string :: rest) o = getOptions_loop atoi rest o'
     ∧ show_stmts o' = true ∧ show_inline o' = true ∧ show_linemap o' = true
     ∧ show_blocks o' = show_blocks o)
  ∧ (∀ rest o, ∃ o',
       getOptions_loop atoi ("-S"%string :: rest) o = getOptions_loop atoi rest o'
       ∧ show_stmts o' = false ∧ show_inline o' = false ∧ show_linemap o' = false
       ∧ show_blocks o' = show_blocks o)
  ∧ (∀ rest o, ∃ o',
       getOptions_loop atoi ("+I"%string :: rest) o = getOptions_loop atoi rest o'
       ∧ show_inline o' = true ∧ show_stmts o' = true
       ∧ show_linemap o' = show_linemap o ∧ show_blocks o' = show_blocks o)
  ∧ (∀ rest o, ∃ o',
       getOptions_loop atoi ("+L"%string :: rest) o = getOptions_loop atoi rest o'
       ∧ show_linemap o' = true ∧ show_stmts o' = true
       ∧ show_inline o' = show_inline o ∧ show_blocks o' = show_blocks o)
  ∧ (∀ rest o, ∃ o',
       getOptions_loop atoi ("-I"%string :: rest) o = getOptions_loop atoi rest o'
       ∧ show_inline o' = false ∧ show_stmts o' = show_stmts o
       ∧ show_linemap o' = show_linemap o ∧ show_blocks o' = show_blocks o)
  ∧ (∀ rest o, ∃ o',
       getOptions_loop atoi ("-L"%string :: rest) o = getOptions_loop atoi rest o'
       ∧ show_linemap o' = false ∧ show_stmts o' = show_stmts o
       ∧ show_inline o' = show_inline o ∧ show_blocks o' = show_blocks o)
  ∧ (∀ o, readable "a.out"%string = true →
       ∃ o', getOptions atoi readable
               ["cfg-parse"; "-I"; "-L"; "+S"; "a.out"]%string o = Done o'
             ∧ show_stmts o' = true ∧ show_inline o' = true
             ∧ show_linemap o' = true)
  ∧ (∀ o, readable "a.out"%string = true →
       ∃ o', getOptions atoi readable
               ["cfg-parse"; "-S"; "+I"; "a.out"]%string o = Done o'
             ∧ show_stmts o' = true ∧ show_inline o' = true
             ∧ show_linemap o' = false).
Proof.
  repeat split; try (intros rest o; eexists; split; [reflexivity|done]).
  - intros o Hr. unfold getOptions. simpl. rewrite Hr. by eexists.
  - intros o Hr. unfold getOptions. simpl. rewrite Hr. by eexists.
Qed.

Lemma show_options_left_to_right_witness :
  ∃ o', getOptions (λ _, 0) (λ _, true)
          ["cfg-parse"; "-I"; "-L"; "+S"; "a.out"]%string default_options = Done o'
        ∧ show_stmts o' = true ∧ show_inline o' = true ∧ show_linemap o' = true.
Proof.
  apply (show_options_left_to_right (λ _, 0) (λ _, true)). reflexivity.
Defined.

End CfgParseFacts.

(** * Sorting elements with distinct keys *)

Section SortUnique.

Context {A : Type} (key : A → Z).

Lemma NoDup_key_inj (l : list A) (x y : A) :
  NoDup (map key l) → x ∈ l → y ∈ l → key x = key y → x = y.
Proof.
  induction l as [|z l IH]; intros Hnd Hx Hy Hk; [by inv Hx|].
  simpl in Hnd. apply NoDup_cons in Hnd as [Hz Hnd].
  inv Hx; inv Hy; [done| | |by apply IH].
  - exfalso. apply Hz. rewrite Hk. by apply list_elem_of_fmap_2.
  - exfalso. apply Hz. rewrite <- Hk. by apply list_elem_of_fmap_2.
Qed.

Lemma sorted_perm_unique (l1 l2 : list A) :
  NoDup (map key l1) → l1 ≡ₚ l2 →
  StronglySorted (not_after (λ a b, key a <? key b)) l1 →
  StronglySorted (not_after (λ a b, key a <? key b)) l2 →
  l1 = l2.
Proof.
  intros Hnd Hperm Hs1 Hs2.
  apply (StronglySorted_unique_strong (not_after (λ a b, key a <? key b)));
    [|done..].
  intros x1 x2 Hx1 Hx2 H12 H21. unfold not_after in H12, H21.
  apply Z.ltb_ge in H12, H21.
  apply (NoDup_key_inj l1); [done|done| |lia].
  by rewrite Hperm.
Qed.

Lemma std_sort_unique_inj
    (sort1 sort2 : ∀ A : Type, (A → A → bool) → list A → list A)
    (l1 l2 : list A) :
  sort_contract sort1 → sort_contract sort2 →
  (∀ x y, x ∈ l1 → y ∈ l1 → key x = key y → x = y) → l1 ≡ₚ l2 →
  sort1 A (λ a b, key a <? key b) l1 = sort2 A (λ a b, key a <? key b) l2.
Proof.
  intros H1 H2 Hinj Hperm.
  destruct (H1 A _ (key_lt_swo key) l1) as [Hp1 Hs1].
  destruct (H2 A _ (key_lt_swo key) l2) as [Hp2 Hs2].
  apply (StronglySorted_unique_strong (not_after (λ a b, key a <? key b)));
    [|done|done|by rewrite <- Hp1, <- Hp2].
  intros x1 x2 Hx1 Hx2 H12 H21. unfold not_after in H12, H21.
  apply Z.ltb_ge in H12, H21.
  apply Hinj; [by rewrite Hp1|by rewrite Hperm, Hp2|lia].
Qed.

(** Two sorts that meet the contract give the same sequence on two
    arrangements of elements with distinct keys. *)
Lemma std_sort_unique
    (sort1 sort2 : ∀ A : Type, (A → A → bool) → list A → list A)
    (l1 l2 : list A) :
  sort_contract sort1 → sort_contract sort2 →
  NoDup (map key l1) → l1 ≡ₚ l2 →
  sort1 A (λ a b, key a <? key b) l1 = sort2 A (λ a b, key a <? key b) l2.
Proof.
  intros H1 H2 Hnd Hperm.
  destruct (H1 A _ (key_lt_swo key) l1) as [Hp1 Hs1].
  destruct (H2 A _ (key_lt_swo key) l2) as [Hp2 Hs2].
  apply sorted_perm_unique; [|by rewrite <- Hp1, <- Hp2|done..].
  by rewrite <- Hp1.
Qed.

End SortUnique.

(** * Further properties of unknown-x86 *)

Module UnknownX86More.

Import UnknownX86 UnknownX86Facts.

(** ** Command line *)

Lemma getOptions_loop_keeps (atoi : string → Z) (n : nat) (args rest : list string)
    (o o' : Options) :
  (length args ≤ n)%nat →
  getOptions_loop atoi args o = Done (o', rest) →
  (fix_troll o = true → fix_valid o = true) →
  1 ≤ jobs o ≤ 550 →
  (fix_troll o' = true → fix_valid o' = true)
  ∧ 1 ≤ jobs o' ≤ 550
  ∧ filename o' = filename o
  ∧ rest `suffix_of` args
  ∧ match rest with
    | name :: _ => first_char_is_dash name = false
    | [] => True
    end.
Proof.
  revert args o. induction n as [|n IH]; intros args o Hlen Hrun Hfix Hjobs.
  { destruct args; [|simpl in Hlen; lia]. by injection Hrun as <- <-. }
  destruct args as [|arg args]; [by injection Hrun as <- <-|].
  simpl in Hlen, Hrun.
  assert (∀ args1 o1, (length args1 ≤ n)%nat → args1 `suffix_of` args →
            getOptions_loop atoi args1 o1 = Done (o', rest) →
            (fix_troll o1 = true → fix_valid o1 = true) →
            1 ≤ jobs o1 ≤ 550 → filename o1 = filename o →
            (fix_troll o' = true → fix_valid o' = true)
            ∧ 1 ≤ jobs o' ≤ 550
            ∧ filename o' = filename o
            ∧ rest `suffix_of` arg :: args
            ∧ match rest with
              | name :: _ => first_char_is_dash name = false
              | [] => True
              end) as Hnext.
  { intros args1 o1 Hlen1 Hsuf Hrun1 Hfix1 Hjobs1 Hname1.
    destruct (IH args1 o1 Hlen1 Hrun1 Hfix1 Hjobs1) as (H1 & H2 & H3 & H4 & H5).
    split; [done|]. split; [done|]. split; [congruence|]. split; [|done].
    apply suffix_cons_r. by etrans. }
  destruct (_ || _); [done|].
  destruct (String.eqb arg "-j").
  { destruct args as [|a args]; [done|].
    destruct (_ || _) eqn:Hrange; [done|].
    apply orb_false_iff in Hrange as [Hlo Hhi]. simpl in Hlo, Hhi.
    apply Z.leb_gt in Hlo. apply Z.ltb_ge in Hhi.
    eapply (Hnext args); [simpl in Hlen; lia|by apply suffix_cons_r|exact Hrun|..];
      simpl; [done|lia|done]. }
  destruct (String.eqb arg "-q");
    [eapply (Hnext args); [lia|done|exact Hrun|..]; by simpl|].
  destruct (String.eqb arg "-v");
    [eapply (Hnext args); [lia|done|exact Hrun|..]; by simpl|].
  destruct (_ || _);
    [eapply (Hnext args); [lia|done|exact Hrun|..]; by simpl|].
  destruct (_ || _);
    [eapply (Hnext args); [lia|done|exact Hrun|..]; by simpl|].
  destruct (_ || _);
    [eapply (Hnext args); [lia|done|exact Hrun|..]; by simpl|].
  destruct (first_char_is_dash arg) eqn:Hdash; [done|].
  injection Hrun as <- <-. done.
Qed.

(** X1.  When [getOptions] accepts a command line, trolled instructions
    are fixed only if unknown valid ones are too, the number of threads
    is between 1 and 550, and the file name is an argument of the command
    line that does not begin with a dash. *)
Theorem getOptions_accepts
    (atoi : string → Z) (argv : list string) (o : Options) :
  getOptions atoi argv default_options = Done o →
  (fix_troll o = true → fix_valid o = true)
  ∧ 1 ≤ jobs o ≤ 550
  ∧ ∃ name, filename o = Some name ∧ name ∈ drop 1 argv
            ∧ first_char_is_dash name = false.
Proof.
  unfold getOptions, mbind, Result_bind, rbind.
  destruct (getOptions_loop atoi (drop 1 argv) default_options)
    as [[o1 rest]| |] eqn:Hloop; [|done..].
  destruct rest as [|name rest]; [done|]. intros [= <-].
  destruct (getOptions_loop_keeps atoi _ _ _ _ _ (Nat.le_refl _) Hloop)
    as (H1 & H2 & _ & H4 & H5); [done|simpl; lia|].
  split; [done|]. split; [done|].
  exists name. split; [done|]. split; [|done].
  destruct H4 as [used ->]. apply elem_of_app. right. by left.
Qed.

Lemma getOptions_accepts_witness :
  ∃ o, getOptions (λ _, 8) ["unknown-x86"; "-j"; "8"; "--fix-all"; "-q"; "a.out"]%string
         default_options = Done o
       ∧ fix_valid o = true ∧ jobs o = 8 ∧ filename o = Some "a.out"%string.
Proof.
  eexists. split; [reflexivity|].
  destruct (getOptions_accepts (λ _, 8)
              ["unknown-x86"; "-j"; "8"; "--fix-all"; "-q"; "a.out"]%string _
              eq_refl) as (Hfix & _ & _).
  split; [by apply Hfix|]. done.
Defined.

Lemma getOptions_loop_app (atoi : string → Z) (n : nat)
    (args extra rest : list string) (name : string) (o o' : Options) :
  (length args ≤ n)%nat →
  getOptions_loop atoi args o = Done (o', name :: rest) →
  getOptions_loop atoi (args ++ extra) o = Done (o', name :: rest ++ extra).
Proof.
  revert args o. induction n as [|n IH]; intros args o Hlen Hrun.
  { destruct args; [done|simpl in Hlen; lia]. }
  destruct args as [|arg args]; [done|].
  simpl in Hlen. rewrite <- app_comm_cons. simpl in Hrun |- *.
  destruct (_ || _); [done|].
  destruct (String.eqb arg "-j").
  { destruct args as [|a args]; [done|]. rewrite <- app_comm_cons.
    destruct (_ || _); [done|]. apply IH; [simpl in Hlen; lia|done]. }
  destruct (String.eqb arg "-q"); [apply IH; [lia|done]|].
  destruct (String.eqb arg "-v"); [apply IH; [lia|done]|].
  destruct (_ || _); [apply IH; [lia|done]|].
  destruct (_ || _); [apply IH; [lia|done]|].
  destruct (_ || _); [apply IH; [lia|done]|].
  destruct (first_char_is_dash arg); [done|].
  by injection Hrun as <- <- <-.
Qed.

(** X26.  [getOptions] stops at the file name: a command line that is
    accepted is accepted with the same options whatever arguments follow
    it, so that options written after the file name are ignored. *)
Theorem getOptions_ignores_trailing
    (atoi : string → Z) (argv extra : list string) (o : Options) :
  getOptions atoi argv default_options = Done o →
  getOptions atoi (argv ++ extra) default_options = Done o.
Proof.
  unfold getOptions, mbind, Result_bind, rbind.
  destruct (getOptions_loop atoi (drop 1 argv) default_options)
    as [[o1 rest]| |] eqn:Hloop; [|done..].
  destruct rest as [|name rest]; [done|]. intros [= <-].
  destruct argv as [|prog args]; [done|].
  rewrite <- app_comm_cons. simpl drop in *. rewrite drop_0 in *.
  by rewrite (getOptions_loop_app atoi _ _ extra _ _ _ _ (Nat.le_refl _) Hloop).
Qed.

Lemma getOptions_ignores_trailing_witness :
  ∃ o, getOptions (λ _, 8) ["unknown-x86"; "-j"; "8"; "a.out"; "-q"; "--help"]%string
         default_options = Done o
       ∧ quiet o = false ∧ jobs o = 8.
Proof.
  eexists. split.
  { apply (getOptions_ignores_trailing (λ _, 8)
             ["unknown-x86"; "-j"; "8"; "a.out"]%string ["-q"; "--help"]%string).
    reflexivity. }
  split; reflexivity.
Defined.

(** ** The callback *)

Section CallbackMore.

Context (xed_decode : list byte → option nat).

(** The locals of the callback, the returned instruction apart, depend
    neither on the options nor on the bytes behind the buffer. *)
Lemma decode_window_flags (opts1 opts2 : Options) (seqn1 seqn2 buf : list byte) :
  let d1 := decode_window xed_decode opts1 seqn1 buf in
  let d2 := decode_window xed_decode opts2 seqn2 buf in
  xed_error d1 = xed_error d2 ∧ xed_len d1 = xed_len d2
  ∧ troll_start d1 = troll_start d2
  ∧ is_valid d1 = is_valid d2 ∧ is_troll d1 = is_troll d2.
Proof.
  unfold decode_window. destruct (xed_decode buf); [done|].
  by destruct (troll _ _ _ _) as [k [len|]].
Qed.

Lemma troll_found_inv (buf : list byte) (start iters k len : nat) :
  troll xed_decode buf start iters = (k, Some len) →
  (start ≤ k < start + iters)%nat
  ∧ xed_decode (drop k buf) = Some len
  ∧ ∀ j, (start ≤ j < k)%nat → xed_decode (drop j buf) = None.
Proof.
  revert start. induction iters as [|iters IH]; intros start Ht; [done|].
  simpl in Ht. destruct (xed_decode (drop start buf)) as [l|] eqn:Hs.
  - injection Ht as <- <-. split; [lia|]. split; [done|]. lia.
  - destruct (IH _ Ht) as (Hk & Hok & Hfail). split; [lia|]. split; [done|].
    intros j Hj. destruct (decide (j = start)) as [->|Hne]; [done|].
    apply Hfail. lia.
Qed.

Lemma silence_quiet_print (q : bool) (e : Event) (g : Globals) :
  silence (if q then g else print e g) = silence g.
Proof. by destruct q. Qed.

Lemma silence_eq_fields (g1 g2 : Globals) :
  silence g1 = silence g2 →
  bstats g1 = bstats g2 ∧ ustats g1 = ustats g2 ∧ lstats g1 = lstats g2
  ∧ gstats g1 = gstats g2 ∧ num_xed_errors g1 = num_xed_errors g2
  ∧ initial_parse g1 = initial_parse g2.
Proof. unfold silence. intros [= -> -> -> -> -> ->]. done. Qed.

Lemma silence_report_unknown (opts1 opts2 : Options) (buf : list byte)
    (d1 d2 : Decoded) (g1 g2 : Globals) :
  is_valid d1 = is_valid d2 → is_troll d1 = is_troll d2 →
  silence g1 = silence g2 →
  silence (report_unknown opts1 buf d1 g1) = silence (report_unknown opts2 buf d2 g2).
Proof.
  intros Hv Ht Hg.
  apply silence_eq_fields in Hg as (Hb & Hu & Hl & Hgs & Hx & Hi).
  unfold report_unknown. rewrite Hv, Ht, Hi.
  destruct (initial_parse g2 =? 0) eqn:Hparse; simpl.
  - rewrite Hi, Hparse. simpl. unfold silence. congruence.
  - destruct (quiet opts1), (quiet opts2), (is_valid d2), (is_troll d2); simpl;
      rewrite ?Hi, ?Hparse; simpl; unfold silence; simpl; congruence.
Qed.

(** The counters after an invocation depend neither on the options nor on
    what was printed before. *)
Lemma silence_myXedCallback (opts1 opts2 : Options) (g1 g2 : Globals)
    (seqn : list byte) :
  silence g1 = silence g2 →
  rmap (λ rg, silence rg.2) (myXedCallback xed_decode opts1 g1 seqn)
  = rmap (λ rg, silence rg.2) (myXedCallback xed_decode opts2 g2 seqn).
Proof.
  intros Hg. unfold myXedCallback, safety_valve, mbind, Result_bind, rbind.
  destruct (decode_window_flags opts1 opts2 seqn seqn (copy_seqn seqn []))
    as (He & _ & _ & Hv & Ht).
  simpl in He, Hv, Ht. rewrite He.
  pose proof (silence_eq_fields _ _ Hg) as (_ & _ & _ & _ & Hx & _).
  clear He.
  destruct (xed_error (decode_window xed_decode opts2 seqn (copy_seqn seqn [])));
    simpl.
  - rewrite Hx. destruct (20 <? _); simpl; [done|].
    f_equal. apply silence_report_unknown; [done..|].
    apply silence_eq_fields in Hg as (? & ? & ? & ? & ? & ?).
    unfold silence. simpl. congruence.
  - f_equal. apply silence_report_unknown; [done..|].
    apply silence_eq_fields in Hg as (? & ? & ? & ? & ? & ?).
    unfold silence. simpl. congruence.
Qed.

End CallbackMore.

(** X2.  The callback copies at most [MY_BUF_SIZE] bytes of the window
    into its buffer, and what it does to the globals (counters, output,
    exit) is the same for a window and for its first [MY_BUF_SIZE] bytes:
    later bytes are never looked at. *)
Theorem myXedCallback_window_bound
    (xed_decode : list byte → option nat) (opts : Options)
    (g : Globals) (seqn : list byte) :
  (length (copy_seqn seqn []) ≤ MY_BUF_SIZE)%nat
  ∧ rmap snd (myXedCallback xed_decode opts g seqn)
    = rmap snd (myXedCallback xed_decode opts g (take MY_BUF_SIZE seqn)).
Proof.
  split; [rewrite copy_seqn_take, length_take; lia|].
  unfold myXedCallback, safety_valve, mbind, Result_bind, rbind. rewrite !copy_seqn_take, take_take, Nat.min_id.
  destruct (decode_window_flags xed_decode opts opts seqn (take MY_BUF_SIZE seqn)
              (take MY_BUF_SIZE seqn)) as (He & Hl & Hs & Hv & Ht).
  simpl in He, Hl, Hs, Hv, Ht. rewrite He.
  assert (∀ g0, report_unknown opts (take MY_BUF_SIZE seqn)
                  (decode_window xed_decode opts seqn (take MY_BUF_SIZE seqn)) g0
                = report_unknown opts (take MY_BUF_SIZE seqn)
                    (decode_window xed_decode opts (take MY_BUF_SIZE seqn)
                       (take MY_BUF_SIZE seqn)) g0) as Hrep.
  { intros g0. unfold report_unknown. by rewrite Hl, Hs, Hv, Ht. }
  clear He.
  destruct (xed_error (decode_window xed_decode opts (take MY_BUF_SIZE seqn)
                         (take MY_BUF_SIZE seqn))); simpl.
  - destruct (20 <? _); simpl; [done|]. by rewrite Hrep.
  - by rewrite Hrep.
Qed.

(** X3.  The classification is sound: an outcome is valid only if the
    decoder accepts the buffer, it is troll with offset [k] only if the
    decoder rejects the buffer at every offset below [k], accepts it at
    [k], and [1 <= k < length]; the recorded length is the decoder's.
    Valid and troll exclude each other. *)
Theorem decode_window_sound
    (xed_decode : list byte → option nat) (opts : Options) (seqn buf : list byte) :
  let d := decode_window xed_decode opts seqn buf in
  (is_valid d = true → is_troll d = false ∧ xed_decode buf = Some (xed_len d))
  ∧ (is_troll d = true →
       is_valid d = false
       ∧ (1 ≤ troll_start d < length buf)%nat
       ∧ fails_before xed_decode buf (troll_start d) = true
       ∧ xed_decode (drop (troll_start d) buf) = Some (xed_len d)).
Proof.
  unfold decode_window. destruct (xed_decode buf) as [len|] eqn:H0; [done|].
  destruct (troll xed_decode buf 1 (length buf - 1)) as [k [len|]] eqn:Ht; [|done].
  simpl. split; [done|]. intros _.
  apply troll_found_inv in Ht as (Hk & Hok & Hfail).
  split; [done|]. split; [lia|]. split; [|done].
  apply fails_before_spec. intros j Hj.
  destruct j as [|j]; [by rewrite drop_0|]. apply Hfail. lia.
Qed.

Lemma decode_window_sound_witness :
  let buf := [x06; x07; x90] in
  let d := decode_window nop_decoder default_options buf buf in
  is_troll d = true
  ∧ fails_before nop_decoder buf (troll_start d) = true
  ∧ nop_decoder (drop (troll_start d) buf) = Some (xed_len d).
Proof.
  intros buf d.
  destruct (decode_window_sound nop_decoder default_options buf buf)
    as (_ & Htroll).
  destruct (Htroll eq_refl) as (_ & _ & Hfail & Hok). done.
Defined.

(** X4.  The instruction handed back to the engine is valid only as a
    filler that the options ask for: for a valid outcome under [fix_valid],
    with the decoded length, or for a troll outcome under [fix_troll], with
    the troll offset as length, which is at least 1 and below
    [MY_BUF_SIZE].  Without a fix option every invocation hands back the
    invalid instruction. *)
Theorem myXedCallback_filler
    (xed_decode : list byte → option nat) (opts : Options)
    (g g' : Globals) (seqn : list byte) (r : Instruction) :
  myXedCallback xed_decode opts g seqn = Done (r, g') →
  let d := decode_window xed_decode opts seqn (take MY_BUF_SIZE seqn) in
  (isValid r = true →
     (fix_valid opts = true ∧ is_valid d = true ∧ insn_size r = xed_len d)
     ∨ (fix_troll opts = true ∧ is_troll d = true
        ∧ insn_size r = troll_start d
        ∧ (1 ≤ insn_size r < MY_BUF_SIZE)%nat))
  ∧ (fix_valid opts = false → fix_troll opts = false → r = invalid_instruction).
Proof.
  unfold myXedCallback, mbind, Result_bind, rbind. rewrite copy_seqn_take.
  destruct (safety_valve _ _) as [g1| |]; [|done..].
  intros [= <- _].
  pose proof (decode_window_sound xed_decode opts seqn (take MY_BUF_SIZE seqn))
    as [_ Htroll].
  cbv zeta in Htroll. revert Htroll. unfold decode_window.
  destruct (xed_decode (take MY_BUF_SIZE seqn)) as [len|].
  - simpl. intros _. destruct (fix_valid opts); simpl; split; try done.
    intros _. by left.
  - destruct (troll _ _ _ _) as [k [len|]]; simpl; [|done].
    intros Htroll. destruct (Htroll eq_refl) as (_ & Hk & _).
    rewrite length_take in Hk.
    destruct (fix_troll opts); simpl; split; try done.
    intros _. right. repeat split; try done; lia.
Qed.

Lemma myXedCallback_filler_witness :
  let opts := set_fix_troll true (set_fix_valid true default_options) in
  ∃ r g', myXedCallback nop_decoder opts initial_globals [x06; x07; x90] = Done (r, g')
          ∧ isValid r = true ∧ insn_size r = 2%nat.
Proof.
  intros opts. eexists _, _. split; [reflexivity|]. split; [reflexivity|].
  destruct (myXedCallback_filler nop_decoder opts initial_globals _
              [x06; x07; x90] _ eq_refl) as [Hvalid _].
  destruct (Hvalid eq_refl) as [(_ & Hv & _)|(_ & _ & Hsize & _)]; [done|].
  exact Hsize.
Defined.

(** ** What each procedure leaves alone *)

Section FrameMore.

Context (xed_decode : list byte → option nat).
Context (std_sort : ∀ A : Type, (A → A → bool) → list A → list A).
Context (opts : Options).

Lemma fill_loop_frame (block_start block_size : Z) (imap : list (Z * Instruction))
    (g g' : Globals) (buf : list byte) (pos : Z) (flow : Flow (list byte)) :
  fill_loop opts block_start block_size imap g buf pos = Done (g', flow) →
  bstats g' = bstats g ∧ ustats g' = ustats g ∧ gstats g' = gstats g
  ∧ num_xed_errors g' = num_xed_errors g ∧ initial_parse g' = initial_parse g.
Proof.
  revert g buf pos. induction imap as [|[addr insn] imap IH]; intros g buf pos; simpl.
  - by intros [= <- _].
  - destruct (negb _).
    { intros [= <- _]. simpl. by destruct (quiet opts). }
    destruct (_ <? _).
    { intros [= <- _]. simpl. by destruct (quiet opts). }
    unfold mbind, Result_bind, rbind.
    destruct (if INT_MAX <? _ then _ else _); [|done..].
    apply IH.
Qed.

Lemma check_loop_frame (block_start : Z) (imap : list (Z * Instruction))
    (g g' : Globals) (buf : list byte) :
  check_loop xed_decode opts block_start imap g buf = Done g' →
  bstats g' = bstats g ∧ ustats g' = ustats g ∧ gstats g' = gstats g
  ∧ num_xed_errors g' = num_xed_errors g ∧ initial_parse g' = initial_parse g.
Proof.
  revert g. induction imap as [|[addr insn] imap IH]; intros g; simpl.
  - by intros [= <-].
  - unfold mbind, Result_bind, rbind.
    destruct (buf_window _ _ _); [|done..].
    destruct (_ || _); [|apply IH].
    intros [= <-]. simpl. by destruct (quiet opts).
Qed.

(** [doBlock] adds the block size and the number of instructions of the
    block to the totals, whatever it finds in the block, and touches
    neither the unknown-instruction counters nor the gap counters nor the
    state of the callback. *)
Lemma doBlock_frame (g g' : Globals) (block : Block) :
  doBlock xed_decode opts g block = Done g' →
  bstats g'
  = add_num_instns (Z.of_nat (length (insns block)))
      (add_num_bytes (to_long (size block)) (bstats g))
  ∧ ustats g' = ustats g ∧ gstats g' = gstats g
  ∧ num_xed_errors g' = num_xed_errors g ∧ initial_parse g' = initial_parse g.
Proof.
  unfold doBlock. destruct (_ <? 0); [done|].
  unfold mbind, Result_bind, rbind.
  destruct (fill_loop _ _ _ _ _ _ _) as [[g1 flow]| |] eqn:Hfill; [|done..].
  apply fill_loop_frame in Hfill as (Hb & Hu & Hg & Hx & Hi). simpl in *.
  destruct flow as [buf|].
  - intros Hc. apply check_loop_frame in Hc as (Hb' & Hu' & Hg' & Hx' & Hi').
    repeat split; congruence.
  - intros [= <-]. done.
Qed.

Lemma doBlocks_frame (g g' : Globals) (blockVec : list Block) :
  doBlocks xed_decode opts g blockVec = Done g' →
  num_blocks (bstats g') = num_blocks (bstats g)
  ∧ num_instns (bstats g') = num_instns (bstats g) + total_instns blockVec
  ∧ num_bytes (bstats g') = num_bytes (bstats g) + total_bytes blockVec
  ∧ ustats g' = ustats g ∧ gstats g' = gstats g
  ∧ num_xed_errors g' = num_xed_errors g ∧ initial_parse g' = initial_parse g.
Proof.
  revert g. induction blockVec as [|b blockVec IH]; intros g; simpl.
  - intros [= <-]. unfold total_instns, total_bytes. simpl.
    repeat split; lia.
  - unfold mbind, Result_bind, rbind.
    destruct (doBlock _ _ _ _) as [g1| |] eqn:Hb; [|done..].
    intros Hr. apply IH in Hr as (H1 & H2 & H3 & H4 & H5 & H6 & H7).
    apply doBlock_frame in Hb as (Hb & Hu & Hg & Hx & Hi).
    rewrite Hb in H1, H2, H3. simpl in H1, H2, H3.
    unfold total_instns, total_bytes in *. simpl.
    repeat split; try congruence; lia.
Qed.

Lemma gaps_loop_frame (g : Globals) (prev_block : Block) (rest : list Block) :
  let g' := gaps_loop opts g prev_block rest in
  bstats g' = bstats g ∧ ustats g' = ustats g ∧ lstats g' = lstats g
  ∧ num_xed_errors g' = num_xed_errors g ∧ initial_parse g' = initial_parse g.
Proof.
  revert g prev_block. induction rest as [|b rest IH]; intros g prev; [done|].
  simpl. destruct (IH (gap_pair opts g prev b) b) as (H1 & H2 & H3 & H4 & H5).
  rewrite H1, H2, H3, H4, H5. unfold gap_pair.
  destruct (0 <? _); [simpl; by destruct (quiet opts)|].
  destruct (_ <? 0); [simpl; by destruct (quiet opts)|done].
Qed.

Lemma doGaps_frame (g g' : Globals) (funcVec : list Function) :
  doGaps std_sort opts g funcVec = Done g' →
  bstats g' = bstats g ∧ ustats g' = ustats g ∧ lstats g' = lstats g
  ∧ num_xed_errors g' = num_xed_errors g ∧ initial_parse g' = initial_parse g.
Proof.
  unfold doGaps. destruct (all_blocks std_sort funcVec) as [|b rest]; [done|].
  simpl. intros [= <-]. apply gaps_loop_frame.
Qed.

(** *** Quiet mode *)

Lemma doBlock_quiet (g g' : Globals) (block : Block) :
  quiet opts = true →
  doBlock xed_decode opts g block = Done g' → out g' = out g.
Proof.
  intros Hq. unfold doBlock. destruct (_ <? 0); [done|].
  unfold mbind, Result_bind, rbind.
  destruct (fill_loop _ _ _ _ _ _ _) as [[g1 flow]| |] eqn:Hfill; [|done..].
  apply fill_loop_out in Hfill. rewrite Hq in Hfill. simpl in Hfill.
  destruct flow as [buf|].
  - intros Hc. apply check_loop_out in Hc. rewrite Hq in Hc.
    destruct Hc as [[_ Ho]|[_ [e Ho]]]; rewrite Ho, ?app_nil_r; done.
  - intros [= <-]. destruct Hfill as [e Ho]. by rewrite Ho, app_nil_r.
Qed.

Lemma doBlocks_quiet (g g' : Globals) (blockVec : list Block) :
  quiet opts = true →
  doBlocks xed_decode opts g blockVec = Done g' → out g' = out g.
Proof.
  intros Hq. revert g. induction blockVec as [|b blockVec IH]; intros g; simpl.
  - by intros [= <-].
  - unfold mbind, Result_bind, rbind.
    destruct (doBlock _ _ _ _) as [g1| |] eqn:Hb; [|done..].
    intros Hr. apply IH in Hr. apply doBlock_quiet in Hb; [|done]. congruence.
Qed.

Lemma doFunctions_quiet (g g' : Globals) (funcVec : list Function) :
  quiet opts = true →
  doFunctions xed_decode std_sort opts g funcVec = Done g' → out g' = out g.
Proof.
  intros Hq. revert g. induction funcVec as [|f funcVec IH]; intros g; simpl.
  - by intros [= <-].
  - unfold mbind, Result_bind, rbind.
    destruct (doFunction _ _ _ _ _) as [g1| |] eqn:Hf; [|done..].
    intros Hr. apply IH in Hr. unfold doFunction in Hf.
    apply doBlocks_quiet in Hf; [|done]. simpl in Hf. congruence.
Qed.

Lemma gaps_loop_quiet (g : Globals) (prev_block : Block) (rest : list Block) :
  quiet opts = true → out (gaps_loop opts g prev_block rest) = out g.
Proof.
  intros Hq. revert g prev_block.
  induction rest as [|b rest IH]; intros g prev; [done|].
  simpl. rewrite IH. unfold gap_pair. rewrite Hq.
  destruct (0 <? _); [done|]. by destruct (_ <? 0).
Qed.

Lemma doGaps_quiet (g g' : Globals) (funcVec : list Function) :
  quiet opts = true →
  doGaps std_sort opts g funcVec = Done g' → out g' = out g.
Proof.
  intros Hq. unfold doGaps.
  destruct (all_blocks std_sort funcVec) as [|b rest]; [done|].
  simpl. intros [= <-]. by apply gaps_loop_quiet.
Qed.

Lemma myXedCallback_quiet (g g' : Globals) (seqn : list byte) (r : Instruction) :
  quiet opts = true →
  myXedCallback xed_decode opts g seqn = Done (r, g') → out g' = out g.
Proof.
  intros Hq. unfold myXedCallback, safety_valve, mbind, Result_bind, rbind.
  assert (∀ buf d g0, out (report_unknown opts buf d g0) = out g0) as Hrep.
  { intros buf d g0. unfold report_unknown. rewrite Hq, andb_false_r.
    by destruct (negb _). }
  destruct (xed_error _).
  - destruct (20 <? _); [done|]. intros [= _ <-]. by rewrite Hrep.
  - intros [= _ <-]. by rewrite Hrep.
Qed.

End FrameMore.

(** X5.  The number of unknown instructions is the sum of the valid,
    troll and error outcomes: this holds for the initial counters, every
    invocation of the callback keeps it, and [doFunction] and [doGaps] do
    not touch the unknown-instruction counters. *)
Theorem unknown_counters_invariant :
  unknown_consistent (ustats initial_globals)
  ∧ (∀ xed_decode opts g seqn r g',
       unknown_consistent (ustats g) →
       myXedCallback xed_decode opts g seqn = Done (r, g') →
       unknown_consistent (ustats g'))
  ∧ (∀ xed_decode std_sort opts g func g',
       doFunction xed_decode std_sort opts g func = Done g' →
       ustats g' = ustats g)
  ∧ (∀ std_sort opts g funcVec g',
       doGaps std_sort opts g funcVec = Done g' → ustats g' = ustats g).
Proof.
  split; [done|]. split; [|split].
  - intros xed_decode opts g seqn r g' Hg.
    unfold myXedCallback, safety_valve, mbind, Result_bind, rbind.
    assert (∀ n, unknown_consistent
                   (ustats (report_unknown opts (copy_seqn seqn [])
                              (decode_window xed_decode opts seqn (copy_seqn seqn []))
                              (set_num_xed_errors n g)))) as Hrep.
    { intros n. unfold report_unknown. simpl.
      destruct (negb (initial_parse g =? 0)) eqn:Hparse; simpl.
      - unfold unknown_consistent in *.
        destruct (quiet opts), (is_valid _), (is_troll _); simpl;
          rewrite ?Hparse; simpl; lia.
      - by rewrite Hparse. }
    destruct (xed_error _).
    + destruct (20 <? _); [done|]. intros [= _ <-]. apply Hrep.
    + intros [= _ <-]. apply Hrep.
  - intros xed_decode std_sort opts g func g' Hrun. unfold doFunction in Hrun.
    by apply doBlocks_frame in Hrun as (_ & _ & _ & Hu & _).
  - intros std_sort opts g funcVec g' Hrun.
    by apply doGaps_frame in Hrun as (_ & Hu & _).
Qed.

Lemma unknown_counters_invariant_witness :
  ∃ r g', myXedCallback nop_decoder default_options initial_globals [x06; x90]
          = Done (r, g')
          ∧ unknown_consistent (ustats g').
Proof.
  eexists _, _. split; [reflexivity|].
  destruct unknown_counters_invariant as (H0 & Hstep & _).
  eapply (Hstep nop_decoder default_options initial_globals [x06; x90]);
    [exact H0|reflexivity].
Defined.

(** X6.  After the initial parse ([initial_parse] is 0) an invocation
    of the callback that returns changes nothing but the consecutive
    failure counter: no counter of the summary moves and nothing is
    printed, whatever the window and the options. *)
Theorem myXedCallback_replay
    (xed_decode : list byte → option nat) (opts : Options)
    (g g' : Globals) (seqn : list byte) (r : Instruction) :
  initial_parse g = 0 →
  myXedCallback xed_decode opts g seqn = Done (r, g') →
  g' = set_num_xed_errors (num_xed_errors g') g.
Proof.
  intros Hparse. unfold myXedCallback, safety_valve, mbind, Result_bind, rbind.
  assert (∀ buf d n, report_unknown opts buf d (set_num_xed_errors n g)
                     = set_num_xed_errors n g) as Hrep.
  { intros buf d n. unfold report_unknown. simpl. rewrite Hparse. simpl.
    by rewrite Hparse. }
  destruct (xed_error _).
  - destruct (20 <? _); [done|]. intros [= _ <-]. by rewrite Hrep.
  - intros [= _ <-]. by rewrite Hrep.
Qed.

Lemma myXedCallback_replay_witness :
  let g := set_initial_parse 0 initial_globals in
  ∃ r g', myXedCallback nop_decoder default_options g [x06; x06] = Done (r, g')
          ∧ g' = set_num_xed_errors (num_xed_errors g') g.
Proof.
  intros g. eexists _, _. split; [reflexivity|].
  by eapply (myXedCallback_replay nop_decoder default_options g _ [x06; x06]).
Defined.

(** X7.  With [quiet] set no event (unknown instruction, discrepancy,
    gap, overlap) is printed: the callback, [doFunction], [doGaps] and the
    loops of the two analysis phases of [main] return with the events they
    found. *)
Theorem quiet_prints_nothing
    (xed_decode : list byte → option nat)
    (std_sort : ∀ A : Type, (A → A → bool) → list A → list A)
    (opts : Options) :
  quiet opts = true →
  (∀ g seqn r g',
     myXedCallback xed_decode opts g seqn = Done (r, g') → out g' = out g)
  ∧ (∀ g func g',
       doFunction xed_decode std_sort opts g func = Done g' → out g' = out g)
  ∧ (∀ g funcVec g',
       doGaps std_sort opts g funcVec = Done g' → out g' = out g)
  ∧ (∀ g funcList g',
       analyze xed_decode std_sort opts g funcList = Done g' → out g' = out g).
Proof.
  intros Hq. split; [|split; [|split]].
  - intros g seqn r g'. by apply myXedCallback_quiet.
  - intros g func g' Hrun. unfold doFunction in Hrun.
    by apply doBlocks_quiet in Hrun.
  - intros g funcVec g'. by apply doGaps_quiet.
  - intros g funcList g'. unfold analyze, mbind, Result_bind, rbind.
    destruct (doFunctions _ _ _ _ _) as [g1| |] eqn:Hf; [|done..].
    intros Hg. apply doGaps_quiet in Hg; [|done].
    apply doFunctions_quiet in Hf; [|done]. simpl in Hf. congruence.
Qed.

Lemma quiet_prints_nothing_witness :
  let opts := set_quiet true default_options in
  let a := {| start := 0x100; end_ := 0x110; insns := [] |} in
  let b := {| start := 0x120; end_ := 0x130; insns := [] |} in
  ∃ g', analyze nop_decoder sort_ties_kept opts initial_globals
          [ {| addr := 0x100; blocks := [b; a] |} ] = Done g'
        ∧ out g' = [] ∧ num_gaps (gstats g') = 1.
Proof.
  intros opts a b.
  destruct (quiet_prints_nothing nop_decoder sort_ties_kept opts eq_refl)
    as (_ & _ & _ & Hmain).
  eexists. split; [reflexivity|]. split; [|reflexivity].
  apply (Hmain initial_globals [ {| addr := 0x100; blocks := [b; a] |} ]).
  reflexivity.
Defined.

(** ** The counters do not depend on the options *)

Section Silence.

Context (xed_decode : list byte → option nat).
Context (std_sort : ∀ A : Type, (A → A → bool) → list A → list A).
Context (opts1 opts2 : Options).

Lemma silence_with_lstats_print (f : LengthStats → LengthStats) (q : bool)
    (e : Event) (g : Globals) :
  silence (with_lstats f (if q then g else print e g)) = with_lstats f (silence g).
Proof. by destruct q. Qed.

Lemma silence_with_gstats_print (f : GapStats → GapStats) (q : bool)
    (e : Event) (g : Globals) :
  silence (with_gstats f (if q then g else print e g)) = with_gstats f (silence g).
Proof. by destruct q. Qed.

Lemma silence_fill_loop (block_start block_size : Z) (imap : list (Z * Instruction))
    (g1 g2 : Globals) (buf : list byte) (pos : Z) :
  silence g1 = silence g2 →
  rmap (λ gf, (silence gf.1, gf.2))
    (fill_loop opts1 block_start block_size imap g1 buf pos)
  = rmap (λ gf, (silence gf.1, gf.2))
      (fill_loop opts2 block_start block_size imap g2 buf pos).
Proof.
  intros Hg. revert buf pos.
  induction imap as [|[addr insn] imap IH]; intros buf pos; simpl.
  - by rewrite Hg.
  - destruct (negb _).
    { simpl. by rewrite !silence_with_lstats_print, Hg. }
    destruct (_ <? _).
    { simpl. by rewrite !silence_with_lstats_print, Hg. }
    unfold mbind, Result_bind, rbind.
    destruct (if INT_MAX <? _ then _ else _); [|done..].
    apply IH.
Qed.

Lemma silence_check_loop (block_start : Z) (imap : list (Z * Instruction))
    (g1 g2 : Globals) (buf : list byte) :
  silence g1 = silence g2 →
  rmap silence (check_loop xed_decode opts1 block_start imap g1 buf)
  = rmap silence (check_loop xed_decode opts2 block_start imap g2 buf).
Proof.
  intros Hg. induction imap as [|[addr insn] imap IH]; simpl.
  - by rewrite Hg.
  - unfold mbind, Result_bind, rbind.
    destruct (buf_window _ _ _); [|done..].
    destruct (_ || _); [|apply IH].
    simpl. by rewrite !silence_with_lstats_print, Hg.
Qed.

Lemma silence_doBlock (g1 g2 : Globals) (block : Block) :
  silence g1 = silence g2 →
  rmap silence (doBlock xed_decode opts1 g1 block)
  = rmap silence (doBlock xed_decode opts2 g2 block).
Proof.
  intros Hg. unfold doBlock. destruct (_ <? 0); [done|].
  set (e1 := with_bstats _ (with_bstats _ g1)).
  set (e2 := with_bstats _ (with_bstats _ g2)).
  assert (silence e1 = silence e2) as He.
  { apply silence_eq_fields in Hg as (? & ? & ? & ? & ? & ?).
    subst e1 e2. unfold silence. simpl. congruence. }
  pose proof (silence_fill_loop (start block) (to_long (size block)) (insns block)
                e1 e2 (replicate (Z.to_nat (to_long (size block) + 20)) x00) 0 He)
    as Hfill.
  unfold mbind, Result_bind, rbind.
  destruct (fill_loop opts1 _ _ _ _ _ _) as [[g1' flow1]| |],
           (fill_loop opts2 _ _ _ _ _ _) as [[g2' flow2]| |];
    simpl in Hfill; try done; try (simpl; congruence).
  assert (silence g1' = silence g2') as Hs by congruence.
  assert (flow1 = flow2) as <- by congruence.
  destruct flow1 as [buf|]; [by apply silence_check_loop|]. simpl. by rewrite Hs.
Qed.

Lemma silence_doBlocks (g1 g2 : Globals) (blockVec : list Block) :
  silence g1 = silence g2 →
  rmap silence (doBlocks xed_decode opts1 g1 blockVec)
  = rmap silence (doBlocks xed_decode opts2 g2 blockVec).
Proof.
  revert g1 g2. induction blockVec as [|b blockVec IH]; intros g1 g2 Hg; simpl.
  - by rewrite Hg.
  - pose proof (silence_doBlock g1 g2 b Hg) as Hb.
    unfold mbind, Result_bind, rbind.
    destruct (doBlock xed_decode opts1 g1 b) as [g1'| |],
             (doBlock xed_decode opts2 g2 b) as [g2'| |]; simpl in Hb; try done; try (simpl; congruence).
    apply IH. congruence.
Qed.

Lemma silence_doFunctions (g1 g2 : Globals) (funcVec : list Function) :
  silence g1 = silence g2 →
  rmap silence (doFunctions xed_decode std_sort opts1 g1 funcVec)
  = rmap silence (doFunctions xed_decode std_sort opts2 g2 funcVec).
Proof.
  revert g1 g2. induction funcVec as [|f funcVec IH]; intros g1 g2 Hg; simpl.
  - by rewrite Hg.
  - assert (rmap silence (doFunction xed_decode std_sort opts1 g1 f)
            = rmap silence (doFunction xed_decode std_sort opts2 g2 f)) as Hf.
    { unfold doFunction. apply silence_doBlocks.
      apply silence_eq_fields in Hg as (? & ? & ? & ? & ? & ?).
      unfold silence. simpl. congruence. }
    unfold mbind, Result_bind, rbind.
    destruct (doFunction xed_decode std_sort opts1 g1 f) as [g1'| |],
             (doFunction xed_decode std_sort opts2 g2 f) as [g2'| |];
      simpl in Hf; try done; try (simpl; congruence).
    apply IH. congruence.
Qed.

Lemma silence_gap_pair (g1 g2 : Globals) (prev_block block : Block) :
  silence g1 = silence g2 →
  silence (gap_pair opts1 g1 prev_block block)
  = silence (gap_pair opts2 g2 prev_block block).
Proof.
  intros Hg. unfold gap_pair.
  destruct (0 <? _); [by rewrite !silence_with_gstats_print, Hg|].
  destruct (_ <? 0); [by rewrite !silence_with_gstats_print, Hg|done].
Qed.

Lemma silence_gaps_loop (g1 g2 : Globals) (prev_block : Block) (rest : list Block) :
  silence g1 = silence g2 →
  silence (gaps_loop opts1 g1 prev_block rest)
  = silence (gaps_loop opts2 g2 prev_block rest).
Proof.
  revert g1 g2 prev_block.
  induction rest as [|b rest IH]; intros g1 g2 prev Hg; [done|].
  simpl. apply IH. by apply silence_gap_pair.
Qed.

Lemma silence_doGaps (g1 g2 : Globals) (funcVec : list Function) :
  silence g1 = silence g2 →
  rmap silence (doGaps std_sort opts1 g1 funcVec)
  = rmap silence (doGaps std_sort opts2 g2 funcVec).
Proof.
  intros Hg. unfold doGaps.
  destruct (all_blocks std_sort funcVec) as [|b rest]; [done|].
  simpl. f_equal. by apply silence_gaps_loop.
Qed.

End Silence.

(** X8.  [-q] and [-v] change nothing but what is printed.  With the
    fix modes as they are, the two analysis phases of [main] on a given
    function list end the same way and, when they return, with the same
    counters, whatever [quiet] and [verbose] are; and an invocation of the
    callback on a given window hands back the same instruction and leaves
    the same counters. *)
Theorem counters_independent_of_quiet
    (xed_decode : list byte → option nat)
    (std_sort : ∀ A : Type, (A → A → bool) → list A → list A)
    (opts : Options) (q v : bool) (g : Globals) :
  (∀ funcList,
     rmap silence
       (analyze xed_decode std_sort (set_verbose v (set_quiet q opts)) g funcList)
     = rmap silence (analyze xed_decode std_sort opts g funcList))
  ∧ (∀ seqn,
       rmap (λ rg, (rg.1, silence rg.2))
         (myXedCallback xed_decode (set_verbose v (set_quiet q opts)) g seqn)
       = rmap (λ rg, (rg.1, silence rg.2)) (myXedCallback xed_decode opts g seqn)).
Proof.
  split.
  - intros funcList. unfold analyze.
    pose proof (silence_doFunctions xed_decode std_sort
                  (set_verbose v (set_quiet q opts)) opts
                  (set_initial_parse 0 g) (set_initial_parse 0 g)
                  (std_sort Function FuncLessThan funcList) eq_refl) as Hf.
    unfold mbind, Result_bind, rbind.
    destruct (doFunctions xed_decode std_sort (set_verbose v (set_quiet q opts)) _ _)
      as [g1| |],
      (doFunctions xed_decode std_sort opts _ _) as [g2| |];
      simpl in Hf; try done; try (simpl; congruence).
    apply silence_doGaps. congruence.
  - intros seqn. unfold myXedCallback, mbind, Result_bind, rbind.
    change (decode_window xed_decode (set_verbose v (set_quiet q opts)) seqn
              (copy_seqn seqn []))
      with (decode_window xed_decode opts seqn (copy_seqn seqn [])).
    destruct (safety_valve _ g) as [g1| |]; simpl; [|done..].
    do 2 f_equal. by apply silence_report_unknown.
Qed.

(** ** Totals over the blocks of a function *)

Lemma sum_Z_perm (l1 l2 : list Z) : l1 ≡ₚ l2 → sum_Z l1 = sum_Z l2.
Proof.
  unfold sum_Z. induction 1 as [|x l1 l2 _ IH|x y l|l1 l2 l3 _ IH1 _ IH2]; simpl; lia.
Qed.

Lemma discrepancies_doBlock (xed_decode : list byte → option nat) (opts : Options)
    (g g' : Globals) (block : Block) :
  doBlock xed_decode opts g block = Done g' →
  discrepancies (lstats g) ≤ discrepancies (lstats g') ≤ discrepancies (lstats g) + 1
  ∧ (length (out g) ≤ length (out g') ≤ length (out g) + 1)%nat.
Proof.
  intros Hrun. split.
  - apply doBlock_length_delta in Hrun. unfold length_delta, discrepancies in *.
    destruct Hrun as [H|[H|[H|H]]]; injection H as H1 H2 H3; lia.
  - apply doBlock_out in Hrun as (evs & -> & Hlen & _).
    rewrite length_app. lia.
Qed.

Lemma discrepancies_doBlocks (xed_decode : list byte → option nat) (opts : Options)
    (g g' : Globals) (blockVec : list Block) :
  doBlocks xed_decode opts g blockVec = Done g' →
  discrepancies (lstats g) ≤ discrepancies (lstats g')
    ≤ discrepancies (lstats g) + Z.of_nat (length blockVec)
  ∧ (length (out g) ≤ length (out g') ≤ length (out g) + length blockVec)%nat.
Proof.
  revert g. induction blockVec as [|b blockVec IH]; intros g; simpl.
  - intros [= <-]. lia.
  - unfold mbind, Result_bind, rbind.
    destruct (doBlock _ _ _ _) as [g1| |] eqn:Hb; [|done..].
    intros Hr. apply IH in Hr. apply discrepancies_doBlock in Hb. lia.
Qed.

(** X9.  A [doFunction] that returns has added to the totals the number
    of blocks of the function, the number of their instructions and the sum
    of their sizes, whatever order the engine lists the blocks in and
    whatever discrepancies the blocks have. *)
Theorem doFunction_totals
    (xed_decode : list byte → option nat)
    (std_sort : ∀ A : Type, (A → A → bool) → list A → list A)
    (opts : Options) (g g' : Globals) (func : Function) :
  sort_contract std_sort →
  doFunction xed_decode std_sort opts g func = Done g' →
  num_blocks (bstats g') = num_blocks (bstats g) + Z.of_nat (length (blocks func))
  ∧ num_instns (bstats g') = num_instns (bstats g) + total_instns (blocks func)
  ∧ num_bytes (bstats g') = num_bytes (bstats g) + total_bytes (blocks func).
Proof.
  intros Hsort Hrun. unfold doFunction in Hrun.
  apply doBlocks_frame in Hrun as (H1 & H2 & H3 & _). simpl in H1, H2, H3.
  pose proof (std_sort_perm std_sort Hsort start (blocks func)) as Hperm.
  fold BlockLessThan in Hperm. fold (BlockLessThan) in Hperm.
  split; [done|]. split.
  - rewrite H2. f_equal. unfold total_instns. apply sum_Z_perm.
    symmetry. by apply Permutation_map.
  - rewrite H3. f_equal. unfold total_bytes. apply sum_Z_perm.
    symmetry. by apply Permutation_map.
Qed.

Lemma doFunction_totals_witness :
  let nop := {| isValid := true; insn_size := 1; raw := [x90] |} in
  let a := {| start := 0x1000; end_ := 0x1002;
              insns := [(0x1000, nop); (0x1001, nop)] |} in
  let b := {| start := 0x1010; end_ := 0x1014; insns := [(0x1011, nop)] |} in
  let func := {| addr := 0x1000; blocks := [b; a] |} in
  ∃ g', doFunction nop_decoder sort_ties_kept default_options initial_globals func
        = Done g'
        ∧ num_blocks (bstats g') = 2 ∧ num_instns (bstats g') = 3
        ∧ num_bytes (bstats g') = 6.
Proof.
  intros nop a b func. eexists. split; [reflexivity|].
  apply (doFunction_totals nop_decoder sort_ties_kept default_options
           initial_globals _ func sort_ties_kept_contract).
  reflexivity.
Defined.

(** X10.  A [doFunction] that returns has recorded at most one
    discrepancy and printed at most one event per block of the function;
    the discrepancy counters never go down. *)
Theorem doFunction_discrepancies
    (xed_decode : list byte → option nat)
    (std_sort : ∀ A : Type, (A → A → bool) → list A → list A)
    (opts : Options) (g g' : Globals) (func : Function) :
  sort_contract std_sort →
  doFunction xed_decode std_sort opts g func = Done g' →
  discrepancies (lstats g) ≤ discrepancies (lstats g')
    ≤ discrepancies (lstats g) + Z.of_nat (length (blocks func))
  ∧ (length (out g) ≤ length (out g')
       ≤ length (out g) + length (blocks func))%nat.
Proof.
  intros Hsort Hrun. unfold doFunction in Hrun.
  apply discrepancies_doBlocks in Hrun. simpl in Hrun.
  pose proof (std_sort_perm std_sort Hsort start (blocks func)) as Hperm.
  apply Permutation_length in Hperm. unfold BlockLessThan in Hrun.
  rewrite <- Hperm in Hrun. done.
Qed.

Lemma doFunction_discrepancies_witness :
  let nop := {| isValid := true; insn_size := 1; raw := [x90] |} in
  let a := {| start := 0x1000; end_ := 0x1002;
              insns := [(0x1000, nop); (0x1001, nop)] |} in
  let b := {| start := 0x1010; end_ := 0x1014; insns := [(0x1011, nop)] |} in
  let func := {| addr := 0x1000; blocks := [b; a] |} in
  ∃ g', doFunction nop_decoder sort_ties_kept default_options initial_globals func
        = Done g'
        ∧ discrepancies (lstats g') = 1
        ∧ discrepancies (lstats g') ≤ 0 + Z.of_nat (length (blocks func)).
Proof.
  intros nop a b func. eexists. split; [reflexivity|]. split; [reflexivity|].
  apply (doFunction_discrepancies nop_decoder sort_ties_kept default_options
           initial_globals _ func sort_ties_kept_contract).
  reflexivity.
Defined.

(** ** The verdict on a block *)

Section Verdict.

Context (xed_decode : list byte → option nat).
Context (opts : Options).

(** A claimed instruction that is reached and does not sit at the running
    offset is recorded as an align error. *)
Lemma doBlock_misaligned (g : Globals) (block : Block)
    (pre post : list (Z * Instruction)) (addr : Z) (insn : Instruction) :
  well_formed block = true →
  insns block = pre ++ (addr, insn) :: post →
  contiguous (start block) pre = true →
  claimed_length pre ≤ end_ block - start block →
  addr ≠ start block + claimed_length pre →
  ∃ g', doBlock xed_decode opts g block = Done g'
        ∧ lstats g' = inc_block_align_errors (lstats g).
Proof.
  intros Hwf Hi Hc Hfit Hne. rewrite doBlock_unfold by done.
  apply well_formed_spec in Hwf as (H1 & H2 & H3 & H4 & Hint).
  rewrite Hi in *. rewrite forallb_app in Hint.
  apply andb_true_iff in Hint as [Hint _].
  pose proof (claimed_length_nonneg pre) as Hnn.
  rewrite fill_loop_prefix;
    [|lia|lia|lia|by rewrite Z.add_0_r|simpl; lia|done|simpl; lia].
  simpl length. rewrite Z.add_0_l. cbn [fill_loop].
  rewrite (wrap64_small (start block + claimed_length pre)) by lia.
  destruct (Z.eqb_spec (start block + claimed_length pre) addr); [lia|].
  simpl. eexists. split; [done|]. simpl. by destruct (quiet opts).
Qed.

Section Offsets.

Context (block_start block_size : Z).
Context (Hstart : 0 ≤ block_start).
Context (Hsize : 0 ≤ block_size < 2 ^ 63).
Context (Hend : block_start + block_size < 2 ^ 64).

(** The check loop records a bad length as soon as the decoder disagrees
    with a claimed length. *)
Lemma check_loop_mismatch (imap : list (Z * Instruction)) (g g' : Globals)
    (buf : list byte) (off : nat) :
  Z.of_nat (length buf) = block_size + 20 →
  contiguous (block_start + Z.of_nat off) imap = true →
  Z.of_nat off + claimed_length imap ≤ block_size →
  check_loop xed_decode opts block_start imap g buf = Done g' →
  lengths_match xed_decode buf off imap = false →
  lstats g' = inc_bad_length (lstats g).
Proof using Hstart Hsize Hend.
  intros Hbuf. revert off.
  induction imap as [|[addr insn] imap IH]; intros off Hc Hfit Hrun Hm; [done|].
  simpl in Hc. apply andb_true_iff in Hc as [Ha Hc]. apply Z.eqb_eq in Ha.
  rewrite claimed_length_cons in Hfit.
  pose proof (claimed_length_nonneg imap).
  cbn [check_loop lengths_match] in Hrun, Hm.
  replace (addr - block_start) with (Z.of_nat off) in Hrun by lia.
  rewrite (wrap64_small (Z.of_nat off)) in Hrun by lia.
  unfold buf_window in Hrun.
  destruct (Z.leb_spec 0 (Z.of_nat off)); [|lia].
  destruct (Z.leb_spec (Z.of_nat off + Z.of_nat 16) (Z.of_nat (length buf))); [|lia].
  cbn [andb] in Hrun. unfold mbind, Result_bind, rbind in Hrun.
  rewrite Nat2Z.id in Hrun.
  destruct (xed_decode (take 16 (drop off buf))) as [len|] eqn:Hdec.
  - destruct (Z.eqb_spec (Z.of_nat (insn_size insn)) (Z.of_nat len)) as [Heq|Hne].
    + rewrite bool_decide_eq_false_2 in Hrun by done. cbn [orb negb] in Hrun.
      apply Nat2Z.inj in Heq. subst len.
      rewrite bool_decide_eq_true_2 in Hm by done. simpl in Hm.
      apply (IH (off + insn_size insn)%nat); [|lia|done..].
      by replace (block_start + Z.of_nat (off + insn_size insn))
        with (block_start + Z.of_nat off + Z.of_nat (insn_size insn)) by lia.
    + rewrite bool_decide_eq_false_2 in Hrun by done. cbn [orb negb] in Hrun.
      injection Hrun as <-. apply length_delta_quiet_print.
  - rewrite bool_decide_eq_true_2 in Hrun by done. cbn [orb] in Hrun.
    injection Hrun as <-. apply length_delta_quiet_print.
Qed.

End Offsets.

(** A block whose claimed instructions are contiguous and within the
    block gets through the fill loop, and the check loop decides. *)
Lemma doBlock_through (g : Globals) (block : Block) :
  well_formed block = true →
  contiguous (start block) (insns block) = true →
  claimed_length (insns block) ≤ end_ block - start block →
  ∃ g', doBlock xed_decode opts g block = Done g'
        ∧ lstats g'
          = if lengths_match xed_decode (block_image block) 0 (insns block)
            then lstats g else inc_bad_length (lstats g).
Proof.
  intros Hwf Hc Hfit.
  destruct (doBlock_cases xed_decode opts g block Hwf) as (g' & Hrun & Hcases).
  exists g'. split; [done|].
  destruct (lengths_match _ _ _ _) eqn:Hm.
  - destruct Hcases as [(_ & _ & _ & Hsame)|Hbreak]; [by apply Hsame|].
    exfalso.
    destruct Hbreak as (pre & addr & insn & post & Hi & _ & _ & Hcase).
    rewrite Hi, contiguous_app in Hc. rewrite Hi, claimed_length_app in Hfit.
    apply andb_true_iff in Hc as [_ Hc]. simpl in Hc.
    apply andb_true_iff in Hc as [Ha _]. apply Z.eqb_eq in Ha.
    rewrite claimed_length_cons in Hfit.
    pose proof (claimed_length_nonneg post).
    destruct Hcase as [[Hne _]|(_ & Hlong & _)]; lia.
  - rewrite doBlock_unfold in Hrun by done.
    apply well_formed_spec in Hwf as (H1 & H2 & H3 & H4 & Hint).
    rewrite <- (app_nil_r (insns block)) in Hrun at 1.
    rewrite fill_loop_prefix in Hrun;
      [|lia|lia|lia|by rewrite Z.add_0_r|simpl; lia|done|simpl; lia].
    simpl in Hrun. fold (block_image block) in Hrun.
    eapply (check_loop_mismatch (start block) (end_ block - start block)
              ltac:(lia) ltac:(lia) ltac:(lia) _ _ _ _ 0) in Hrun;
      [done|by apply length_block_image|by rewrite Z.add_0_r|lia|done].
Qed.

End Verdict.

(** X11.  On a well-formed block [doBlock] records an align error exactly
    when some claimed instruction is reached (the claimed instructions
    before it are contiguous from the block start and end within the block)
    and its address is not the block start plus the bytes claimed so
    far. *)
Theorem align_error_iff_misplaced
    (xed_decode : list byte → option nat) (opts : Options)
    (g : Globals) (block : Block) :
  well_formed block = true →
  ∃ g', doBlock xed_decode opts g block = Done g'
      ∧ (length_delta g g' = (0, 1, 0)
         ↔ ∃ pre addr insn post,
             insns block = pre ++ (addr, insn) :: post
             ∧ contiguous (start block) pre = true
             ∧ claimed_length pre ≤ end_ block - start block
             ∧ addr ≠ start block + claimed_length pre).
Proof.
  intros Hwf.
  destruct (doBlock_cases xed_decode opts g block Hwf) as (g' & Hrun & Hcases).
  exists g'. split; [done|]. split.
  - intros Hd. unfold length_delta in Hd.
    destruct Hcases as [(_ & _ & [Hl|Hl] & _)|Hbreak].
    + rewrite Hl in Hd. injection Hd as _ Hd _. lia.
    + rewrite Hl in Hd. simpl in Hd. injection Hd as _ Hd _. lia.
    + destruct Hbreak as (pre & addr & insn & post & Hi & Hc & Hfit & Hcase).
      destruct Hcase as [[Hne _]|(_ & _ & Hl)].
      * by exists pre, addr, insn, post.
      * rewrite Hl in Hd. simpl in Hd. injection Hd as _ Hd _. lia.
  - intros (pre & addr & insn & post & Hi & Hc & Hfit & Hne).
    destruct (doBlock_misaligned xed_decode opts g block pre post addr insn
                Hwf Hi Hc Hfit Hne) as (g2 & Hrun2 & Hl).
    rewrite Hrun in Hrun2. injection Hrun2 as <-.
    unfold length_delta. rewrite Hl. simpl. repeat f_equal; lia.
Qed.

Lemma align_error_iff_misplaced_witness :
  let nop := {| isValid := true; insn_size := 1; raw := [x90] |} in
  let block := {| start := 0x1000; end_ := 0x1004;
                  insns := [(0x1000, nop); (0x1002, nop)] |} in
  ∃ g', doBlock nop_decoder default_options initial_globals block = Done g'
        ∧ length_delta initial_globals g' = (0, 1, 0).
Proof.
  intros nop block.
  destruct (align_error_iff_misplaced nop_decoder default_options initial_globals
              block eq_refl) as (g' & Hrun & Hiff).
  exists g'. split; [exact Hrun|].
  apply Hiff. exists [(0x1000, nop)], 0x1002, nop, [].
  split; [reflexivity|]. split; [reflexivity|]. split; by vm_compute.
Defined.

(** X12.  On a well-formed block [doBlock] records a bad length exactly
    when the claimed instructions are contiguous from the block start and
    within the block, and the decoder, on the 16 bytes of the reconstructed
    block at the offset of some claimed instruction, fails or returns a
    length other than the claimed one. *)
Theorem bad_length_iff_mismatch
    (xed_decode : list byte → option nat) (opts : Options)
    (g : Globals) (block : Block) :
  well_formed block = true →
  ∃ g', doBlock xed_decode opts g block = Done g'
      ∧ (length_delta g g' = (1, 0, 0)
         ↔ contiguous (start block) (insns block) = true
           ∧ claimed_length (insns block) ≤ end_ block - start block
           ∧ lengths_match xed_decode (block_image block) 0 (insns block) = false).
Proof.
  intros Hwf.
  destruct (doBlock_cases xed_decode opts g block Hwf) as (g' & Hrun & Hcases).
  exists g'. split; [done|]. split.
  - intros Hd. unfold length_delta in Hd.
    destruct Hcases as [(Hc & Hfit & _ & Hsame)|Hbreak].
    + split; [done|]. split; [done|].
      destruct (lengths_match _ _ _ _); [|done].
      destruct (Hsame eq_refl) as [Hl _]. rewrite Hl in Hd.
      injection Hd as Hd _ _. lia.
    + destruct Hbreak as (pre & addr & insn & post & _ & _ & _ & Hcase).
      destruct Hcase as [[_ Hl]|(_ & _ & Hl)]; rewrite Hl in Hd; simpl in Hd;
        injection Hd as Hd _ _; lia.
  - intros (Hc & Hfit & Hm).
    destruct (doBlock_through xed_decode opts g block Hwf Hc Hfit)
      as (g2 & Hrun2 & Hl).
    rewrite Hrun in Hrun2. injection Hrun2 as <-.
    rewrite Hm in Hl. unfold length_delta. rewrite Hl. simpl.
    repeat f_equal; lia.
Qed.

Lemma bad_length_iff_mismatch_witness :
  let two := {| isValid := true; insn_size := 2; raw := [x90; x90] |} in
  let block := {| start := 0x1000; end_ := 0x1002; insns := [(0x1000, two)] |} in
  ∃ g', doBlock nop_decoder default_options initial_globals block = Done g'
        ∧ length_delta initial_globals g' = (1, 0, 0).
Proof.
  intros two block.
  destruct (bad_length_iff_mismatch nop_decoder default_options initial_globals
              block eq_refl) as (g' & Hrun & Hiff).
  exists g'. split; [exact Hrun|].
  apply Hiff. split; [reflexivity|]. split; [by vm_compute|reflexivity].
Defined.

(** ** Validating a block again *)

Section Again.

Context (xed_decode : list byte → option nat).
Context (opts : Options).

Lemma length_delta_with (f : LengthStats → LengthStats) (e : Event)
    (g1 g2 : Globals) :
  (∀ s1 s2 : LengthStats,
     (num_bad_length (f s1) - num_bad_length s1,
      num_block_align_errors (f s1) - num_block_align_errors s1,
      num_block_length_errors (f s1) - num_block_length_errors s1)
     = (num_bad_length (f s2) - num_bad_length s2,
        num_block_align_errors (f s2) - num_block_align_errors s2,
        num_block_length_errors (f s2) - num_block_length_errors s2)) →
  length_delta g2 (with_lstats f (if quiet opts then g2 else print e g2))
  = length_delta g1 (with_lstats f (if quiet opts then g1 else print e g1)).
Proof.
  intros Hf. unfold length_delta. rewrite !length_delta_quiet_print. apply Hf.
Qed.

Lemma length_delta_same (g : Globals) : length_delta g g = (0, 0, 0).
Proof. unfold length_delta. by rewrite !Z.sub_diag. Qed.

Lemma fill_loop_again (block_start block_size : Z) (imap : list (Z * Instruction))
    (g1 g1' g2 : Globals) (buf : list byte) (pos : Z) (flow : Flow (list byte)) :
  fill_loop opts block_start block_size imap g1 buf pos = Done (g1', flow) →
  ∃ g2', fill_loop opts block_start block_size imap g2 buf pos = Done (g2', flow)
         ∧ length_delta g2 g2' = length_delta g1 g1'
         ∧ ∃ evs, out g1' = out g1 ++ evs ∧ out g2' = out g2 ++ evs.
Proof.
  revert buf pos. induction imap as [|[addr insn] imap IH]; intros buf pos; simpl.
  - intros [= <- <-]. exists g2. split; [done|]. split.
    + by rewrite !length_delta_same.
    + exists []. by rewrite !app_nil_r.
  - destruct (negb _).
    { intros [= <- <-]. eexists. split; [done|]. split.
      - apply length_delta_with. intros s1 s2. simpl. f_equal; [f_equal|]; lia.
      - eexists. split; apply out_quiet_print. }
    destruct (_ <? _).
    { intros [= <- <-]. eexists. split; [done|]. split.
      - apply length_delta_with. intros s1 s2. simpl. f_equal; [f_equal|]; lia.
      - eexists. split; apply out_quiet_print. }
    unfold mbind, Result_bind, rbind.
    destruct (if INT_MAX <? _ then _ else _); [|done..].
    apply IH.
Qed.

Lemma check_loop_again (block_start : Z) (imap : list (Z * Instruction))
    (g1 g1' g2 : Globals) (buf : list byte) :
  check_loop xed_decode opts block_start imap g1 buf = Done g1' →
  ∃ g2', check_loop xed_decode opts block_start imap g2 buf = Done g2'
         ∧ length_delta g2 g2' = length_delta g1 g1'
         ∧ ∃ evs, out g1' = out g1 ++ evs ∧ out g2' = out g2 ++ evs.
Proof.
  induction imap as [|[addr insn] imap IH]; simpl.
  - intros [= <-]. exists g2. split; [done|]. split.
    + by rewrite !length_delta_same.
    + exists []. by rewrite !app_nil_r.
  - unfold mbind, Result_bind, rbind.
    destruct (buf_window _ _ _); [|done..].
    destruct (_ || _); [|apply IH].
    intros [= <-]. eexists. split; [done|]. split.
    + apply length_delta_with. intros s1 s2. simpl. f_equal; [f_equal|]; lia.
    + eexists. split; apply out_quiet_print.
Qed.

End Again.

(** X13.  What [doBlock] records and prints for a block does not depend
    on the counters it starts from: if it returns from one state it returns
    from every state, with the same movement of the three discrepancy
    counters and the same printed events.  Validating a block a second time
    therefore adds exactly what the first time added. *)
Theorem doBlock_again
    (xed_decode : list byte → option nat) (opts : Options)
    (g1 g1' g2 : Globals) (block : Block) :
  doBlock xed_decode opts g1 block = Done g1' →
  ∃ g2', doBlock xed_decode opts g2 block = Done g2'
         ∧ length_delta g2 g2' = length_delta g1 g1'
         ∧ ∃ evs, out g1' = out g1 ++ evs ∧ out g2' = out g2 ++ evs.
Proof.
  unfold doBlock. destruct (_ <? 0); [done|].
  unfold mbind, Result_bind, rbind.
  set (e1 := with_bstats _ (with_bstats _ g1)).
  set (e2 := with_bstats _ (with_bstats _ g2)).
  destruct (fill_loop opts _ _ _ e1 _ _) as [[f1 flow]| |] eqn:Hfill; [|done..].
  destruct (fill_loop_again opts _ _ _ _ _ e2 _ _ _ Hfill)
    as (f2 & -> & Hd & evs & Ho1 & Ho2).
  destruct flow as [buf|].
  - intros Hc.
    destruct (check_loop_again xed_decode opts _ _ _ _ f2 _ Hc)
      as (g2' & -> & Hd' & evs' & Ho1' & Ho2').
    exists g2'. split; [done|]. split.
    + unfold length_delta in *. subst e1 e2. simpl in Hd.
      injection Hd as Ha Hb Hc'. injection Hd' as Ha' Hb' Hc''.
      f_equal; [f_equal|]; lia.
    + exists (evs ++ evs'). rewrite Ho1', Ho2', Ho1, Ho2. subst e1 e2. simpl.
      by rewrite !app_assoc.
  - intros [= <-]. exists f2. split; [done|]. split.
    + unfold length_delta in *. subst e1 e2. simpl in Hd. done.
    + exists evs. rewrite Ho1, Ho2. done.
Qed.

Lemma doBlock_again_witness :
  let nop := {| isValid := true; insn_size := 1; raw := [x90] |} in
  let block := {| start := 0x1000; end_ := 0x1004;
                  insns := [(0x1000, nop); (0x1002, nop)] |} in
  ∃ g1 g2, doBlock nop_decoder default_options initial_globals block = Done g1
           ∧ doBlock nop_decoder default_options g1 block = Done g2
           ∧ length_delta g1 g2 = length_delta initial_globals g1.
Proof.
  intros nop block. eexists.
  destruct (doBlock_again nop_decoder default_options initial_globals _
              (with_lstats inc_block_align_errors
                 (print (PrintBlockAlign 0x1000 1 0x1002)
                    (with_bstats (add_num_instns 2)
                       (with_bstats (add_num_bytes 4) initial_globals))))
              block eq_refl)
    as (g2 & Hrun & Hd & _).
  exists g2. split; [reflexivity|]. split; [exact Hrun|exact Hd].
Defined.

(** ** Counting gaps and overlaps *)

Lemma gap_sizes_cons (prev_block block : Block) (rest : list Block) :
  gap_sizes (prev_block :: block :: rest)
  = gap_size prev_block block :: gap_sizes (block :: rest).
Proof. done. Qed.

Lemma length_gap_sizes (blockVec : list Block) :
  length (gap_sizes blockVec) = (length blockVec - 1)%nat.
Proof.
  unfold gap_sizes, adjacent_pairs.
  rewrite length_map, length_zip_with, length_drop. lia.
Qed.

Lemma gaps_loop_counts (opts : Options) (g : Globals) (prev_block : Block)
    (rest : list Block) :
  let sizes := gap_sizes (prev_block :: rest) in
  let s := gstats g in
  let s' := gstats (gaps_loop opts g prev_block rest) in
  num_gaps s' = num_gaps s + Z.of_nat (length (List.filter (λ z, 0 <? z) sizes))
  ∧ size_gaps s' = size_gaps s + sum_Z (List.filter (λ z, 0 <? z) sizes)
  ∧ num_overlap s'
    = num_overlap s + Z.of_nat (length (List.filter (λ z, z <? 0) sizes)).
Proof.
  revert g prev_block. induction rest as [|b rest IH]; intros g prev.
  - simpl. unfold sum_Z. simpl. lia.
  - cbn [gaps_loop]. rewrite gap_sizes_cons. cbn [List.filter].
    destruct (IH (gap_pair opts g prev b) b) as (H1 & H2 & H3).
    cbv zeta in H1, H2, H3. cbv zeta. rewrite H1, H2, H3.
    destruct (Z.ltb_spec 0 (gap_size prev b)) as [Hpos|Hnpos].
    + rewrite gap_pair_gap by done. simpl gstats. rewrite gstats_quiet_print.
      destruct (count_gap_totals (gap_size prev b) (gstats g)) as (-> & -> & ->).
      destruct (Z.ltb_spec (gap_size prev b) 0); [lia|].
      unfold sum_Z. simpl. fold (sum_Z (List.filter (λ z, 0 <? z) (gap_sizes (b :: rest)))).
      lia.
    + destruct (Z.ltb_spec (gap_size prev b) 0) as [Hneg|Hzero].
      * rewrite gap_pair_overlap by done. simpl gstats.
        rewrite gstats_quiet_print. simpl. lia.
      * rewrite gap_pair_contiguous by lia. lia.
Qed.

(** X14.  A [doGaps] that returns has added to the number of gaps the
    number of adjacent pairs of the sorted blocks with a positive size, to
    the size of the gaps the sum of these sizes, and to the number of
    overlaps the number of adjacent pairs with a negative size.  Gaps and
    overlaps together are at most the number of blocks less one. *)
Theorem doGaps_counts
    (std_sort : ∀ A : Type, (A → A → bool) → list A → list A)
    (opts : Options) (g g' : Globals) (funcVec : list Function) :
  sort_contract std_sort →
  doGaps std_sort opts g funcVec = Done g' →
  let sizes := gap_sizes (all_blocks std_sort funcVec) in
  let gaps := List.filter (λ z, 0 <? z) sizes in
  let overlaps := List.filter (λ z, z <? 0) sizes in
  num_gaps (gstats g') = num_gaps (gstats g) + Z.of_nat (length gaps)
  ∧ size_gaps (gstats g') = size_gaps (gstats g) + sum_Z gaps
  ∧ num_overlap (gstats g') = num_overlap (gstats g) + Z.of_nat (length overlaps)
  ∧ Z.of_nat (length gaps) + Z.of_nat (length overlaps)
    ≤ Z.of_nat (length (concat (map blocks funcVec))) - 1.
Proof.
  intros Hsort Hrun sizes gaps overlaps.
  assert (length sizes = (length (concat (map blocks funcVec)) - 1)%nat) as Hlen.
  { subst sizes. rewrite length_gap_sizes. f_equal. symmetry.
    apply Permutation_length. unfold all_blocks, BlockLessThan.
    apply (std_sort_perm std_sort Hsort start). }
  assert (length gaps + length overlaps ≤ length sizes)%nat as Hsum.
  { subst gaps overlaps. clear. induction sizes as [|z sizes IH]; simpl; [lia|].
    destruct (Z.ltb_spec 0 z), (Z.ltb_spec z 0); simpl; lia. }
  unfold doGaps in Hrun. subst sizes gaps overlaps.
  destruct (all_blocks std_sort funcVec) as [|b rest] eqn:Hall; [done|].
  simpl in Hrun. injection Hrun as <-.
  destruct (gaps_loop_counts opts g b rest) as (H1 & H2 & H3).
  split; [done|]. split; [done|]. split; [done|].
  assert (1 ≤ length (concat (map blocks funcVec)))%nat.
  { pose proof (std_sort_perm std_sort Hsort start (concat (map blocks funcVec)))
      as Hperm.
    apply Permutation_length in Hperm. unfold all_blocks, BlockLessThan in Hall.
    rewrite Hall in Hperm. simpl in Hperm. lia. }
  lia.
Qed.

Lemma doGaps_counts_witness :
  let a := {| start := 0x100; end_ := 0x110; insns := [] |} in
  let b := {| start := 0x120; end_ := 0x130; insns := [] |} in
  let c := {| start := 0x128; end_ := 0x138; insns := [] |} in
  let funcVec := [ {| addr := 0x120; blocks := [c; b] |};
                   {| addr := 0x100; blocks := [a] |} ] in
  ∃ g', doGaps sort_ties_kept default_options initial_globals funcVec = Done g'
        ∧ num_gaps (gstats g') = 1 ∧ size_gaps (gstats g') = 16
        ∧ num_overlap (gstats g') = 1.
Proof.
  intros a b c funcVec. eexists. split; [reflexivity|].
  destruct (doGaps_counts sort_ties_kept default_options initial_globals _ funcVec
              sort_ties_kept_contract eq_refl) as (H1 & H2 & H3 & _).
  split; [exact H1|]. split; [exact H2|exact H3].
Defined.

(** ** Bounds on the bands *)

Lemma count_gap_bounds (size : Z) (s : GapStats) :
  0 < size → band_bounds s → band_bounds (count_gap size s).
Proof.
  unfold band_bounds, count_gap. intros Hpos H.
  destruct (Z.ltb_spec size 16); [simpl; lia|].
  destruct (Z.ltb_spec size 64); [simpl; lia|].
  destruct (Z.ltb_spec size 256); simpl; lia.
Qed.

Lemma gap_pair_bounds (opts : Options) (g : Globals) (prev_block block : Block) :
  band_bounds (gstats g) → band_bounds (gstats (gap_pair opts g prev_block block)).
Proof.
  intros Hg. unfold gap_pair.
  destruct (Z.ltb_spec 0 (gap_size prev_block block)).
  - simpl. rewrite gstats_quiet_print. by apply count_gap_bounds.
  - destruct (_ <? 0); [|done].
    simpl. rewrite gstats_quiet_print. unfold band_bounds in *. simpl. lia.
Qed.

(** X15.  In every band the total size stays between the count times
    the least and the count times the greatest gap size of the band (1 to
    15, 16 to 63, 64 to 255, and at least 256), and no count is negative:
    this holds initially and every pair update of [doGaps] and every
    [doGaps] keeps it. *)
Theorem band_bounds_invariant :
  band_bounds (gstats initial_globals)
  ∧ (∀ opts g prev_block block,
       band_bounds (gstats g) →
       band_bounds (gstats (gap_pair opts g prev_block block)))
  ∧ (∀ std_sort opts g funcVec g',
       band_bounds (gstats g) →
       doGaps std_sort opts g funcVec = Done g' →
       band_bounds (gstats g')).
Proof.
  split; [unfold band_bounds; simpl; lia|].
  split; [intros; by apply gap_pair_bounds|].
  intros std_sort opts g funcVec g' Hg. unfold doGaps.
  destruct (all_blocks std_sort funcVec) as [|b rest]; [done|].
  simpl. intros [= <-]. clear -Hg. revert g b Hg.
  induction rest as [|c rest IH]; intros g b Hg; [done|].
  simpl. apply IH. by apply gap_pair_bounds.
Qed.

Lemma band_bounds_invariant_witness :
  let a := {| start := 0x100; end_ := 0x110; insns := [] |} in
  let b := {| start := 0x120; end_ := 0x130; insns := [] |} in
  band_bounds (gstats (gap_pair default_options initial_globals a b)).
Proof.
  intros a b. destruct band_bounds_invariant as (H0 & Hstep & _).
  apply Hstep, H0.
Defined.

(** ** Independence of the order of the input *)

(** X16.  For a function whose blocks start at distinct addresses,
    [doFunction] does not depend on the order in which the function lists
    its blocks, nor on how the sort places them. *)
Theorem doFunction_order_independent
    (xed_decode : list byte → option nat)
    (sort1 sort2 : ∀ A : Type, (A → A → bool) → list A → list A)
    (opts : Options) (g : Globals) (func1 func2 : Function) :
  sort_contract sort1 → sort_contract sort2 →
  NoDup (map start (blocks func1)) →
  blocks func1 ≡ₚ blocks func2 →
  doFunction xed_decode sort1 opts g func1
  = doFunction xed_decode sort2 opts g func2.
Proof.
  intros H1 H2 Hnd Hperm. unfold doFunction, BlockLessThan.
  rewrite (std_sort_unique start sort1 sort2 _ _ H1 H2 Hnd Hperm).
  by rewrite (Permutation_length Hperm).
Qed.

Lemma doFunction_order_independent_witness :
  let a := {| start := 0x100; end_ := 0x101; insns := [(0x100, nop_instruction 1 [x90])] |} in
  let b := {| start := 0x101; end_ := 0x102; insns := [(0x101, nop_instruction 1 [x90])] |} in
  doFunction nop_decoder sort_ties_kept default_options initial_globals
    {| addr := 0x100; blocks := [a; b] |}
  = doFunction nop_decoder sort_ties_reversed default_options initial_globals
      {| addr := 0x100; blocks := [b; a] |}.
Proof.
  intros a b.
  apply doFunction_order_independent;
    [exact sort_ties_kept_contract|exact sort_ties_reversed_contract| |].
  - apply (bool_decide_unpack _). vm_compute. reflexivity.
  - simpl. apply Permutation_swap.
Defined.

(** X17.  When all blocks start at distinct addresses, [doGaps] does
    not depend on the order of the functions, on the order of their blocks,
    nor on how the sort places them: it is the same for any two
    arrangements of the same blocks. *)
Theorem doGaps_order_independent
    (sort1 sort2 : ∀ A : Type, (A → A → bool) → list A → list A)
    (opts : Options) (g : Globals) (funcVec1 funcVec2 : list Function) :
  sort_contract sort1 → sort_contract sort2 →
  NoDup (map start (concat (map blocks funcVec1))) →
  concat (map blocks funcVec1) ≡ₚ concat (map blocks funcVec2) →
  doGaps sort1 opts g funcVec1 = doGaps sort2 opts g funcVec2.
Proof.
  intros H1 H2 Hnd Hperm. unfold doGaps, all_blocks, BlockLessThan.
  by rewrite (std_sort_unique start sort1 sort2 _ _ H1 H2 Hnd Hperm).
Qed.

Lemma doGaps_order_independent_witness :
  let a := {| start := 0x100; end_ := 0x110; insns := [] |} in
  let b := {| start := 0x120; end_ := 0x130; insns := [] |} in
  let c := {| start := 0x128; end_ := 0x138; insns := [] |} in
  doGaps sort_ties_kept default_options initial_globals
    [ {| addr := 0x120; blocks := [b; a] |}; {| addr := 0x128; blocks := [c] |} ]
  = doGaps sort_ties_reversed default_options initial_globals
      [ {| addr := 0x100; blocks := [a; b] |}; {| addr := 0x128; blocks := [c] |} ].
Proof.
  intros a b c.
  apply doGaps_order_independent;
    [exact sort_ties_kept_contract|exact sort_ties_reversed_contract| |].
  - apply (bool_decide_unpack _). vm_compute. reflexivity.
  - simpl. apply Permutation_swap.
Defined.

Lemma NoDup_starts_function (funcVec : list Function) (func : Function) :
  NoDup (map start (concat (map blocks funcVec))) →
  func ∈ funcVec → NoDup (map start (blocks func)).
Proof.
  induction funcVec as [|f funcVec IH]; intros Hnd Hin; [by inv Hin|].
  rewrite map_cons, concat_cons, map_app in Hnd.
  apply NoDup_app in Hnd as (Hf & _ & Hrest).
  inv Hin; [done|by apply IH].
Qed.

Lemma doFunctions_sort_independent
    (xed_decode : list byte → option nat)
    (sort1 sort2 : ∀ A : Type, (A → A → bool) → list A → list A)
    (opts : Options) (g : Globals) (funcVec : list Function) :
  sort_contract sort1 → sort_contract sort2 →
  (∀ func, func ∈ funcVec → NoDup (map start (blocks func))) →
  doFunctions xed_decode sort1 opts g funcVec
  = doFunctions xed_decode sort2 opts g funcVec.
Proof.
  intros H1 H2. revert g.
  induction funcVec as [|f funcVec IH]; intros g Hnd; [done|].
  simpl. unfold doFunction, BlockLessThan.
  rewrite (std_sort_unique start sort1 sort2 (blocks f) (blocks f) H1 H2);
    [|apply Hnd; by left|done].
  destruct (doBlocks _ _ _ _) as [g'| |]; simpl; [|done..].
  apply IH. intros func Hin. apply Hnd. by right.
Qed.

(** X18.  When the functions have distinct entry addresses and all
    blocks start at distinct addresses, the counters and the events of
    phases 2 and 3 of [main] do not depend on the order in which the code
    object lists the functions, nor on how the sort places them. *)
Theorem analyze_order_independent
    (xed_decode : list byte → option nat)
    (sort1 sort2 : ∀ A : Type, (A → A → bool) → list A → list A)
    (opts : Options) (g : Globals) (funcList1 funcList2 : list Function) :
  sort_contract sort1 → sort_contract sort2 →
  NoDup (map addr funcList1) →
  NoDup (map start (concat (map blocks funcList1))) →
  funcList1 ≡ₚ funcList2 →
  analyze xed_decode sort1 opts g funcList1
  = analyze xed_decode sort2 opts g funcList2.
Proof.
  intros H1 H2 Hfuncs Hblocks Hperm. unfold analyze, FuncLessThan.
  rewrite <- (std_sort_unique addr sort1 sort2 _ _ H1 H2 Hfuncs Hperm).
  set (funcVec := sort1 Function _ funcList1).
  assert (funcList1 ≡ₚ funcVec) as Hvec by apply (std_sort_perm sort1 H1 addr).
  assert (NoDup (map start (concat (map blocks funcVec)))) as Hnd.
  { by rewrite <- Hvec. }
  rewrite (doFunctions_sort_independent xed_decode sort1 sort2) by
    (try done; intros func Hin; by apply (NoDup_starts_function funcVec)).
  destruct (doFunctions _ _ _ _ _) as [g'| |]; simpl; [|done..].
  unfold doGaps, all_blocks, BlockLessThan.
  by rewrite (std_sort_unique start sort1 sort2 _ _ H1 H2 Hnd (reflexivity _)).
Qed.

Lemma analyze_order_independent_witness :
  let a := {| start := 0x100; end_ := 0x101; insns := [(0x100, nop_instruction 1 [x90])] |} in
  let b := {| start := 0x110; end_ := 0x111; insns := [(0x110, nop_instruction 1 [x90])] |} in
  let f := {| addr := 0x100; blocks := [a] |} in
  let h := {| addr := 0x110; blocks := [b] |} in
  analyze nop_decoder sort_ties_kept default_options initial_globals [f; h]
  = analyze nop_decoder sort_ties_reversed default_options initial_globals [h; f].
Proof.
  intros a b f h.
  apply analyze_order_independent;
    [exact sort_ties_kept_contract|exact sort_ties_reversed_contract| | |].
  - apply (bool_decide_unpack _). vm_compute. reflexivity.
  - apply (bool_decide_unpack _). vm_compute. reflexivity.
  - apply Permutation_swap.
Defined.

(** ** Blocks that start at the same address *)

Lemma sorted_shared_start (blockVec : list Block) :
  StronglySorted (not_after BlockLessThan) blockVec →
  Forall (λ b, 0 < end_ b - start b < 2 ^ 63) blockVec →
  ¬ NoDup (map start blockVec) →
  ∃ z, z ∈ gap_sizes blockVec ∧ z < 0.
Proof.
  induction 1 as [|x l Hs IH Hx]; intros Hsize Hdup.
  { exfalso. apply Hdup. constructor. }
  apply Forall_cons in Hsize as [Hxsize Hsize].
  destruct (decide (start x ∈ map start l)) as [Hin|Hnin].
  - destruct l as [|y l]; [by inv Hin|].
    exists (gap_size x y). split; [rewrite gap_sizes_cons; by left|].
    assert (start y = start x) as Hy.
    { apply Forall_cons in Hx as [Hxy Hx].
      unfold not_after, BlockLessThan in Hxy. apply Z.ltb_ge in Hxy.
      apply list_elem_of_fmap in Hin as (z & Hz & Hzin).
      inv Hzin; [done|].
      apply StronglySorted_inv in Hs as [_ Hyl].
      rewrite Forall_forall in Hyl.
      match goal with H : z ∈ l |- _ => apply Hyl in H as Hyz end.
      unfold not_after, BlockLessThan in Hyz. apply Z.ltb_ge in Hyz. lia. }
    unfold gap_size. rewrite to_long_exact; lia.
  - destruct IH as (z & Hz & Hneg); [done| |].
    { intros Hnd. apply Hdup. simpl. by constructor. }
    exists z. split; [|done].
    destruct l as [|y l]; [by inv Hz|].
    rewrite gap_sizes_cons. by right.
Qed.

(** X19.  When two of the blocks start at the same address, as with a
    block that two functions share, and no block is empty, a [doGaps] that
    returns has counted at least one overlap. *)
Theorem shared_start_counts_overlap
    (std_sort : ∀ A : Type, (A → A → bool) → list A → list A)
    (opts : Options) (g g' : Globals) (funcVec : list Function) :
  sort_contract std_sort →
  Forall (λ b, 0 < end_ b - start b < 2 ^ 63) (concat (map blocks funcVec)) →
  ¬ NoDup (map start (concat (map blocks funcVec))) →
  doGaps std_sort opts g funcVec = Done g' →
  num_overlap (gstats g) < num_overlap (gstats g').
Proof.
  intros Hsort Hsize Hdup Hrun.
  assert (H := Hsort Block BlockLessThan (key_lt_swo start)
                 (concat (map blocks funcVec))).
  destruct H as [Hperm Hsorted]. fold (all_blocks std_sort funcVec) in *.
  rewrite Hperm in Hsize, Hdup.
  destruct (sorted_shared_start _ Hsorted Hsize Hdup) as (z & Hz & Hneg).
  unfold doGaps in Hrun.
  destruct (all_blocks std_sort funcVec) as [|b rest]; [done|].
  simpl in Hrun. injection Hrun as <-. rewrite drop_0.
  destruct (gaps_loop_counts opts g b rest) as (_ & _ & ->).
  assert (z ∈ List.filter (λ z, z <? 0) (gap_sizes (b :: rest))) as Hin.
  { apply list_elem_of_In, filter_In. split; [by apply list_elem_of_In|].
    by apply Z.ltb_lt. }
  destruct (List.filter _ _); [by inv Hin|]. simpl length. lia.
Qed.

Lemma shared_start_counts_overlap_witness :
  let a := {| start := 0x100; end_ := 0x110; insns := [] |} in
  let b := {| start := 0x110; end_ := 0x120; insns := [] |} in
  let funcVec := [ {| addr := 0x100; blocks := [a; b] |};
                   {| addr := 0x110; blocks := [b] |} ] in
  ∃ g', doGaps sort_ties_kept default_options initial_globals funcVec = Done g'
        ∧ 0 < num_overlap (gstats g').
Proof.
  intros a b funcVec. eexists. split; [reflexivity|].
  apply (shared_start_counts_overlap sort_ties_kept default_options
           initial_globals _ funcVec sort_ties_kept_contract).
  - simpl. repeat (apply Forall_cons; split; [simpl; lia|]). apply Forall_nil_2.
  - intros Hnd. apply (bool_decide_pack _) in Hnd. vm_compute in Hnd. done.
  - reflexivity.
Defined.

(** ** The totals of a run *)

Lemma sum_Z_app (l1 l2 : list Z) : sum_Z (l1 ++ l2) = sum_Z l1 + sum_Z l2.
Proof.
  unfold sum_Z. induction l1 as [|z l1 IH]; simpl; [done|]. rewrite IH. lia.
Qed.

Lemma doFunctions_frame
    (xed_decode : list byte → option nat)
    (std_sort : ∀ A : Type, (A → A → bool) → list A → list A)
    (opts : Options) (g g' : Globals) (funcVec : list Function) :
  sort_contract std_sort →
  doFunctions xed_decode std_sort opts g funcVec = Done g' →
  num_blocks (bstats g')
  = num_blocks (bstats g) + Z.of_nat (length (concat (map blocks funcVec)))
  ∧ num_instns (bstats g')
    = num_instns (bstats g) + total_instns (concat (map blocks funcVec))
  ∧ num_bytes (bstats g')
    = num_bytes (bstats g) + total_bytes (concat (map blocks funcVec))
  ∧ discrepancies (lstats g) ≤ discrepancies (lstats g')
      ≤ discrepancies (lstats g) + Z.of_nat (length (concat (map blocks funcVec)))
  ∧ ustats g' = ustats g ∧ gstats g' = gstats g
  ∧ num_xed_errors g' = num_xed_errors g ∧ initial_parse g' = initial_parse g.
Proof.
  intros Hsort. revert g.
  induction funcVec as [|f funcVec IH]; intros g Hrun.
  { injection Hrun as <-. unfold total_instns, total_bytes, sum_Z. simpl.
    repeat split; lia. }
  simpl in Hrun. unfold mbind, Result_bind, rbind in Hrun.
  destruct (doFunction xed_decode std_sort opts g f) as [g1| |] eqn:Hf; [|done..].
  apply IH in Hrun as (H1 & H2 & H3 & H4 & H5 & H6 & H7 & H8).
  unfold doFunction in Hf.
  pose proof (std_sort_perm std_sort Hsort start (blocks f)) as Hperm.
  fold BlockLessThan in Hperm.
  destruct (discrepancies_doBlocks _ _ _ _ _ Hf) as [Hd _]. simpl in Hd.
  rewrite <- (Permutation_length Hperm) in Hd.
  apply doBlocks_frame in Hf as (F1 & F2 & F3 & F4 & F5 & F6 & F7).
  simpl in F1, F2, F3, F4, F5, F6, F7.
  assert (total_instns (std_sort Block BlockLessThan (blocks f))
          = total_instns (blocks f)) as Hinstns.
  { unfold total_instns. apply sum_Z_perm. symmetry. by apply Permutation_map. }
  assert (total_bytes (std_sort Block BlockLessThan (blocks f))
          = total_bytes (blocks f)) as Hbytes.
  { unfold total_bytes. apply sum_Z_perm. symmetry. by apply Permutation_map. }
  rewrite map_cons, concat_cons, length_app.
  unfold total_instns, total_bytes in *. rewrite !map_app, !sum_Z_app.
  split; [lia|]. split; [lia|]. split; [lia|]. split; [lia|].
  split; [congruence|]. split; [congruence|]. split; congruence.
Qed.

(** X20.  When phases 2 and 3 of [main] return, the totals of the
    summary have grown by the number of blocks of all functions of the code
    object, the number of their instructions and the sum of their sizes;
    the discrepancies recorded are at most one per block; the counters of
    unknown instructions are as they were after the parse; and the counting
    of unknown instructions is off.  Nothing is said of [num_xed_errors],
    which the callback moves when the engine invokes it again while it
    hands out the instructions of a block. *)
Theorem analyze_summary
    (xed_decode : list byte → option nat)
    (std_sort : ∀ A : Type, (A → A → bool) → list A → list A)
    (opts : Options) (g g' : Globals) (funcList : list Function) :
  sort_contract std_sort →
  analyze xed_decode std_sort opts g funcList = Done g' →
  num_blocks (bstats g')
  = num_blocks (bstats g) + Z.of_nat (length (concat (map blocks funcList)))
  ∧ num_instns (bstats g')
    = num_instns (bstats g) + total_instns (concat (map blocks funcList))
  ∧ num_bytes (bstats g')
    = num_bytes (bstats g) + total_bytes (concat (map blocks funcList))
  ∧ discrepancies (lstats g) ≤ discrepancies (lstats g')
      ≤ discrepancies (lstats g) + Z.of_nat (length (concat (map blocks funcList)))
  ∧ ustats g' = ustats g
  ∧ initial_parse g' = 0.
Proof.
  intros Hsort Hrun. unfold analyze, mbind, Result_bind, rbind in Hrun.
  destruct (doFunctions _ _ _ _ _) as [g1| |] eqn:Hfuncs; [|done..].
  apply (doFunctions_frame _ _ _ _ _ _ Hsort) in Hfuncs
    as (H1 & H2 & H3 & H4 & H5 & H6 & H7 & H8).
  simpl in H1, H2, H3, H4, H5, H6, H7, H8.
  apply doGaps_frame in Hrun as (G1 & G2 & G3 & _ & G5).
  rewrite G1, G2, G3, G5.
  pose proof (std_sort_perm std_sort Hsort addr funcList) as Hperm.
  fold FuncLessThan in Hperm.
  assert (concat (map blocks funcList)
          ≡ₚ concat (map blocks (std_sort Function FuncLessThan funcList)))
    as Hall by (by rewrite <- Hperm).
  assert (total_instns (concat (map blocks (std_sort Function FuncLessThan funcList)))
          = total_instns (concat (map blocks funcList))) as Hinstns.
  { unfold total_instns. apply sum_Z_perm. symmetry. by apply Permutation_map. }
  assert (total_bytes (concat (map blocks (std_sort Function FuncLessThan funcList)))
          = total_bytes (concat (map blocks funcList))) as Hbytes.
  { unfold total_bytes. apply sum_Z_perm. symmetry. by apply Permutation_map. }
  rewrite (Permutation_length Hall).
  split; [lia|]. split; [lia|]. split; [lia|]. split; [lia|]. done.
Qed.

Lemma analyze_summary_witness :
  let nop := {| isValid := true; insn_size := 1; raw := [x90] |} in
  let a := {| start := 0x1000; end_ := 0x1002;
              insns := [(0x1000, nop); (0x1001, nop)] |} in
  let b := {| start := 0x1010; end_ := 0x1014; insns := [(0x1011, nop)] |} in
  let funcList := [ {| addr := 0x1010; blocks := [b] |};
                    {| addr := 0x1000; blocks := [a] |} ] in
  ∃ g', analyze nop_decoder sort_ties_kept default_options initial_globals funcList
        = Done g'
        ∧ num_blocks (bstats g') = 2 ∧ num_instns (bstats g') = 3
        ∧ num_bytes (bstats g') = 6.
Proof.
  intros nop a b funcList. eexists. split; [reflexivity|].
  destruct (analyze_summary nop_decoder sort_ties_kept default_options
              initial_globals _ funcList sort_ties_kept_contract eq_refl)
    as (H1 & H2 & H3 & _).
  split; [exact H1|]. split; [exact H2|exact H3].
Defined.

End UnknownX86More.

(** * Further properties of cfg-parse *)

Module CfgParseMore.

Import CfgParse CfgParseFacts.

(** ** Command line *)

Lemma getNumJobs_range (atoi : string → Z) (args : list string) (num : Z) :
  getNumJobs atoi args = Done num →
  1 ≤ num ≤ MAX_THREADS ∧ ∃ a rest, args = a :: rest ∧ num = atoi a.
Proof.
  unfold getNumJobs. destruct args as [|a rest]; [done|].
  destruct (_ || _) eqn:Hrange; [done|]. intros [= <-].
  apply orb_false_iff in Hrange as [Hlo Hhi].
  apply Z.leb_gt in Hlo. apply Z.ltb_ge in Hhi. split; [lia|]. by eexists _, _.
Qed.

Lemma cfg_getOptions_loop_keeps (atoi : string → Z) (n : nat)
    (args rest : list string) (o o' : Options) :
  (length args ≤ n)%nat →
  getOptions_loop atoi args o = Done (o', rest) →
  layers_consistent o →
  1 ≤ jobs_symtab o ≤ MAX_THREADS →
  1 ≤ jobs_parse o ≤ MAX_THREADS →
  layers_consistent o'
  ∧ 1 ≤ jobs_symtab o' ≤ MAX_THREADS
  ∧ 1 ≤ jobs_parse o' ≤ MAX_THREADS
  ∧ jobs_struct o' = jobs_struct o
  ∧ filename o' = filename o
  ∧ rest `suffix_of` args
  ∧ match rest with
    | name :: _ => first_char_is "-" name = false ∧ first_char_is "+" name = false
    | [] => True
    end.
Proof.
  revert args o. induction n as [|n IH]; intros args o Hlen Hrun Hlay Hsym Hpar.
  { destruct args; [|simpl in Hlen; lia]. by injection Hrun as <- <-. }
  destruct args as [|arg args]; [by injection Hrun as <- <-|].
  simpl in Hlen, Hrun.
  assert (∀ args1 o1, (length args1 ≤ n)%nat → args1 `suffix_of` args →
            getOptions_loop atoi args1 o1 = Done (o', rest) →
            layers_consistent o1 →
            1 ≤ jobs_symtab o1 ≤ MAX_THREADS →
            1 ≤ jobs_parse o1 ≤ MAX_THREADS →
            jobs_struct o1 = jobs_struct o → filename o1 = filename o →
            layers_consistent o'
            ∧ 1 ≤ jobs_symtab o' ≤ MAX_THREADS
            ∧ 1 ≤ jobs_parse o' ≤ MAX_THREADS
            ∧ jobs_struct o' = jobs_struct o
            ∧ filename o' = filename o
            ∧ rest `suffix_of` arg :: args
            ∧ match rest with
              | name :: _ =>
                  first_char_is "-" name = false ∧ first_char_is "+" name = false
              | [] => True
              end) as Hnext.
  { intros args1 o1 Hlen1 Hsuf Hrun1 Hlay1 Hsym1 Hpar1 Hstruct1 Hname1.
    destruct (IH args1 o1 Hlen1 Hrun1 Hlay1 Hsym1 Hpar1)
      as (H1 & H2 & H3 & H4 & H5 & H6 & H7).
    split; [done|]. split; [done|]. split; [done|].
    split; [congruence|]. split; [congruence|]. split; [|done].
    apply suffix_cons_r. by etrans. }
  assert (∀ a args', args = a :: args' → args' `suffix_of` args) as Hskip.
  { intros a args' ->. by apply suffix_cons_r. }
  destruct Hlay as [Hinl Hmap].
  destruct (_ || _); [done|].
  destruct (_ || _).
  { unfold mbind, Result_bind, rbind in Hrun.
    destruct (getNumJobs atoi args) as [num| |] eqn:Hnum; [|done..].
    apply getNumJobs_range in Hnum as (Hnum & a & args' & -> & _).
    simpl in Hlen.
    eapply (Hnext args'); [lia|by eapply Hskip|exact Hrun|..]; by simpl. }
  destruct (String.eqb arg "--jobs-symtab").
  { unfold mbind, Result_bind, rbind in Hrun.
    destruct (getNumJobs atoi args) as [num| |] eqn:Hnum; [|done..].
    apply getNumJobs_range in Hnum as (Hnum & a & args' & -> & _).
    simpl in Hlen.
    eapply (Hnext args'); [lia|by eapply Hskip|exact Hrun|..]; by simpl. }
  destruct (String.eqb arg "--jobs-parse").
  { unfold mbind, Result_bind, rbind in Hrun.
    destruct (getNumJobs atoi args) as [num| |] eqn:Hnum; [|done..].
    apply getNumJobs_range in Hnum as (Hnum & a & args' & -> & _).
    simpl in Hlen.
    eapply (Hnext args'); [lia|by eapply Hskip|exact Hrun|..]; by simpl. }
  destruct (String.eqb arg "--jobs-struct").
  { destruct args as [|a args'].
    - injection Hrun as <- <-. repeat (split; [done|]). split; [|done].
      by apply suffix_cons_r, suffix_nil.
    - simpl in Hlen.
      eapply (Hnext args'); [lia|by eapply Hskip|exact Hrun|..]; by simpl. }
  destruct (String.eqb arg "-A");
    [eapply (Hnext args); [lia|done|exact Hrun|..]; by simpl|].
  destruct (String.eqb arg "+A");
    [eapply (Hnext args); [lia|done|exact Hrun|..]; by simpl|].
  destruct (String.eqb arg "-B");
    [eapply (Hnext args); [lia|done|exact Hrun|..]; by simpl|].
  destruct (String.eqb arg "+B");
    [eapply (Hnext args); [lia|done|exact Hrun|..]; by simpl|].
  destruct (String.eqb arg "-S");
    [eapply (Hnext args); [lia|done|exact Hrun|..]; by simpl|].
  destruct (String.eqb arg "+S");
    [eapply (Hnext args); [lia|done|exact Hrun|..]; by simpl|].
  destruct (String.eqb arg "-I");
    [eapply (Hnext args); [lia|done|exact Hrun|..]; by simpl|].
  destruct (String.eqb arg "+I");
    [eapply (Hnext args); [lia|done|exact Hrun|..]; by simpl|].
  destruct (String.eqb arg "-L");
    [eapply (Hnext args); [lia|done|exact Hrun|..]; by simpl|].
  destruct (String.eqb arg "+L");
    [eapply (Hnext args); [lia|done|exact Hrun|..]; by simpl|].
  destruct (String.eqb arg "--time");
    [eapply (Hnext args); [lia|done|exact Hrun|..]; by simpl|].
  destruct (_ || _) eqn:Hsign; [done|].
  apply orb_false_iff in Hsign.
  injection Hrun as <- <-. done.
Qed.

(** X21.  When [getOptions] accepts a command line, inline frames and
    line map information are shown only together with the statements, the
    numbers of threads for the symbol table and for the parse are between
    1 and 550, the number of threads for the structure phase is still 1,
    and the file name is a readable argument of the command line that
    begins with neither a minus nor a plus sign. *)
Theorem cfg_getOptions_accepts
    (atoi : string → Z) (readable : string → bool)
    (argv : list string) (o : Options) :
  getOptions atoi readable argv default_options = Done o →
  layers_consistent o
  ∧ 1 ≤ jobs_symtab o ≤ MAX_THREADS
  ∧ 1 ≤ jobs_parse o ≤ MAX_THREADS
  ∧ jobs_struct o = 1
  ∧ ∃ name, filename o = Some name ∧ name ∈ drop 1 argv
            ∧ readable name = true
            ∧ first_char_is "-" name = false ∧ first_char_is "+" name = false.
Proof.
  unfold getOptions, mbind, Result_bind, rbind.
  destruct (getOptions_loop atoi (drop 1 argv) default_options)
    as [[o1 rest]| |] eqn:Hloop; [|done..].
  destruct rest as [|name rest]; [done|].
  destruct (readable name) eqn:Hread; [|done]. intros [= <-].
  destruct (cfg_getOptions_loop_keeps atoi _ _ _ _ _ (Nat.le_refl _) Hloop)
    as (H1 & H2 & H3 & H4 & _ & H6 & H7); [done|by vm_compute..|].
  split; [done|]. split; [done|]. split; [done|]. split; [done|].
  exists name. split; [done|]. split; [|done].
  destruct H6 as [used ->]. apply elem_of_app. right. by left.
Qed.

Lemma cfg_getOptions_accepts_witness :
  ∃ o, getOptions (λ _, 8) (λ _, true)
         ["cfg-parse"; "-j"; "8"; "-S"; "+I"; "--jobs-struct"; "3"; "a.out"]%string
         default_options = Done o
       ∧ show_stmts o = true ∧ show_linemap o = false ∧ jobs_symtab o = 8
       ∧ jobs_struct o = 1.
Proof.
  eexists. split; [reflexivity|].
  destruct (cfg_getOptions_accepts (λ _, 8) (λ _, true)
              ["cfg-parse"; "-j"; "8"; "-S"; "+I"; "--jobs-struct"; "3"; "a.out"]%string
              _ eq_refl) as ([Hinl _] & _ & _ & Hstruct & _).
  split; [by apply Hinl|]. split; [done|]. split; [done|]. exact Hstruct.
Defined.

Lemma cfg_getOptions_loop_app (atoi : string → Z) (n : nat)
    (args extra rest : list string) (name : string) (o o' : Options) :
  (length args ≤ n)%nat →
  getOptions_loop atoi args o = Done (o', name :: rest) →
  getOptions_loop atoi (args ++ extra) o = Done (o', name :: rest ++ extra).
Proof.
  revert args o. induction n as [|n IH]; intros args o Hlen Hrun.
  { destruct args; [done|simpl in Hlen; lia]. }
  destruct args as [|arg args]; [done|].
  simpl in Hlen. rewrite <- app_comm_cons. simpl in Hrun |- *.
  destruct (_ || _); [done|].
  destruct (_ || _).
  { destruct args as [|a args]; [done|]. rewrite <- app_comm_cons.
    unfold mbind, Result_bind, rbind, getNumJobs in Hrun |- *.
    destruct (_ || _); [done|]. apply IH; [simpl in Hlen; lia|done]. }
  destruct (String.eqb arg "--jobs-symtab").
  { destruct args as [|a args]; [done|]. rewrite <- app_comm_cons.
    unfold mbind, Result_bind, rbind, getNumJobs in Hrun |- *.
    destruct (_ || _); [done|]. apply IH; [simpl in Hlen; lia|done]. }
  destruct (String.eqb arg "--jobs-parse").
  { destruct args as [|a args]; [done|]. rewrite <- app_comm_cons.
    unfold mbind, Result_bind, rbind, getNumJobs in Hrun |- *.
    destruct (_ || _); [done|]. apply IH; [simpl in Hlen; lia|done]. }
  destruct (String.eqb arg "--jobs-struct").
  { destruct args as [|a args]; [done|]. rewrite <- app_comm_cons.
    apply IH; [simpl in Hlen; lia|done]. }
  destruct (String.eqb arg "-A"); [apply IH; [lia|done]|].
  destruct (String.eqb arg "+A"); [apply IH; [lia|done]|].
  destruct (String.eqb arg "-B"); [apply IH; [lia|done]|].
  destruct (String.eqb arg "+B"); [apply IH; [lia|done]|].
  destruct (String.eqb arg "-S"); [apply IH; [lia|done]|].
  destruct (String.eqb arg "+S"); [apply IH; [lia|done]|].
  destruct (String.eqb arg "-I"); [apply IH; [lia|done]|].
  destruct (String.eqb arg "+I"); [apply IH; [lia|done]|].
  destruct (String.eqb arg "-L"); [apply IH; [lia|done]|].
  destruct (String.eqb arg "+L"); [apply IH; [lia|done]|].
  destruct (String.eqb arg "--time"); [apply IH; [lia|done]|].
  destruct (_ || _); [done|].
  by injection Hrun as <- <- <-.
Qed.

(** X27.  [getOptions] stops at the file name: a command line that is
    accepted is accepted with the same options whatever arguments follow
    it, so that options written after the file name are ignored. *)
Theorem cfg_getOptions_ignores_trailing
    (atoi : string → Z) (readable : string → bool)
    (argv extra : list string) (o : Options) :
  getOptions atoi readable argv default_options = Done o →
  getOptions atoi readable (argv ++ extra) default_options = Done o.
Proof.
  unfold getOptions, mbind, Result_bind, rbind.
  destruct (getOptions_loop atoi (drop 1 argv) default_options)
    as [[o1 rest]| |] eqn:Hloop; [|done..].
  destruct rest as [|name rest]; [done|]. intros Hdone.
  destruct argv as [|prog args]; [done|].
  rewrite <- app_comm_cons. simpl drop in *. rewrite drop_0 in *.
  by rewrite (cfg_getOptions_loop_app atoi _ _ extra _ _ _ _ (Nat.le_refl _) Hloop).
Qed.

Lemma cfg_getOptions_ignores_trailing_witness :
  ∃ o, getOptions (λ _, 8) (λ _, true)
         ["cfg-parse"; "-S"; "a.out"; "+S"; "--help"]%string default_options = Done o
       ∧ show_stmts o = false.
Proof.
  eexists. split.
  { apply (cfg_getOptions_ignores_trailing (λ _, 8) (λ _, true)
             ["cfg-parse"; "-S"; "a.out"]%string ["+S"; "--help"]%string).
    reflexivity. }
  reflexivity.
Defined.

(** ** The layers of the dump *)

Lemma filter_concat_map {A B : Type} (p : B → bool) (f : A → list B) (l : list A) :
  List.filter p (concat (map f l)) = concat (map (λ x, List.filter p (f x)) l).
Proof.
  induction l as [|x l IH]; [done|].
  rewrite !map_cons, !concat_cons, List.filter_app. by rewrite IH.
Qed.

Lemma concat_map_ext_in {A B : Type} (f g : A → list B) (l : list A) :
  (∀ x, x ∈ l → f x = g x) → concat (map f l) = concat (map g l).
Proof.
  intros H. induction l as [|x l IH]; [done|].
  rewrite !map_cons, !concat_cons, H by (by left).
  rewrite IH; [done|]. intros y Hy. apply H. by right.
Qed.

Section Layers.

Context (std_sort : ∀ A : Type, (A → A → bool) → list A → list A).
Context (getContainingModule : Z → option (Z → list Statement)).
Context (getContainingInlinedFunction : Z → option FunctionBase).

Lemma doInstruction_layers (opts : Options) (addr : Z) (instn : Instruction) :
  List.filter is_stmt_line
    (doInstruction opts getContainingModule getContainingInlinedFunction addr instn)
  = doInstruction opts getContainingModule getContainingInlinedFunction addr instn
  ∧ List.filter is_block_line
      (doInstruction opts getContainingModule getContainingInlinedFunction addr instn)
    = [].
Proof.
  assert (∀ l : list InlineNode,
            List.filter is_stmt_line
              (map (λ nit, OutInline (line nit) (filenm nit) (procnm nit)) l)
            = map (λ nit, OutInline (line nit) (filenm nit) (procnm nit)) l
            ∧ List.filter is_block_line
                (map (λ nit, OutInline (line nit) (filenm nit) (procnm nit)) l)
              = []) as Hinl.
  { induction l as [|nit l [IH1 IH2]]; [done|].
    rewrite map_cons. cbn [List.filter is_stmt_line is_block_line].
    by rewrite IH1. }
  unfold doInstruction. cbn [List.filter is_stmt_line is_block_line].
  destruct (show_inline opts); [|done].
  destruct (getContainingInlinedFunction addr) as [func|]; [|done].
  destruct (Hinl (inline_walk func [])) as [H1 H2]. by rewrite H1.
Qed.

Lemma doInstructions_layers (opts : Options) (imap : list (Z * Instruction)) :
  List.filter is_stmt_line
    (concat (map (λ iit, doInstruction opts getContainingModule
                           getContainingInlinedFunction iit.1 iit.2) imap))
  = concat (map (λ iit, doInstruction opts getContainingModule
                          getContainingInlinedFunction iit.1 iit.2) imap)
  ∧ List.filter is_block_line
      (concat (map (λ iit, doInstruction opts getContainingModule
                             getContainingInlinedFunction iit.1 iit.2) imap))
    = [].
Proof.
  induction imap as [|[a i] imap [IH1 IH2]]; [done|].
  rewrite map_cons, concat_cons, !List.filter_app, IH1, IH2.
  destruct (doInstruction_layers opts a i) as [H1 H2]. simpl fst. simpl snd.
  by rewrite H1, H2.
Qed.

Lemma doBlock_layers (opts : Options) (block : Block) :
  List.filter is_stmt_line
    (doBlock std_sort opts getContainingModule getContainingInlinedFunction block)
  = (if show_stmts opts
     then concat (map (λ iit, doInstruction opts getContainingModule
                                getContainingInlinedFunction iit.1 iit.2)
                      (insns block))
     else [])
  ∧ List.filter is_block_line
      (doBlock std_sort opts getContainingModule getContainingInlinedFunction block)
    = (if show_blocks opts
       then [OutBlock (start block) (end_ block) (length (insns block)) (size block)
               (if (1 <? length (funcs block))%nat
                then std_sort Z FuncAddrLessThan (funcs block) else []);
             OutEdges (last block)
               (map edge_text (std_sort Edge EdgeLessThan (targets block)))]
       else []).
Proof.
  unfold doBlock. rewrite !List.filter_app.
  destruct (doInstructions_layers opts (insns block)) as [H1 H2].
  destruct (show_stmts opts), (show_blocks opts);
    cbn [List.filter is_stmt_line is_block_line app];
    rewrite ?H1, ?H2, ?app_nil_r; done.
Qed.

Lemma doFunction_layers (opts : Options) (func : Function) :
  List.filter is_stmt_line
    (doFunction std_sort opts getContainingModule getContainingInlinedFunction func)
  = concat (map (λ b, List.filter is_stmt_line
                        (doBlock std_sort opts getContainingModule
                           getContainingInlinedFunction b))
                (std_sort Block BlockLessThan (blocks func)))
  ∧ List.filter is_block_line
      (doFunction std_sort opts getContainingModule getContainingInlinedFunction func)
    = concat (map (λ b, List.filter is_block_line
                          (doBlock std_sort opts getContainingModule
                             getContainingInlinedFunction b))
                  (std_sort Block BlockLessThan (blocks func))).
Proof.
  unfold doFunction. rewrite !List.filter_app, !filter_concat_map.
  cbn [List.filter is_stmt_line is_block_line app].
  by destruct (show_stmts opts && negb (show_blocks opts)).
Qed.

Lemma dump_layers_unfold (opts : Options) (funcList : list Function) :
  List.filter is_stmt_line
    (dump std_sort opts getContainingModule getContainingInlinedFunction funcList)
  = concat (map (λ f, List.filter is_stmt_line
                        (doFunction std_sort opts getContainingModule
                           getContainingInlinedFunction f))
                (std_sort Function FuncLessThan funcList))
  ∧ List.filter is_block_line
      (dump std_sort opts getContainingModule getContainingInlinedFunction funcList)
    = concat (map (λ f, List.filter is_block_line
                          (doFunction std_sort opts getContainingModule
                             getContainingInlinedFunction f))
                  (std_sort Function FuncLessThan funcList)).
Proof.
  unfold dump. rewrite !List.filter_app, !filter_concat_map.
  cbn [List.filter is_stmt_line is_block_line]. by rewrite !app_nil_r.
Qed.

Lemma stmt_lines_congr (opts opts' : Options) (funcList : list Function) :
  show_stmts opts = show_stmts opts' →
  show_inline opts = show_inline opts' →
  show_linemap opts = show_linemap opts' →
  List.filter is_stmt_line
    (dump std_sort opts getContainingModule getContainingInlinedFunction funcList)
  = List.filter is_stmt_line
      (dump std_sort opts' getContainingModule getContainingInlinedFunction funcList).
Proof.
  intros Hs Hi Hl.
  destruct (dump_layers_unfold opts funcList) as [-> _].
  destruct (dump_layers_unfold opts' funcList) as [-> _].
  apply concat_map_ext_in. intros f _.
  destruct (doFunction_layers opts f) as [-> _].
  destruct (doFunction_layers opts' f) as [-> _].
  apply concat_map_ext_in. intros b _.
  destruct (doBlock_layers opts b) as [-> _].
  destruct (doBlock_layers opts' b) as [-> _].
  rewrite <- Hs. destruct (show_stmts opts); [|done].
  apply concat_map_ext_in. intros iit _.
  unfold doInstruction. by rewrite Hi, Hl.
Qed.

Lemma block_lines_congr (opts opts' : Options) (funcList : list Function) :
  show_blocks opts = show_blocks opts' →
  List.filter is_block_line
    (dump std_sort opts getContainingModule getContainingInlinedFunction funcList)
  = List.filter is_block_line
      (dump std_sort opts' getContainingModule getContainingInlinedFunction funcList).
Proof.
  intros Hb.
  destruct (dump_layers_unfold opts funcList) as [_ ->].
  destruct (dump_layers_unfold opts' funcList) as [_ ->].
  apply concat_map_ext_in. intros f _.
  destruct (doFunction_layers opts f) as [_ ->].
  destruct (doFunction_layers opts' f) as [_ ->].
  apply concat_map_ext_in. intros b _.
  destruct (doBlock_layers opts b) as [_ ->].
  destruct (doBlock_layers opts' b) as [_ ->].
  by rewrite Hb.
Qed.

Lemma concat_map_nil {A B : Type} (f : A → list B) (l : list A) :
  (∀ x, f x = []) → concat (map f l) = [].
Proof.
  intros H. induction l as [|x l IH]; [done|].
  by rewrite map_cons, concat_cons, H, IH.
Qed.

(** X22.  The layers of the dump are independent.  Whether blocks are
    shown does not change the statement and inline lines; whether
    statements, inline frames and line map information are shown does not
    change the block and edge lines.  With the statements off no statement
    or inline line is written, whatever the options for inline frames and
    line map say; with the blocks off no block or edge line is written.
    The option for times changes nothing in the dump. *)
Theorem dump_layers (opts : Options) (funcList : list Function) :
  (∀ v,
     List.filter is_stmt_line
       (dump std_sort (set_show_blocks v opts) getContainingModule
          getContainingInlinedFunction funcList)
     = List.filter is_stmt_line
         (dump std_sort opts getContainingModule getContainingInlinedFunction
            funcList))
  ∧ (∀ s i m,
       List.filter is_block_line
         (dump std_sort (set_show_linemap m (set_show_inline i (set_show_stmts s opts)))
            getContainingModule getContainingInlinedFunction funcList)
       = List.filter is_block_line
           (dump std_sort opts getContainingModule getContainingInlinedFunction
              funcList))
  ∧ List.filter is_stmt_line
      (dump std_sort (set_show_stmts false opts) getContainingModule
         getContainingInlinedFunction funcList) = []
  ∧ List.filter is_block_line
      (dump std_sort (set_show_blocks false opts) getContainingModule
         getContainingInlinedFunction funcList) = []
  ∧ (∀ t,
       dump std_sort (set_show_time t opts) getContainingModule
         getContainingInlinedFunction funcList
       = dump std_sort opts getContainingModule getContainingInlinedFunction
           funcList).
Proof.
  split; [intros v; by apply stmt_lines_congr|].
  split; [intros s i m; by apply block_lines_congr|].
  split.
  { destruct (dump_layers_unfold (set_show_stmts false opts) funcList) as [-> _].
    apply concat_map_nil. intros f.
    destruct (doFunction_layers (set_show_stmts false opts) f) as [-> _].
    apply concat_map_nil. intros b.
    by destruct (doBlock_layers (set_show_stmts false opts) b) as [-> _]. }
  split; [|done].
  destruct (dump_layers_unfold (set_show_blocks false opts) funcList) as [_ ->].
  apply concat_map_nil. intros f.
  destruct (doFunction_layers (set_show_blocks false opts) f) as [_ ->].
  apply concat_map_nil. intros b.
  by destruct (doBlock_layers (set_show_blocks false opts) b) as [_ ->].
Qed.

End Layers.

(** ** Completeness of the dump *)

Lemma omap_concat_map {A B C : Type} (p : B → option C) (f : A → list B)
    (l : list A) :
  omap p (concat (map f l)) = concat (map (λ x, omap p (f x)) l).
Proof.
  induction l as [|x l IH]; [done|].
  by rewrite !map_cons, !concat_cons, omap_app, IH.
Qed.

Lemma concat_concat_map {A B : Type} (h : A → list (list B)) (l : list A) :
  concat (concat (map h l)) = concat (map (λ x, concat (h x)) l).
Proof.
  induction l as [|x l IH]; [done|].
  by rewrite !map_cons, !concat_cons, concat_app, IH.
Qed.

Lemma concat_map_perm {A B : Type} (f g : A → list B) (l1 l2 : list A) :
  (∀ x, f x ≡ₚ g x) → l1 ≡ₚ l2 → concat (map f l1) ≡ₚ concat (map g l2).
Proof.
  intros Hfg Hperm. rewrite <- Hperm. clear Hperm.
  induction l1 as [|x l1 IH]; [done|].
  rewrite !map_cons, !concat_cons. by rewrite Hfg, IH.
Qed.

Section Complete.

Context (std_sort : ∀ A : Type, (A → A → bool) → list A → list A).
Context (Hsort : sort_contract std_sort).
Context (opts : Options).
Context (getContainingModule : Z → option (Z → list Statement)).
Context (getContainingInlinedFunction : Z → option FunctionBase).

Lemma stmt_addrs_doInstruction (addr : Z) (instn : Instruction) :
  stmt_addrs (doInstruction opts getContainingModule getContainingInlinedFunction
                addr instn) = [addr].
Proof.
  unfold doInstruction, stmt_addrs. simpl. f_equal.
  destruct (show_inline opts); [|done].
  destruct (getContainingInlinedFunction addr) as [func|]; [|done].
  by induction (inline_walk func []).
Qed.

Lemma stmt_addrs_doBlock (block : Block) :
  stmt_addrs (doBlock std_sort opts getContainingModule
                getContainingInlinedFunction block)
  = if show_stmts opts then map fst (insns block) else [].
Proof.
  unfold doBlock, stmt_addrs. rewrite !omap_app.
  assert (omap (λ o, match o with OutStmt a _ _ => Some a | _ => None end)
            (concat (map (λ iit, doInstruction opts getContainingModule
                                   getContainingInlinedFunction iit.1 iit.2)
                         (insns block)))
          = map fst (insns block)) as Hstmts.
  { induction (insns block) as [|[a i] imap IH]; [done|].
    rewrite !map_cons, concat_cons, omap_app, IH.
    pose proof (stmt_addrs_doInstruction a i) as H. unfold stmt_addrs in H.
    simpl fst. simpl snd. by rewrite H. }
  destruct (show_blocks opts), (show_stmts opts); simpl;
    rewrite ?Hstmts, ?app_nil_r; done.
Qed.

Lemma block_starts_doFunction (func : Function) :
  block_starts (doFunction std_sort opts getContainingModule
                  getContainingInlinedFunction func)
  ≡ₚ if show_blocks opts then map start (blocks func) else [].
Proof using Hsort.
  destruct (lines_doFunction std_sort opts getContainingModule
              getContainingInlinedFunction func) as [_ ->].
  destruct (show_blocks opts); [|done].
  apply Permutation_map. symmetry. apply (std_sort_perm std_sort Hsort start).
Qed.

Lemma stmt_addrs_doFunction (func : Function) :
  stmt_addrs (doFunction std_sort opts getContainingModule
                getContainingInlinedFunction func)
  ≡ₚ if show_stmts opts then map fst (all_insns (blocks func)) else [].
Proof using Hsort.
  unfold doFunction, stmt_addrs. rewrite !omap_app, omap_concat_map.
  fold stmt_addrs.
  replace (omap _ [OutFunc _ _ _]) with (@nil Z) by done.
  replace (omap _ (if show_stmts opts && negb (show_blocks opts)
                   then [OutNewline] else []))
    with (@nil Z) by (by destruct (_ && _)).
  simpl.
  destruct (show_stmts opts) eqn:Hs.
  - unfold all_insns. rewrite concat_map, map_map.
    apply concat_map_perm.
    + intros b. pose proof (stmt_addrs_doBlock b) as H.
      rewrite Hs in H. by rewrite <- H.
    + symmetry. apply (std_sort_perm std_sort Hsort start).
  - rewrite concat_map_nil; [done|]. intros b.
    pose proof (stmt_addrs_doBlock b) as H. by rewrite Hs in H.
Qed.

Lemma dump_omap {C : Type} (p : Output → option C) (funcList : list Function) :
  (∀ n, p (OutNumFuncs n) = None) →
  omap p (dump std_sort opts getContainingModule getContainingInlinedFunction
            funcList)
  = concat (map (λ f, omap p (doFunction std_sort opts getContainingModule
                                getContainingInlinedFunction f))
                (std_sort Function FuncLessThan funcList)).
Proof.
  intros Hp. unfold dump. rewrite omap_app, omap_concat_map.
  cbn [omap list_omap]. by rewrite Hp, app_nil_r.
Qed.

(** X23.  The dump is complete.  Its function lines carry the entry
    addresses of the functions of the code object, each function once;
    with the blocks shown its block lines carry the start address of every
    block of every function, once for each function that lists the block;
    with the statements shown its statement lines carry the address of
    every instruction of these blocks; and its last line reports the number
    of functions of the code object. *)
Theorem dump_complete (funcList : list Function) :
  func_addrs (dump std_sort opts getContainingModule
                getContainingInlinedFunction funcList)
  ≡ₚ map addr funcList
  ∧ block_starts (dump std_sort opts getContainingModule
                    getContainingInlinedFunction funcList)
    ≡ₚ (if show_blocks opts then map start (all_blocks funcList) else [])
  ∧ stmt_addrs (dump std_sort opts getContainingModule
                  getContainingInlinedFunction funcList)
    ≡ₚ (if show_stmts opts
        then map fst (all_insns (all_blocks funcList)) else [])
  ∧ list.last (dump std_sort opts getContainingModule
                 getContainingInlinedFunction funcList)
    = Some (OutNumFuncs (length funcList)).
Proof using Hsort.
  pose proof (std_sort_perm std_sort Hsort addr funcList) as Hperm.
  fold FuncLessThan in Hperm.
  split; [|split; [|split]].
  - rewrite func_addrs_dump. apply Permutation_map. by symmetry.
  - unfold block_starts at 1. rewrite dump_omap by done.
    destruct (show_blocks opts) eqn:Hb.
    + unfold all_blocks. rewrite concat_map, map_map.
      apply concat_map_perm; [|by symmetry].
      intros f. pose proof (block_starts_doFunction f) as H.
      rewrite Hb in H. exact H.
    + rewrite <- (concat_map_nil (λ _ : Function, @nil Z)
                    (std_sort Function FuncLessThan funcList)) by done.
      apply concat_map_perm; [|done].
      intros f. pose proof (block_starts_doFunction f) as H.
      rewrite Hb in H. exact H.
  - unfold stmt_addrs at 1. rewrite dump_omap by done.
    destruct (show_stmts opts) eqn:Hs.
    + unfold all_insns, all_blocks.
      rewrite !concat_map, !map_map.
      rewrite concat_concat_map.
      apply concat_map_perm; [|by symmetry].
      intros f. pose proof (stmt_addrs_doFunction f) as H.
      rewrite Hs in H. unfold all_insns in H.
      rewrite concat_map in H. exact H.
    + rewrite <- (concat_map_nil (λ _ : Function, @nil Z)
                    (std_sort Function FuncLessThan funcList)) by done.
      apply concat_map_perm; [|done].
      intros f. pose proof (stmt_addrs_doFunction f) as H.
      rewrite Hs in H. exact H.
  - unfold dump. rewrite last_snoc. do 2 f_equal.
    symmetry. by apply Permutation_length.
Qed.

End Complete.

Lemma dump_complete_witness :
  let i := {| insn_size := 1 |} in
  let b1 := {| start := 0x1000; end_ := 0x1002; last := 0x1001;
               insns := [(0x1000, i); (0x1001, i)]; targets := [];
               funcs := [0x1000] |} in
  let b2 := {| start := 0x1010; end_ := 0x1011; last := 0x1010;
               insns := [(0x1010, i)]; targets := []; funcs := [0x1000] |} in
  let f1 := {| addr := 0x2000; name := "high"; retstatus := RETURN; blocks := [] |} in
  let f2 := {| addr := 0x1000; name := "low"; retstatus := RETURN;
               blocks := [b2; b1] |} in
  stmt_addrs (dump sort_ties_kept default_options (λ _, None) (λ _, None) [f1; f2])
  ≡ₚ [0x1010; 0x1000; 0x1001].
Proof.
  intros i b1 b2 f1 f2.
  destruct (dump_complete sort_ties_kept sort_ties_kept_contract default_options
              (λ _, None) (λ _, None) [f1; f2]) as (_ & _ & H & _).
  exact H.
Defined.

(** ** Independence of the order of the input *)

Lemma to_long_add_l (a b : Z) : to_long (to_long a + b) = to_long (a + b).
Proof.
  assert (wrap64 (to_long a + b) = wrap64 (a + b)) as Hwrap.
  { unfold to_long, wrap64.
    destruct (a mod 2 ^ 64 <? 2 ^ 63).
    - by rewrite Zplus_mod_idemp_l.
    - replace (a mod 2 ^ 64 - 2 ^ 64 + b)
        with (a mod 2 ^ 64 + b + (-1) * 2 ^ 64) by lia.
      by rewrite Z_mod_plus_full, Zplus_mod_idemp_l. }
  unfold to_long at 1 3. by rewrite Hwrap.
Qed.

Lemma foldl_bytes (acc : Z) (blockVec : list Block) :
  to_long acc = acc →
  foldl (λ bytes block, to_long (bytes + size block)) acc blockVec
  = to_long (acc + sum_Z (map size blockVec)).
Proof.
  revert acc. induction blockVec as [|b blockVec IH]; intros acc Hacc.
  - unfold sum_Z. simpl. by rewrite Z.add_0_r.
  - simpl foldl. rewrite IH.
    + rewrite to_long_add_l. unfold sum_Z. simpl. f_equal. lia.
    + pose proof (to_long_add_l (acc + size b) 0) as H.
      by rewrite !Z.add_0_r in H.
Qed.

Section OrderIndependent.

Context (sort1 sort2 : ∀ A : Type, (A → A → bool) → list A → list A).
Context (Hsort1 : sort_contract sort1) (Hsort2 : sort_contract sort2).
Context (opts : Options).
Context (getContainingModule : Z → option (Z → list Statement)).
Context (getContainingInlinedFunction : Z → option FunctionBase).

Lemma doBlock_sort_independent (block : Block) :
  block_unambiguous block →
  doBlock sort1 opts getContainingModule getContainingInlinedFunction block
  = doBlock sort2 opts getContainingModule getContainingInlinedFunction block.
Proof using Hsort1 Hsort2.
  intros Hedges. unfold doBlock.
  assert (sort1 Z FuncAddrLessThan (funcs block)
          = sort2 Z FuncAddrLessThan (funcs block)) as ->.
  { apply (std_sort_unique_inj (λ a : Z, a)); done. }
  assert (sort1 Edge EdgeLessThan (targets block)
          = sort2 Edge EdgeLessThan (targets block)) as ->.
  { apply (std_sort_unique trg_start); done. }
  done.
Qed.


(** X24.  For a function whose blocks start at distinct addresses and
    whose blocks each have out edges to distinct targets, the text that
    [doFunction] writes does not depend on the order in which the engine
    lists the blocks, nor on how the sort places them. *)
Theorem doFunction_text_order_independent (func1 func2 : Function) :
  function_unambiguous func1 →
  addr func1 = addr func2 → name func1 = name func2 →
  retstatus func1 = retstatus func2 →
  blocks func1 ≡ₚ blocks func2 →
  doFunction sort1 opts getContainingModule getContainingInlinedFunction func1
  = doFunction sort2 opts getContainingModule getContainingInlinedFunction func2.
Proof using Hsort1 Hsort2.
  intros [Hstarts Hblocks] Haddr Hname Hret Hperm. unfold doFunction.
  rewrite <- Haddr, <- Hname, <- Hret, <- (Permutation_length Hperm).
  rewrite !foldl_bytes by done.
  rewrite <- (UnknownX86More.sum_Z_perm _ _ (Permutation_map size Hperm)).
  assert (sort1 Block BlockLessThan (blocks func1)
          = sort2 Block BlockLessThan (blocks func2)) as <-.
  { apply (std_sort_unique start); done. }
  do 2 f_equal. apply concat_map_ext_in. intros b Hb.
  apply doBlock_sort_independent.
  rewrite Forall_forall in Hblocks. apply Hblocks.
  by rewrite (std_sort_perm sort1 Hsort1 start (blocks func1)).
Qed.


End OrderIndependent.

Lemma doFunction_text_order_independent_witness :
  let i := {| insn_size := 1 |} in
  let e1 := {| trg_start := 0x1010; trg_noreturn := false; etype := COND_TAKEN;
               interproc := false |} in
  let e2 := {| trg_start := 0x1002; trg_noreturn := false;
               etype := COND_NOT_TAKEN; interproc := false |} in
  let b1 := {| start := 0x1000; end_ := 0x1002; last := 0x1001;
               insns := [(0x1000, i); (0x1001, i)]; targets := [e1; e2];
               funcs := [0x1000] |} in
  let b2 := {| start := 0x1010; end_ := 0x1011; last := 0x1010;
               insns := [(0x1010, i)]; targets := []; funcs := [0x1000] |} in
  doFunction sort_ties_kept default_options (λ _, None) (λ _, None)
    {| addr := 0x1000; name := "f"; retstatus := RETURN; blocks := [b2; b1] |}
  = doFunction sort_ties_reversed default_options (λ _, None) (λ _, None)
      {| addr := 0x1000; name := "f"; retstatus := RETURN; blocks := [b1; b2] |}.
Proof.
  intros i e1 e2 b1 b2.
  apply (doFunction_text_order_independent sort_ties_kept sort_ties_reversed
           sort_ties_kept_contract sort_ties_reversed_contract);
    [|reflexivity|reflexivity|reflexivity|apply Permutation_swap].
  split; [apply (bool_decide_unpack _); vm_compute; reflexivity|].
  repeat (apply Forall_cons; split;
          [apply (bool_decide_unpack _); vm_compute; reflexivity|]).
  apply Forall_nil_2.
Defined.


End CfgParseMore.
